(** * librd: the thread-local cyclic buffer pool of [rdstring.c]

    A shallow embedding of [rdstr_cyclic_get], [rd_tsprintf] and
    [rd_string_thread_cleanup] over an explicit heap, and the properties of
    the pool they maintain.

    Conventions.
    - A C [int] is a [Z]; the arithmetic of the code ([len++], [len * 4],
      [(i + 1) % size]) is written with its 32-bit wrap-around.
    - A pointer is [option positive]: [None] is [NULL], [Some b] names a
      heap block.  Blocks are never reused, so a pointer that was passed to
      [free] stays distinguishable from every later allocation.
    - Code that dereferences memory returns [option]: [None] stands for
      undefined behaviour (dead block, index out of bounds, write past the
      end of a block).
    - [malloc] and [calloc] are taken to succeed. *)

From stdpp Require Import gmap list.
From Stdlib Require Import ZArith Lia.
From Stdlib.Strings Require Import Byte.

Local Open Scope Z_scope.

(** * Part 1: the code and the vocabulary of its properties *)

(** ** C integers *)

Definition INT_MAX : Z := 2147483647.

Definition int_wrap (z : Z) : Z := (z + 2 ^ 31) `mod` 2 ^ 32 - 2 ^ 31.

Definition int_add (a b : Z) : Z := int_wrap (a + b).
Definition int_mul (a b : Z) : Z := int_wrap (a * b).

(** [(size_t) n] for an [int] n, on an LP64 platform. *)
Definition size_t_of_int (n : Z) : Z := n `mod` 2 ^ 64.

(** ** Heap *)

Abbreviation ptr := (option positive) (only parsing).

Inductive object :=
  | PtrArray (cells : list ptr)           (* storage of a [char **] *)
  | IntArray (cells : list Z)             (* storage of an [int *] *)
  | CharBuf (bytes : Z) (text : list byte). (* [bytes] allocated, [text] written *)

Record heap := Heap {
  live : gmap positive object;
  next : positive
}.

Definition malloc (h : heap) (n : Z) : ptr * heap :=
  (Some (next h),
   {| live := <[next h := CharBuf (size_t_of_int n) []]> (live h);
      next := Pos.succ (next h) |}).

(** [calloc(sizeof(char * ), n)] and [calloc(sizeof(int), n)]: zero-filled,
    for a count [n] that is not negative. *)
Definition calloc_ptrs (h : heap) (n : Z) : ptr * heap :=
  (Some (next h),
   {| live := <[next h := PtrArray (replicate (Z.to_nat n) None)]> (live h);
      next := Pos.succ (next h) |}).

Definition calloc_ints (h : heap) (n : Z) : ptr * heap :=
  (Some (next h),
   {| live := <[next h := IntArray (replicate (Z.to_nat n) 0)]> (live h);
      next := Pos.succ (next h) |}).

(** [free(p)]: nothing for [NULL]; undefined on a block that is not live. *)
Definition free (h : heap) (p : ptr) : option heap :=
  match p with
  | None => Some h
  | Some b =>
      match live h !! b with
      | Some _ => Some {| live := delete b (live h); next := next h |}
      | None => None
      end
  end.

(** [p[idx]] for [p : char **]. *)
Definition load_ptr (h : heap) (p : ptr) (idx : Z) : option ptr :=
  b ← p;
  match live h !! b with
  | Some (PtrArray cells) =>
      if decide (0 ≤ idx) then cells !! Z.to_nat idx else None
  | _ => None
  end.

(** [p[idx]] for [p : int *]. *)
Definition load_int (h : heap) (p : ptr) (idx : Z) : option Z :=
  b ← p;
  match live h !! b with
  | Some (IntArray cells) =>
      if decide (0 ≤ idx) then cells !! Z.to_nat idx else None
  | _ => None
  end.

(** [p[idx] = v] for [p : char **]. *)
Definition store_ptr (h : heap) (p : ptr) (idx : Z) (v : ptr) : option heap :=
  b ← p;
  match live h !! b with
  | Some (PtrArray cells) =>
      if decide (0 ≤ idx < Z.of_nat (length cells)) then
        Some {| live := <[b := PtrArray (<[Z.to_nat idx := v]> cells)]> (live h);
                next := next h |}
      else None
  | _ => None
  end.

(** [p[idx] = v] for [p : int *]. *)
Definition store_int (h : heap) (p : ptr) (idx : Z) (v : Z) : option heap :=
  b ← p;
  match live h !! b with
  | Some (IntArray cells) =>
      if decide (0 ≤ idx < Z.of_nat (length cells)) then
        Some {| live := <[b := IntArray (<[Z.to_nat idx := v]> cells)]> (live h);
                next := next h |}
      else None
  | _ => None
  end.

(** ** Formatting

    A call [rd_tsprintf(format, ...)] hands the same format and arguments to
    [vsnprintf] twice.  They enter the model through what [vsnprintf] makes
    of them: an encoding error, or the bytes of the complete output. *)

Inductive formatted :=
  | FormatError
  | Formatted (out : list byte).

(** [vsnprintf(NULL, 0, format, ap)]: the length of the complete output
    without its terminator, or a negative value. *)
Definition vsnprintf_len (f : formatted) : Z :=
  match f with
  | FormatError => -1
  | Formatted out =>
      if decide (Z.of_nat (length out) ≤ INT_MAX) then Z.of_nat (length out)
      else -1
  end.

(** What [vsnprintf(str, n, ...)] leaves in [str] for [n > 0]: at most
    [n - 1] bytes of the output, then the terminator. *)
Definition rendered (n : Z) (out : list byte) : list byte :=
  take (Z.to_nat (n - 1)) out ++ [x00].

(** [vsnprintf(str, n, format, ap)] with [n] already a [size_t]. *)
Definition vsnprintf (h : heap) (str : ptr) (n : Z) (f : formatted)
  : option heap :=
  match f with
  | FormatError => Some h
  | Formatted out =>
      if decide (n = 0) then Some h
      else
        b ← str;
        match live h !! b with
        | Some (CharBuf bytes _) =>
            if decide (Z.of_nat (length (rendered n out)) ≤ bytes) then
              Some {| live := <[b := CharBuf bytes (rendered n out)]> (live h);
                      next := next h |}
            else None
        | _ => None
        end
  end.

(** ** Thread-local state *)

Record rdstr_cyclic := Cyclic {
  size : Z;
  buf : ptr;
  len : ptr;
  i : Z
}.

(** One thread: its [rdstr_states.tsp] and the heap. *)
Record state := State {
  tsp : rdstr_cyclic;
  mem : heap
}.

(** ** The code *)

(** [rdstr_cyclic_get(cyc, size)] on [&rdstr_states.tsp]: the first branch
    assigns [size], [buf] and [len] and leaves [i] as it is. *)
Definition rdstr_cyclic_get (st : state) (sz : Z) : state :=
  let cyc := tsp st in
  if decide (size cyc = 0) then
    let '(pb, h1) := calloc_ptrs (mem st) sz in
    let '(pl, h2) := calloc_ints h1 sz in
    {| tsp := {| size := sz; buf := pb; len := pl; i := i cyc |};
       mem := h2 |}
  else
    {| tsp := {| size := size cyc; buf := buf cyc; len := len cyc;
                 i := Z.rem (int_add (i cyc) 1) (size cyc) |};
       mem := mem st |}.

Section rd_tsprintf.

(** [RD_TSPRINTF_BUFCNT] is a macro of [rdstring.h]. *)
Variable RD_TSPRINTF_BUFCNT : Z.

(** [rd_tsprintf(format, ...)]: the result is the returned pointer and the
    state it leaves. *)
Definition rd_tsprintf (f : formatted) (st : state) : option (ptr * state) :=
  let st := rdstr_cyclic_get st RD_TSPRINTF_BUFCNT in
  let cyc := tsp st in
  let n := vsnprintf_len f in
  if decide (n < 0) then Some (None, st)
  else
    let n := int_add n 1 in
    b ← load_ptr (mem st) (buf cyc) (i cyc);
    replace ←
      match b with
      | None => Some true
      | Some _ =>
          c ← load_int (mem st) (len cyc) (i cyc);
          Some (bool_decide (c < n)
                || (bool_decide (c > int_mul n 4) && bool_decide (c > 64)))
      end;
    h ←
      (if replace : bool then
         h1 ← (if b is Some _ then free (mem st) b else Some (mem st));
         h2 ← store_int h1 (len cyc) (i cyc) n;
         let '(p, h3) := malloc h2 n in
         store_ptr h3 (buf cyc) (i cyc) p
       else Some (mem st));
    str ← load_ptr h (buf cyc) (i cyc);
    c ← load_int h (len cyc) (i cyc);
    h ← vsnprintf h str (size_t_of_int c) f;
    r ← load_ptr h (buf cyc) (i cyc);
    Some (r, {| tsp := cyc; mem := h |}).

End rd_tsprintf.

(** The [for] loop of [rd_string_thread_cleanup], [todo] iterations from
    index [idx]. *)
Fixpoint cleanup_loop (todo : nat) (idx : Z) (cyc : rdstr_cyclic) (h : heap)
  : option heap :=
  match todo with
  | O => Some h
  | S todo =>
      b ← load_ptr h (buf cyc) idx;
      h ← (if b is Some _ then free h b else Some h);
      cleanup_loop todo (int_add idx 1) cyc h
  end.

(** [rd_string_thread_cleanup()]: [buf] and [len] keep their dangling
    values, [i] its last value. *)
Definition rd_string_thread_cleanup (st : state) : option state :=
  let cyc := tsp st in
  if decide (size cyc ≠ 0) then
    h ← cleanup_loop (Z.to_nat (size cyc)) 0 cyc (mem st);
    h ← free h (buf cyc);
    h ← free h (len cyc);
    Some {| tsp := {| size := 0; buf := buf cyc; len := len cyc; i := i cyc |};
            mem := h |}
  else Some st.

(** A thread starts with zero-filled thread-local storage. *)
Definition fresh_thread (h : heap) : state :=
  {| tsp := {| size := 0; buf := None; len := None; i := 0 |}; mem := h |}.

Definition empty_heap : heap := {| live := ∅; next := 1 |}.

(** ** Reading the pool through the heap *)

(** The cells of [cyc->buf] and of [cyc->len], when these arrays are live. *)
Definition buf_cells (st : state) : option (list ptr) :=
  b ← buf (tsp st);
  match live (mem st) !! b with
  | Some (PtrArray cells) => Some cells
  | _ => None
  end.

Definition len_cells (st : state) : option (list Z) :=
  b ← len (tsp st);
  match live (mem st) !! b with
  | Some (IntArray cells) => Some cells
  | _ => None
  end.

(** [cyc->buf[j]] and [cyc->len[j]]. *)
Definition slot_storage (st : state) (j : Z) : option ptr :=
  load_ptr (mem st) (buf (tsp st)) j.

Definition slot_capacity (st : state) (j : Z) : option Z :=
  load_int (mem st) (len (tsp st)) j.

(** The bytes last written to the block [p] points to. *)
Definition text_at (h : heap) (p : ptr) : option (list byte) :=
  b ← p;
  match live h !! b with
  | Some (CharBuf _ text) => Some text
  | _ => None
  end.

Definition is_live (h : heap) (p : ptr) : Prop :=
  match p with
  | Some b => is_Some (live h !! b)
  | None => False
  end.

(** ** The invariant of the pool *)

(** No block at or above the allocation pointer is live. *)
Definition heap_wf (h : heap) : Prop :=
  map_Forall (λ b _, (b < next h)%positive) (live h).

(** A slot is unused ([NULL], length 0), or owns a live block of exactly the
    recorded length into which the last write fitted. *)
Definition slot_ok (h : heap) (p : ptr) (c : Z) : Prop :=
  match p with
  | None => c = 0
  | Some b =>
      match live h !! b with
      | Some (CharBuf bytes text) =>
          bytes = c ∧ 1 ≤ c ≤ INT_MAX ∧ Z.of_nat (length text) ≤ c
      | _ => False
      end
  end.

Definition pool_inv (k : Z) (st : state) : Prop :=
  heap_wf (mem st) ∧
  0 ≤ i (tsp st) < k ∧
  if decide (size (tsp st) = 0) then
    buf_cells st = None ∧ len_cells st = None
  else
    size (tsp st) = k ∧
    match buf_cells st, len_cells st with
    | Some bs, Some ls =>
        length bs = Z.to_nat k ∧ length ls = Z.to_nat k ∧
        Forall2 (slot_ok (mem st)) bs ls ∧
        NoDup (omap id bs)
    | _, _ => False
    end.

#[global] Instance heap_wf_dec h : Decision (heap_wf h).
Proof. unfold heap_wf. apply _. Defined.

#[global] Instance slot_ok_dec h p c : Decision (slot_ok h p c).
Proof.
  unfold slot_ok. destruct p as [b|]; [|apply _].
  destruct (live h !! b) as [[| |]|]; apply _.
Defined.

#[global] Instance pool_inv_dec k st : Decision (pool_inv k st).
Proof.
  unfold pool_inv.
  destruct (decide (size (tsp st) = 0)); [apply _|].
  destruct (buf_cells st), (len_cells st); apply _.
Defined.

(** The outputs for which [len++] and [len * 4] stay within [int]. *)
Definition no_overflow (out : list byte) : Prop :=
  (Z.of_nat (length out) + 1) * 4 ≤ INT_MAX.

(** ** Vocabulary of the proofs *)

(** An initialised pool, with its two arrays named. *)

Record pool_shape (k : Z) (st : state) (pb pl : positive)
    (bs : list ptr) (ls : list Z) : Prop := {
  shape_size : size (tsp st) = k;
  shape_buf : buf (tsp st) = Some pb;
  shape_len : len (tsp st) = Some pl;
  shape_buf_live : live (mem st) !! pb = Some (PtrArray bs);
  shape_len_live : live (mem st) !! pl = Some (IntArray ls);
  shape_buf_length : length bs = Z.to_nat k;
  shape_len_length : length ls = Z.to_nat k;
  shape_slots : Forall2 (slot_ok (mem st)) bs ls;
  shape_nodup : NoDup (omap id bs)
}.

(** The decision of [rd_tsprintf] on the slot [(p, c)] for a string that
    needs [n] bytes. *)
Definition must_replace (p : ptr) (c n : Z) : Prop :=
  p = None ∨ c < n ∨ (c > n * 4 ∧ c > 64).

#[global] Instance must_replace_dec p c n : Decision (must_replace p c n).
Proof. unfold must_replace. apply _. Defined.

(** The heap after the slot [j] of the pool [(pb, pl)] got a new block of
    [n] bytes in place of [p]. *)
Definition heap_renewed (h : heap) (pb pl : positive)
    (bs : list ptr) (ls : list Z) (j : nat) (p : ptr) (n : Z) : heap :=
  let m0 := match p with Some b => delete b (live h) | None => live h end in
  let m1 := <[pl := IntArray (<[j := n]> ls)]> m0 in
  let m2 := <[next h := CharBuf n []]> m1 in
  {| live := <[pb := PtrArray (<[j := Some (next h)]> bs)]> m2;
     next := Pos.succ (next h) |}.

(** The heap after [out] was written into the block [b] of [c] bytes. *)
Definition heap_written (h : heap) (b : positive) (c : Z) (out : list byte)
  : heap :=
  {| live := <[b := CharBuf c (out ++ [x00])]> (live h); next := next h |}.

(** What a successful call leaves, relative to the state [st1] after the
    acquisition and to the slot [(p, c)] it found under the cursor. *)
Record render_post (k : Z) (st1 : state) (out : list byte)
    (p : ptr) (c : Z) (r : ptr) (st' : state) : Prop := {
  post_tsp : tsp st' = tsp st1;
  post_inv : pool_inv k st';
  post_storage : slot_storage st' (i (tsp st1)) = Some r;
  post_text : text_at (mem st') r = Some (out ++ [x00]);
  post_replaced :
    must_replace p c (Z.of_nat (length out) + 1) →
    r = Some (next (mem st1)) ∧
    slot_capacity st' (i (tsp st1)) = Some (Z.of_nat (length out) + 1) ∧
    live (mem st') !! next (mem st1)
      = Some (CharBuf (Z.of_nat (length out) + 1) (out ++ [x00])) ∧
    ¬ is_live (mem st1) r ∧ ¬ is_live (mem st') p;
  post_kept :
    ¬ must_replace p c (Z.of_nat (length out) + 1) →
    r = p ∧ slot_capacity st' (i (tsp st1)) = Some c;
  post_others :
    ∀ j, j ≠ i (tsp st1) →
      slot_storage st' j = slot_storage st1 j ∧
      slot_capacity st' j = slot_capacity st1 j ∧
      ∀ q, slot_storage st1 j = Some q →
           text_at (mem st') q = text_at (mem st1) q
}.

(** The heap without the blocks [bl]. *)
Definition release (bl : list positive) (m : gmap positive object)
  : gmap positive object :=
  foldl (λ m b, delete b m) m bl.

(** The pool after the teardown of an initialised pool. *)
Definition torn_down (st : state) (pb pl : positive) (bs : list ptr) : state :=
  {| tsp := {| size := 0; buf := Some pb; len := Some pl; i := i (tsp st) |};
     mem := {| live := delete pl (delete pb
                         (release (omap id bs) (live (mem st))));
               next := next (mem st) |} |}.

(** ** Sequences of calls *)

Inductive op :=
  | Render (f : formatted)
  | Cleanup.

Definition step (k : Z) (o : op) (st : state) : option state :=
  match o with
  | Render f => x ← rd_tsprintf k f st; Some x.2
  | Cleanup => rd_string_thread_cleanup st
  end.

Fixpoint run (k : Z) (ops : list op) (st : state) : option state :=
  match ops with
  | [] => Some st
  | o :: ops => st' ← step k o st; run k ops st'
  end.

(** The calls whose arithmetic stays within [int]. *)
Definition format_ok (f : formatted) : Prop :=
  match f with
  | FormatError => True
  | Formatted out => no_overflow out
  end.

Definition op_ok (o : op) : Prop :=
  match o with
  | Render f => format_ok f
  | Cleanup => True
  end.

#[global] Instance no_overflow_dec out : Decision (no_overflow out).
Proof. unfold no_overflow. apply _. Defined.

#[global] Instance format_ok_dec f : Decision (format_ok f).
Proof. destruct f; simpl; apply _. Defined.

#[global] Instance op_ok_dec o : Decision (op_ok o).
Proof. destruct o; simpl; apply _. Defined.

(** ** The statements about one call and about runs *)

(** What [rd_tsprintf] does to the slot under the cursor: [p] and [c] are
    its storage and capacity after the acquisition, [r] and [c'] after the
    call. *)
Definition replacement_rule (k : Z) (st : state) (out : list byte) : Prop :=
  let st1 := rdstr_cyclic_get st k in
  let j := i (tsp st1) in
  let needed := Z.of_nat (length out) + 1 in
  ∃ p c r c' st',
    slot_storage st1 j = Some p ∧ slot_capacity st1 j = Some c ∧
    rd_tsprintf k (Formatted out) st = Some (r, st') ∧
    slot_storage st' j = Some r ∧ slot_capacity st' j = Some c' ∧
    (p ≠ None → is_live (mem st1) p) ∧
    (r ≠ p ↔ p = None ∨ c < needed ∨ (c > needed * 4 ∧ c > 64)) ∧
    (r ≠ p →
       ¬ is_live (mem st') p ∧ ¬ is_live (mem st1) r ∧
       (∃ b text, r = Some b ∧
                  live (mem st') !! b = Some (CharBuf needed text)) ∧
       c' = needed) ∧
    (r = p → c' = c).

(** The slot under the cursor after the first [n] calls of [fs], started in
    [st]: the slot the [n]-th call uses. *)
Definition call_slot (k : Z) (st : state) (fs : list formatted) (n : nat)
  : option Z :=
  st' ← run k (Render <$> take n fs) st; Some (i (tsp st')).

(** The slots used by the calls [fs] made on a pool that the first of them
    initialises, in terms of the cursor [i (tsp st)] it starts with. *)
Definition rotation_rule (k : Z) (st : state) (fs : list formatted) : Prop :=
  (∀ n, (1 ≤ n ≤ length fs)%nat →
        call_slot k st fs n
        = Some ((i (tsp st) + Z.of_nat n - 1) `mod` k)) ∧
  (i (tsp st) = 0 →
   ∀ n, (1 ≤ n ≤ length fs)%nat →
        call_slot k st fs n = Some ((Z.of_nat n - 1) `mod` k)) ∧
  (∀ n, (1 ≤ n)%nat → (n + Z.to_nat k ≤ length fs)%nat →
        call_slot k st fs (n + Z.to_nat k) = call_slot k st fs n) ∧
  (∀ a b, (1 ≤ a < b)%nat → Z.of_nat b < Z.of_nat a + k →
          (b ≤ length fs)%nat →
          call_slot k st fs a ≠ call_slot k st fs b).

(** What the call that initialises the pool leaves: [k] slots, the one
    under the cursor holding exactly the output, all others unused. *)
Definition first_call (k : Z) (st : state) (out : list byte) : Prop :=
  ∃ r st',
    rd_tsprintf k (Formatted out) st = Some (r, st') ∧
    size (tsp st') = k ∧
    text_at (mem st') r = Some (out ++ [x00]) ∧
    slot_storage st' (i (tsp st')) = Some r ∧
    slot_capacity st' (i (tsp st')) = Some (Z.of_nat (length out) + 1) ∧
    ∀ j, 0 ≤ j < k → j ≠ i (tsp st') →
         slot_storage st' j = Some None ∧ slot_capacity st' j = Some 0.

(** What the caller reads through the pointers that the calls [fs] return,
    each read at the return of its call; [None] for [NULL]. *)
Fixpoint results (k : Z) (fs : list formatted) (st : state)
  : option (list (option (list byte))) :=
  match fs with
  | [] => Some []
  | f :: fs =>
      x ← rd_tsprintf k f st;
      rest ← results k fs x.2;
      Some (text_at (mem x.2) x.1 :: rest)
  end.

Definition expected (f : formatted) : option (list byte) :=
  match f with
  | FormatError => None
  | Formatted out => Some (out ++ [x00])
  end.





(** The slots of the pool, as (storage, capacity) pairs; none when the
    arrays are not allocated. *)
Definition slot_collection (st : state) : list (option positive * Z) :=
  match buf_cells st, len_cells st with
  | Some bs, Some ls => zip bs ls
  | _, _ => []
  end.

Definition structural (st : state) : Prop :=
  size (tsp st) = Z.of_nat (length (slot_collection st)) ∧
  (size (tsp st) = 0 ↔ slot_collection st = []) ∧
  (size (tsp st) > 0 → 0 ≤ i (tsp st) < size (tsp st)).

(** One turn of the rotation: [k - 1] calls into the other slots, then a
    call that renders [out] into the slot the cursor started on. *)
Definition turn (fs : list formatted) (out : list byte) : list op :=
  (Render <$> fs) ++ [Render (Formatted out)].

(** ** Concrete threads *)

Definition abc : list byte := [x61; x62; x63].

(** A thread that made two calls and tore its pool down. *)
Definition after_teardown : state :=
  default (fresh_thread empty_heap)
    (run 2 [Render (Formatted abc); Render (Formatted abc); Cleanup]
       (fresh_thread empty_heap)).

(** A thread that made one call. *)
Definition after_one_call : state :=
  default (fresh_thread empty_heap)
    (run 2 [Render (Formatted abc)] (fresh_thread empty_heap)).

(** A thread that made two calls, the second into slot 1. *)
Definition after_two_calls : state :=
  default (fresh_thread empty_heap)
    (run 2 [Render (Formatted abc); Render (Formatted abc)]
       (fresh_thread empty_heap)).

Definition big500 : list byte := replicate 500 x61.
Definition small10 : list byte := replicate 10 x62.

(** An output of 2^29 bytes: the product [len * 4] of the replacement test
    leaves [int]. *)
Definition huge : list byte := replicate (Z.to_nat (2 ^ 29)) x61.

(** ** Characters and strings in memory

    A [const char *] is the list of the bytes from the pointer to the end of
    the object it points into; reading beyond that list is undefined.  A
    pointer returned into the same object is the offset from the argument.
    Where the code compares pointers, the string comes with its address.
    Whether [char] is signed depends on the platform and is a parameter. *)

#[global] Instance byte_eq_dec : EqDecision byte := Byte.byte_eq_dec.

Definition SIZE_MAX : Z := 2 ^ 64 - 1.

(** [(ssize_t) n] for a [size_t] n. *)
Definition ssize_t_of_size_t (n : Z) : Z := (n + 2 ^ 63) `mod` 2 ^ 64 - 2 ^ 63.

(** [(unsigned char) c]. *)
Definition byte_val (c : byte) : Z := Z.of_N (Byte.to_N c).

(** [(int) c] for a [char] c. *)
Definition int_of_char (char_signed : bool) (c : byte) : Z :=
  if char_signed && bool_decide (128 ≤ byte_val c) then byte_val c - 256
  else byte_val c.

(** [strlen(s)]. *)
Definition strlen (s : list byte) : option Z :=
  x ← list_find (λ c, c = x00) s; Some (Z.of_nat x.1).

(** The characters of the string at [s], without the terminator. *)
Fixpoint c_string (s : list byte) : list byte :=
  match s with
  | [] => []
  | c :: s => if decide (c = x00) then [] else c :: c_string s
  end.

(** [map[idx]] and [map[idx] = v] on a [char map[256]]. *)
Definition table_get (map : list Z) (idx : Z) : option Z :=
  if decide (0 ≤ idx) then map !! Z.to_nat idx else None.

Definition table_set (map : list Z) (idx v : Z) : option (list Z) :=
  if decide (0 ≤ idx < Z.of_nat (length map)) then
    Some (<[Z.to_nat idx := v]> map)
  else None.

(** ** The rest of [rdstring.c] *)

Inductive errno_value := ERANGE.

Record cat_result := CatResult {
  cat_ret : Z;
  cat_str : list byte;
  cat_errno : option errno_value
}.

Section rd_snprintf_cat.

(** The negative value that [vsnprintf] returns on an error. *)
Variable vsnprintf_error : Z.

(** What [vsnprintf(str, n, format, ap)] returns. *)
Definition vsnprintf_ret (f : formatted) : Z :=
  if decide (vsnprintf_len f < 0) then vsnprintf_error else vsnprintf_len f.

(** [vsnprintf(str + off, n, format, ap)] on the object [str], with its
    return value. *)
Definition vsnprintf_at (str : list byte) (off n : Z) (f : formatted)
  : option (Z * list byte) :=
  match f with
  | FormatError => Some (vsnprintf_ret f, str)
  | Formatted out =>
      if decide (n = 0) then Some (vsnprintf_ret f, str)
      else
        let data := rendered n out in
        if decide (0 ≤ off ∧ off + Z.of_nat (length data)
                              ≤ Z.of_nat (length str)) then
          Some (vsnprintf_ret f,
                take (Z.to_nat off) str ++ data
                ++ drop (Z.to_nat off + length data) str)
        else None
  end.

(** [rd_snprintf_cat(str, size, format, ...)]: the return value, the
    object at [str] and the value the function stores to [errno], if
    any. *)
Definition rd_snprintf_cat (str : list byte) (size : Z) (f : formatted)
  : option cat_result :=
  n ← strlen str;
  let of_ := int_wrap n in
  if decide (size ≤ size_t_of_int of_) then
    Some {| cat_ret := -1; cat_str := str; cat_errno := Some ERANGE |}
  else
    x ← vsnprintf_at str of_ ((size - size_t_of_int of_) `mod` 2 ^ 64) f;
    Some {| cat_ret := int_add of_ x.1; cat_str := x.2; cat_errno := None |}.

End rd_snprintf_cat.

(** A pointer into a string is an address of a flat 64-bit address
    space: [p + n] wraps around it, and two pointers compare as the
    unsigned numbers they are. *)
Definition ptr_add (addr n : Z) : Z := (addr + n) `mod` 2 ^ 64.

Section chars.

Variable char_signed : bool.

(** The loop [while ( *chars) { map[(int) *chars] = 1; chars++; }] that
    [rd_strnchrs], [rd_strnspn] and [rd_strncspn] each start with. *)
Fixpoint mark_chars (chars : list byte) (map : list Z) : option (list Z) :=
  match chars with
  | [] => None
  | c :: chars =>
      if decide (c = x00) then Some map
      else
        map ← table_set map (int_of_char char_signed c) 1;
        mark_chars chars map
  end.

(** The second loop of [rd_strnchrs], for an [s] that started at the
    address [addr] and is now [off] bytes further: whether the loop
    returned from inside, and the offset it stopped at. *)
Fixpoint rd_strnchrs_loop (map : list Z) (size end_ addr : Z)
    (s : list byte) (off : Z) : option (bool * Z) :=
  if decide (size = -1 ∨ ptr_add addr off < end_) then
    match s with
    | [] => None
    | c :: s =>
        if decide (c = x00) then Some (false, off)
        else
          m ← table_get map (byte_val c);
          if decide (m ≠ 0) then Some (true, off)
          else rd_strnchrs_loop map size end_ addr s (off + 1)
    end
  else Some (false, off).

(** [rd_strnchrs(s, size, delimiters, match_eol)] for an [s] at the
    address [addr]: [None] inside is [NULL], [Some off] is [s + off]. *)
Definition rd_strnchrs (addr : Z) (s : list byte) (size : Z)
    (delimiters : list byte) (match_eol : Z) : option (option Z) :=
  let end_ := ptr_add addr size in
  map ← mark_chars delimiters (replicate 256 0);
  x ← rd_strnchrs_loop map size end_ addr s 0;
  if x.1 : bool then Some (Some x.2)
  else if decide (match_eol ≠ 0) then Some (Some x.2)
  else Some None.

(** The loop of [rd_strnspn_map], for an [s] that started at the address
    [addr] and is now [off] bytes further. *)
Fixpoint rd_strnspn_map_loop (size end_ addr accept : Z) (map : list Z)
    (s : list byte) (off cnt : Z) : option Z :=
  if decide (size = SIZE_MAX ∨ ptr_add addr off < end_) then
    match s with
    | [] => None
    | c :: s =>
        if decide (c = x00) then Some cnt
        else
          m ← table_get map (int_of_char char_signed c);
          if decide (m ≠ accept) then Some cnt
          else rd_strnspn_map_loop size end_ addr accept map s (off + 1)
                 (int_add cnt 1)
    end
  else Some cnt.

(** [rd_strnspn_map(s, size, accept, map)] for an [s] at the address
    [addr]. *)
Definition rd_strnspn_map (addr : Z) (s : list byte) (size accept : Z)
    (map : list Z) : option Z :=
  let end_ := ptr_add addr size in
  cnt ← rd_strnspn_map_loop size end_ addr accept map s 0 0;
  Some (size_t_of_int cnt).

Definition rd_strnspn (addr : Z) (s : list byte) (size : Z)
    (accept : list byte) : option Z :=
  map ← mark_chars accept (replicate 256 0);
  rd_strnspn_map addr s size 1 map.

Definition rd_strncspn (addr : Z) (s : list byte) (size : Z)
    (reject : list byte) : option Z :=
  map ← mark_chars reject (replicate 256 0);
  rd_strnspn_map addr s size 0 map.

End chars.

Section rd_strndiffpos.

(** [RD_MIN] is a macro of [rd.h]. *)
Variable RD_MIN : Z → Z → Z.

(** The [for] loop of [rd_strndiffpos], [todo] iterations from [pos]:
    the position it returned from inside, if it did. *)
Fixpoint rd_strndiffpos_loop (s1 s2 : list byte) (todo : nat) (pos : Z)
  : option (option Z) :=
  match todo with
  | O => Some None
  | S todo =>
      c1 ← s1 !! Z.to_nat pos;
      c2 ← s2 !! Z.to_nat pos;
      if decide (c1 ≠ c2) then Some (Some pos)
      else rd_strndiffpos_loop s1 s2 todo (pos + 1)
  end.

Definition rd_strndiffpos (s1 : list byte) (size1 : Z)
    (s2 : list byte) (size2 : Z) : option Z :=
  let minlen := RD_MIN size1 size2 in
  r ← rd_strndiffpos_loop s1 s2 (Z.to_nat minlen) 0;
  match r with
  | Some pos => Some pos
  | None =>
      if decide (size1 ≠ size2) then Some (ssize_t_of_size_t minlen)
      else Some (-1)
  end.

End rd_strndiffpos.

(** The loop of [rd_strdiffpos], with both strings at offset [off]. *)
Fixpoint rd_strdiffpos_loop (s1 s2 : list byte) (off : Z) : option Z :=
  match s1, s2 with
  | c1 :: s1, c2 :: s2 =>
      if decide (c1 = c2) then
        if decide (c1 = x00) then Some (-1)
        else rd_strdiffpos_loop s1 s2 (off + 1)
      else Some off
  | _, _ => None
  end.

Definition rd_strdiffpos (s1 s2 : list byte) : option Z :=
  rd_strdiffpos_loop s1 s2 0.

(** ** Vocabulary for the string functions *)

(** The part of [s] a scan may index by: the characters of the string,
    within the first [size] bytes unless [size] is the unbounded value. *)
Definition window (unbounded : Z) (size : Z) (s : list byte) : list byte :=
  if decide (size = unbounded) then c_string s
  else c_string (take (Z.to_nat size) s).

(** The scan stops inside the object: at a terminator, or at the bound. *)
Definition readable (unbounded : Z) (size : Z) (s : list byte) : Prop :=
  x00 ∈ s ∨ (size ≠ unbounded ∧ size ≤ Z.of_nat (length s)).

(** The number of bytes from [s] to [end = s + size] as the two scanning
    loops compare these pointers: [size], unless the sum leaves the
    address space; not positive when [end] is not above [s]. *)
Definition distance (addr size : Z) : Z := ptr_add addr size - ptr_add addr 0.

(** The part of [s] that a scan with the bound [s + size] can index by:
    the characters of the string, within [distance addr size] bytes unless
    [size] is the unbounded value. *)
Definition scanned (unbounded addr size : Z) (s : list byte) : list byte :=
  if decide (size = unbounded) then c_string s
  else c_string (take (Z.to_nat (distance addr size)) s).

(** Such a scan stops inside the object. *)
Definition in_object (unbounded addr size : Z) (s : list byte) : Prop :=
  x00 ∈ s ∨ (size ≠ unbounded ∧ distance addr size ≤ Z.of_nat (length s)).

#[global] Instance in_object_dec unbounded addr size s :
  Decision (in_object unbounded addr size s).
Proof. unfold in_object. apply _. Defined.

(** Characters that index the table from inside: all of them where [char]
    is unsigned, those below 128 where it is signed. *)
Definition indexes (char_signed : bool) (c : byte) : Prop :=
  0 ≤ int_of_char char_signed c.

#[global] Instance readable_dec unbounded size s :
  Decision (readable unbounded size s).
Proof. unfold readable. apply _. Defined.

#[global] Instance indexes_dec char_signed c :
  Decision (indexes char_signed c).
Proof. unfold indexes. apply _. Defined.

Definition hello : list byte := [x68; x65; x6c; x6c; x6f; x00].
Definition hello_world : list byte :=
  [x68; x65; x6c; x6c; x6f; x20; x77; x6f; x72; x6c; x64; x00].
Definition vowels : list byte := [x61; x65; x69; x6f; x75; x00].

(** Where a scan that stops at the first character satisfying [P] stops in
    [w]: the index of that character, or the length of [w]. *)
Definition stop_index (P : byte → Prop) `{∀ c, Decision (P c)}
    (w : list byte) : nat :=
  match list_find P w with
  | Some x => x.1
  | None => length w
  end.

(** [r] is what the two comparison functions answer for the character
    sequences [a] and [b]: -1 when they are equal, otherwise the index of
    the first position where they differ, the end of the shorter one
    included. *)
Definition first_difference (a b : list byte) (r : Z) : Prop :=
  (r = -1 ∧ a = b) ∨
  (∃ n : nat, r = Z.of_nat n ∧ take n a = take n b ∧ a !! n ≠ b !! n).

(** An object of 12 bytes holding the string "hello". *)
Definition hello_buffer : list byte := hello ++ replicate 6 x00.

(** ** The pool and the rest of the heap *)

(** The blocks the pool holds: its two arrays and the storage of its
    slots. *)
Definition pool_blocks (st : state) : list positive :=
  if decide (size (tsp st) = 0) then []
  else
    match buf (tsp st), len (tsp st), buf_cells st with
    | Some pb, Some pl, Some bs => pb :: pl :: omap id bs
    | _, _, _ => []
    end.

(** The heap of [st] is the heap [h] that the thread started on and,
    allocated after it, the blocks of the pool. *)
Definition owns (h : heap) (st : state) : Prop :=
  (next h ≤ next (mem st))%positive ∧
  (∀ b, b ∈ pool_blocks st → (next h ≤ b)%positive) ∧
  (∀ b, b ∉ pool_blocks st → live (mem st) !! b = live h !! b).

(** A heap with a block that is not the thread's. *)
Definition busy_heap : heap :=
  {| live := {[ 1%positive := CharBuf 4 abc ]}; next := 2 |}.

(** * Part 2: lemmas and theorems *)

(** ** Arithmetic within range *)

Lemma int_wrap_small z : - 2 ^ 31 ≤ z ≤ INT_MAX → int_wrap z = z.
Proof.
  unfold int_wrap, INT_MAX. intros Hz.
  rewrite Z.mod_small; lia.
Qed.

Lemma size_t_of_int_small n : 0 ≤ n ≤ INT_MAX → size_t_of_int n = n.
Proof. unfold size_t_of_int, INT_MAX. intros Hn. apply Z.mod_small. lia. Qed.

Lemma next_index (k c : Z) :
  1 ≤ k ≤ INT_MAX → 0 ≤ c < k →
  Z.rem (int_add c 1) k = (c + 1) `mod` k ∧ 0 ≤ (c + 1) `mod` k < k.
Proof.
  intros Hk Hc. unfold int_add.
  rewrite int_wrap_small by (unfold INT_MAX in *; lia).
  rewrite Z.rem_mod_nonneg by lia.
  split; [done|]. apply Z.mod_pos_bound. lia.
Qed.

Lemma vsnprintf_len_Formatted out :
  no_overflow out → vsnprintf_len (Formatted out) = Z.of_nat (length out).
Proof.
  unfold no_overflow, vsnprintf_len. intros Ho.
  rewrite decide_True; [done | lia].
Qed.

Lemma rendered_full n out :
  Z.of_nat (length out) < n → rendered n out = out ++ [x00].
Proof.
  intros Hn. unfold rendered. rewrite take_ge; [done | lia].
Qed.

(** ** Heap facts *)

Lemma heap_wf_next h : heap_wf h → live h !! next h = None.
Proof.
  intros Hwf. destruct (live h !! next h) eqn:E; [|done].
  apply Hwf in E. simpl in E. lia.
Qed.

Lemma heap_wf_alloc h o :
  heap_wf h →
  heap_wf {| live := <[next h := o]> (live h); next := Pos.succ (next h) |}.
Proof.
  intros Hwf. unfold heap_wf. simpl. apply map_Forall_insert_2; [lia|].
  intros b x Hb. apply Hwf in Hb. simpl in Hb. lia.
Qed.

Lemma heap_wf_update h b o :
  heap_wf h → is_Some (live h !! b) →
  heap_wf {| live := <[b := o]> (live h); next := next h |}.
Proof.
  intros Hwf [x Hx]. unfold heap_wf. simpl. apply map_Forall_insert_2.
  - by apply Hwf in Hx.
  - done.
Qed.

Lemma heap_wf_delete h b :
  heap_wf h → heap_wf {| live := delete b (live h); next := next h |}.
Proof.
  intros Hwf. unfold heap_wf. simpl. by apply map_Forall_delete.
Qed.

(** [slot_ok] only looks at the block of the slot. *)
Lemma slot_ok_frame h h' p c :
  (∀ b, p = Some b → live h' !! b = live h !! b) →
  slot_ok h p c → slot_ok h' p c.
Proof.
  intros Hsame. unfold slot_ok. destruct p as [b|]; [|done].
  by rewrite (Hsame b eq_refl).
Qed.

Lemma slot_ok_block h b c :
  slot_ok h (Some b) c →
  ∃ text, live h !! b = Some (CharBuf c text) ∧
          1 ≤ c ≤ INT_MAX ∧ Z.of_nat (length text) ≤ c.
Proof.
  unfold slot_ok. destruct (live h !! b) as [[| |bytes text]|]; try done.
  intros (-> & Hc & Ht). eauto.
Qed.

(** ** The shape of an initialised pool *)

Lemma buf_cells_Some st bs :
  buf_cells st = Some bs →
  ∃ pb, buf (tsp st) = Some pb ∧ live (mem st) !! pb = Some (PtrArray bs).
Proof.
  unfold buf_cells. destruct (buf (tsp st)) as [pb|]; [|done]. simpl.
  destruct (live (mem st) !! pb) as [[| |]|] eqn:E; try done.
  intros [= ->]. eauto.
Qed.

Lemma len_cells_Some st ls :
  len_cells st = Some ls →
  ∃ pl, len (tsp st) = Some pl ∧ live (mem st) !! pl = Some (IntArray ls).
Proof.
  unfold len_cells. destruct (len (tsp st)) as [pl|]; [|done]. simpl.
  destruct (live (mem st) !! pl) as [[| |]|] eqn:E; try done.
  intros [= ->]. eauto.
Qed.

Lemma pool_inv_shape k st :
  pool_inv k st → size (tsp st) ≠ 0 →
  ∃ pb pl bs ls, pool_shape k st pb pl bs ls.
Proof.
  intros (_ & _ & H) Hsz. rewrite decide_False in H by done.
  destruct H as [Hk H].
  destruct (buf_cells st) as [bs|] eqn:Eb; [|done].
  destruct (len_cells st) as [ls|] eqn:El; [|done].
  destruct H as (? & ? & ? & ?).
  apply buf_cells_Some in Eb as (pb & ? & ?).
  apply len_cells_Some in El as (pl & ? & ?).
  exists pb, pl, bs, ls. by constructor.
Qed.

Lemma shape_pool_inv k st pb pl bs ls :
  k ≠ 0 → heap_wf (mem st) → 0 ≤ i (tsp st) < k →
  pool_shape k st pb pl bs ls → pool_inv k st.
Proof.
  intros Hk Hwf Hi [].
  split; [done|]. split; [done|].
  rewrite decide_False by congruence. split; [done|].
  unfold buf_cells, len_cells.
  rewrite shape_buf0, shape_len0. simpl.
  by rewrite shape_buf_live0, shape_len_live0.
Qed.

(** ** [rdstr_cyclic_get] *)

Lemma cyclic_get_uninit st sz :
  size (tsp st) = 0 →
  rdstr_cyclic_get st sz =
    {| tsp := {| size := sz;
                 buf := Some (next (mem st));
                 len := Some (Pos.succ (next (mem st)));
                 i := i (tsp st) |};
       mem := {| live :=
                   <[Pos.succ (next (mem st)) :=
                       IntArray (replicate (Z.to_nat sz) 0)]>
                     (<[next (mem st) :=
                          PtrArray (replicate (Z.to_nat sz) None)]>
                        (live (mem st)));
                 next := Pos.succ (Pos.succ (next (mem st))) |} |}.
Proof. intros Hsz. unfold rdstr_cyclic_get. by rewrite decide_True. Qed.

Lemma cyclic_get_init st sz :
  size (tsp st) ≠ 0 →
  rdstr_cyclic_get st sz =
    {| tsp := {| size := size (tsp st); buf := buf (tsp st);
                 len := len (tsp st);
                 i := Z.rem (int_add (i (tsp st)) 1) (size (tsp st)) |};
       mem := mem st |}.
Proof. intros Hsz. unfold rdstr_cyclic_get. by rewrite decide_False. Qed.

Lemma Forall2_replicate_unused h n :
  Forall2 (slot_ok h) (replicate n None) (replicate n 0).
Proof. induction n; simpl; constructor; done. Qed.

Lemma omap_replicate_None {A} n : omap id (replicate n (@None A)) = [].
Proof. induction n; simpl; done. Qed.

(** After the acquisition the pool is initialised with [k] slots, whatever
    it was before. *)
Lemma cyclic_get_shape k st :
  1 ≤ k ≤ INT_MAX → pool_inv k st →
  let st1 := rdstr_cyclic_get st k in
  heap_wf (mem st1) ∧ 0 ≤ i (tsp st1) < k ∧
  ∃ pb pl bs ls, pool_shape k st1 pb pl bs ls.
Proof.
  intros Hk Hinv. destruct (decide (size (tsp st) = 0)) as [Hsz|Hsz].
  - rewrite (cyclic_get_uninit _ _ Hsz). simpl.
    destruct Hinv as (Hwf & Hi & _).
    split; [|split; [done|]].
    { apply (heap_wf_alloc (Heap _ _)). by apply heap_wf_alloc. }
    exists (next (mem st)), (Pos.succ (next (mem st))),
      (replicate (Z.to_nat k) None), (replicate (Z.to_nat k) 0).
    constructor; simpl; try done.
    + rewrite lookup_insert_ne by lia. by rewrite lookup_insert_eq.
    + by rewrite lookup_insert_eq.
    + by rewrite length_replicate.
    + by rewrite length_replicate.
    + apply Forall2_replicate_unused.
    + rewrite omap_replicate_None. constructor.
  - rewrite (cyclic_get_init _ _ Hsz). simpl.
    destruct (pool_inv_shape _ _ Hinv Hsz) as (pb & pl & bs & ls & []).
    destruct Hinv as (Hwf & Hi & _).
    rewrite shape_size0.
    destruct (next_index k (i (tsp st)) Hk Hi) as [-> Hi'].
    split; [done|]. split; [done|].
    exists pb, pl, bs, ls. by constructor.
Qed.

Lemma cyclic_get_inv k st :
  1 ≤ k ≤ INT_MAX → pool_inv k st → pool_inv k (rdstr_cyclic_get st k).
Proof.
  intros Hk Hinv.
  destruct (cyclic_get_shape k st Hk Hinv) as (Hwf & Hi & pb & pl & bs & ls & Hs).
  eapply shape_pool_inv; eauto. lia.
Qed.

(** ** The memory operations on live blocks *)

#[local] Arguments load_ptr : simpl never.
#[local] Arguments load_int : simpl never.
#[local] Arguments store_ptr : simpl never.
#[local] Arguments store_int : simpl never.
#[local] Arguments free : simpl never.
#[local] Arguments malloc : simpl never.
#[local] Arguments vsnprintf : simpl never.
#[local] Arguments vsnprintf_len : simpl never.

Lemma load_ptr_live h pb cells idx v :
  live h !! pb = Some (PtrArray cells) → 0 ≤ idx →
  cells !! Z.to_nat idx = Some v →
  load_ptr h (Some pb) idx = Some v.
Proof.
  intros Hpb Hidx Hv. unfold load_ptr. simpl. rewrite Hpb.
  by rewrite decide_True.
Qed.

Lemma load_int_live h pl cells idx v :
  live h !! pl = Some (IntArray cells) → 0 ≤ idx →
  cells !! Z.to_nat idx = Some v →
  load_int h (Some pl) idx = Some v.
Proof.
  intros Hpl Hidx Hv. unfold load_int. simpl. rewrite Hpl.
  by rewrite decide_True.
Qed.

Lemma store_ptr_live h pb cells idx v :
  live h !! pb = Some (PtrArray cells) →
  0 ≤ idx < Z.of_nat (length cells) →
  store_ptr h (Some pb) idx v =
    Some {| live := <[pb := PtrArray (<[Z.to_nat idx := v]> cells)]> (live h);
            next := next h |}.
Proof.
  intros Hpb Hidx. unfold store_ptr. simpl. rewrite Hpb.
  by rewrite decide_True.
Qed.

Lemma store_int_live h pl cells idx v :
  live h !! pl = Some (IntArray cells) →
  0 ≤ idx < Z.of_nat (length cells) →
  store_int h (Some pl) idx v =
    Some {| live := <[pl := IntArray (<[Z.to_nat idx := v]> cells)]> (live h);
            next := next h |}.
Proof.
  intros Hpl Hidx. unfold store_int. simpl. rewrite Hpl.
  by rewrite decide_True.
Qed.

Lemma free_guard h (p : option positive) :
  (if p is Some _ then free h p else Some h) = free h p.
Proof. by destruct p. Qed.

Lemma free_live h b o :
  live h !! b = Some o →
  free h (Some b) = Some {| live := delete b (live h); next := next h |}.
Proof. intros Hb. unfold free. by rewrite Hb. Qed.

Lemma vsnprintf_live h b bytes text n out :
  live h !! b = Some (CharBuf bytes text) → n ≠ 0 →
  Z.of_nat (length (rendered n out)) ≤ bytes →
  vsnprintf h (Some b) n (Formatted out) =
    Some {| live := <[b := CharBuf bytes (rendered n out)]> (live h);
            next := next h |}.
Proof.
  intros Hb Hn Hfit. unfold vsnprintf. rewrite decide_False by done.
  simpl. rewrite Hb. by rewrite decide_True.
Qed.

(** ** [rd_tsprintf], symbolically *)

Lemma shape_slot k st pb pl bs ls :
  pool_shape k st pb pl bs ls → 0 ≤ i (tsp st) < k →
  ∃ p c, bs !! Z.to_nat (i (tsp st)) = Some p ∧
         ls !! Z.to_nat (i (tsp st)) = Some c ∧
         slot_ok (mem st) p c.
Proof.
  intros [] Hi.
  destruct (lookup_lt_is_Some_2 bs (Z.to_nat (i (tsp st)))) as [p Hp]; [lia|].
  destruct (Forall2_lookup_l _ _ _ _ _ shape_slots0 Hp) as (c & Hc & Hok).
  eauto.
Qed.

Lemma replace_test c n :
  bool_decide (c < n) || bool_decide (c > n * 4) && bool_decide (c > 64)
  = bool_decide (c < n ∨ (c > n * 4 ∧ c > 64)).
Proof.
  destruct (decide (c < n ∨ (c > n * 4 ∧ c > 64))) as [H|H].
  - rewrite (bool_decide_eq_true_2 _ H).
    destruct H as [H|[H1 H2]].
    + by rewrite (bool_decide_eq_true_2 _ H).
    + rewrite (bool_decide_eq_true_2 _ H1), (bool_decide_eq_true_2 _ H2).
      by rewrite orb_true_r.
  - rewrite (bool_decide_eq_false_2 _ H).
    rewrite (bool_decide_eq_false_2 (c < n)) by tauto. simpl.
    destruct (decide (c > n * 4)) as [H1|H1].
    + rewrite (bool_decide_eq_false_2 (c > 64)) by tauto.
      by rewrite andb_false_r.
    + by rewrite (bool_decide_eq_false_2 _ H1).
Qed.

(** The replacing branch: [free], then the two stores around [malloc]. *)
Lemma replace_branch h pb pl bs ls idx p c n :
  heap_wf h →
  live h !! pb = Some (PtrArray bs) → live h !! pl = Some (IntArray ls) →
  0 ≤ idx → (Z.to_nat idx < length bs)%nat → (Z.to_nat idx < length ls)%nat →
  slot_ok h p c → 0 ≤ n ≤ INT_MAX →
  (h1 ← free h p;
   h2 ← store_int h1 (Some pl) idx n;
   store_ptr (malloc h2 n).2 (Some pb) idx (malloc h2 n).1)
  = Some (heap_renewed h pb pl bs ls (Z.to_nat idx) p n).
Proof.
  intros Hwf Hpb Hpl Hidx Hjb Hjl Hok Hn.
  pose proof (heap_wf_next h Hwf) as Hnext.
  assert (pb ≠ pl) as Hne by congruence.
  assert (pb ≠ next h) as Hnb by congruence.
  assert (pl ≠ next h) as Hnl by congruence.
  unfold heap_renewed.
  set (m0 := match p with Some b => delete b (live h) | None => live h end).
  assert (free h p = Some {| live := m0; next := next h |}
          ∧ m0 !! pb = Some (PtrArray bs) ∧ m0 !! pl = Some (IntArray ls))
    as (Hfree & Hpb0 & Hpl0).
  { destruct p as [b|].
    - apply slot_ok_block in Hok as (text & Hb & _).
      rewrite (free_live _ _ _ Hb). subst m0.
      rewrite !lookup_delete_ne by congruence. done.
    - unfold free. subst m0. by destruct h. }
  rewrite Hfree. simpl.
  rewrite (store_int_live _ pl ls) by (simpl; done || lia). simpl.
  unfold malloc. rewrite size_t_of_int_small by done.
  rewrite (store_ptr_live _ pb bs); cycle 1.
  { simpl. rewrite lookup_insert_ne by done. by rewrite lookup_insert_ne. }
  { lia. }
  done.
Qed.

(** The rendering itself and the final read of [cyc->buf[cyc->i]]. *)
Lemma render_tail h pb pl bs ls idx b c text out (cyc : rdstr_cyclic) :
  live h !! pb = Some (PtrArray bs) → live h !! pl = Some (IntArray ls) →
  0 ≤ idx →
  bs !! Z.to_nat idx = Some (Some b) → ls !! Z.to_nat idx = Some c →
  live h !! b = Some (CharBuf c text) →
  Z.of_nat (length out) < c ≤ INT_MAX →
  (str ← load_ptr h (Some pb) idx;
   c0 ← load_int h (Some pl) idx;
   h5 ← vsnprintf h str (size_t_of_int c0) (Formatted out);
   r ← load_ptr h5 (Some pb) idx;
   Some (r, {| tsp := cyc; mem := h5 |}))
  = Some (Some b, {| tsp := cyc; mem := heap_written h b c out |}).
Proof.
  intros Hpb Hpl Hidx Hb Hc Hblk Hfit.
  assert (pb ≠ b) as Hne by congruence.
  rewrite (load_ptr_live _ _ _ _ _ Hpb Hidx Hb). simpl.
  rewrite (load_int_live _ _ _ _ _ Hpl Hidx Hc). simpl.
  rewrite size_t_of_int_small by lia.
  rewrite (vsnprintf_live _ _ _ _ _ _ Hblk); cycle 1.
  { lia. }
  { rewrite rendered_full by lia. rewrite length_app. simpl. lia. }
  simpl. rewrite rendered_full by lia.
  rewrite (load_ptr_live _ pb bs idx (Some b)); cycle 1.
  { simpl. by rewrite lookup_insert_ne. }
  { done. }
  { done. }
  done.
Qed.

(** What a successful call computes, given the slot [(p, c)] under the
    cursor after the acquisition. *)
Lemma tsprintf_compute k st out pb pl bs ls p c :
  let st1 := rdstr_cyclic_get st k in
  let j := Z.to_nat (i (tsp st1)) in
  let n := Z.of_nat (length out) + 1 in
  heap_wf (mem st1) → 0 ≤ i (tsp st1) < k →
  pool_shape k st1 pb pl bs ls →
  bs !! j = Some p → ls !! j = Some c → slot_ok (mem st1) p c →
  no_overflow out →
  rd_tsprintf k (Formatted out) st =
    if decide (must_replace p c n) then
      Some (Some (next (mem st1)),
            {| tsp := tsp st1;
               mem := heap_written
                        (heap_renewed (mem st1) pb pl bs ls j p n)
                        (next (mem st1)) n out |})
    else
      Some (p,
            {| tsp := tsp st1;
               mem := match p with
                      | Some b => heap_written (mem st1) b c out
                      | None => mem st1
                      end |}).
Proof.
  intros st1 j n Hwf Hi Hshape Hp Hc Hok Hout.
  unfold rd_tsprintf. fold st1. clearbody st1.
  destruct Hshape. destruct st1 as [[sz b l idx] h].
  cbn [tsp mem size buf len i] in *. subst.
  rewrite vsnprintf_len_Formatted by done.
  rewrite decide_False by lia.
  unfold int_add, int_mul.
  assert (n * 4 ≤ INT_MAX) as Hn4 by done.
  rewrite !int_wrap_small by (unfold INT_MAX in *; lia).
  fold n. fold j.
  assert (Z.to_nat idx < length bs)%nat as Hjb by lia.
  assert (Z.to_nat idx < length ls)%nat as Hjl by lia.
  pose proof (heap_wf_next h Hwf) as Hnext.
  assert (pb ≠ pl ∧ pb ≠ next h ∧ pl ≠ next h) as (Hne & Hnb & Hnl)
    by (repeat split; congruence).
  rewrite (load_ptr_live _ _ _ _ _ shape_buf_live0 (proj1 Hi) Hp). simpl.
  assert (match p with
          | Some _ =>
              c0 ← load_int h (Some pl) idx;
              Some (bool_decide (c0 < n)
                    || bool_decide (c0 > n * 4) && bool_decide (c0 > 64))
          | None => Some true
          end = Some (bool_decide (must_replace p c n))) as ->.
  { unfold must_replace. destruct p as [b|].
    - rewrite (load_int_live _ _ _ _ _ shape_len_live0 (proj1 Hi) Hc). simpl.
      rewrite replace_test. f_equal. apply bool_decide_ext.
      split; [tauto | intros [?|?]; [done | tauto]].
    - by rewrite bool_decide_eq_true_2 by auto. }
  simpl. destruct (decide (must_replace p c n)) as [Hr|Hr].
  - rewrite (bool_decide_eq_true_2 _ Hr).
    pose proof (replace_branch h pb pl bs ls idx p c n) as Hrb.
    unfold malloc in Hrb. simpl in Hrb.
    rewrite free_guard, Hrb by (done || lia).
    simpl.
    apply (render_tail _ pb pl (<[j := Some (next h)]> bs) (<[j := n]> ls)
             idx (next h) n []).
    + simpl. by rewrite lookup_insert_eq.
    + simpl. rewrite !lookup_insert_ne by done. by rewrite lookup_insert_eq.
    + lia.
    + by rewrite list_lookup_insert_eq.
    + by rewrite list_lookup_insert_eq.
    + simpl. rewrite lookup_insert_ne by done. by rewrite lookup_insert_eq.
    + lia.
  - rewrite (bool_decide_eq_false_2 _ Hr). simpl.
    unfold must_replace in Hr. destruct p as [b|]; [|tauto].
    apply slot_ok_block in Hok as (text & Hb & Hcr & _).
    apply (render_tail _ pb pl bs ls idx b c text); try done; lia.
Qed.

(** ** Slots own distinct blocks *)

Lemma NoDup_omap_lookup (bs : list (option positive)) :
  NoDup (omap id bs) ↔
  ∀ j1 j2 b, bs !! j1 = Some (Some b) → bs !! j2 = Some (Some b) → j1 = j2.
Proof.
  induction bs as [|o bs IH]; simpl.
  - split; [intros _ j1 j2 b H; by rewrite lookup_nil in H | constructor].
  - assert (∀ a, a ∈ omap id bs ↔ ∃ j, bs !! j = Some (Some a)) as Hin.
    { intros a. rewrite list_elem_of_omap. split.
      - intros (x & Hx & Hid). simpl in Hid. subst x.
        by apply list_elem_of_lookup in Hx.
      - intros [j Hj]. exists (Some a). split; [|done].
        apply list_elem_of_lookup. eauto. }
    destruct o as [a|]; simpl.
    + rewrite NoDup_cons, IH, Hin. split.
      * intros [Hnot Hinj] [|j1] [|j2] b; simpl; intros H1 H2.
        -- done.
        -- destruct Hnot. exists j2. congruence.
        -- destruct Hnot. exists j1. congruence.
        -- f_equal. eauto.
      * intros Hinj. split.
        -- intros [j Hj]. by specialize (Hinj 0%nat (S j) a eq_refl Hj).
        -- intros j1 j2 b H1 H2.
           specialize (Hinj (S j1) (S j2) b H1 H2). lia.
    + rewrite IH. split.
      * intros Hinj [|j1] [|j2] b; simpl; intros H1 H2; try done.
        f_equal. eauto.
      * intros Hinj j1 j2 b H1 H2.
        specialize (Hinj (S j1) (S j2) b H1 H2). lia.
Qed.

Lemma NoDup_omap_insert_fresh (bs : list (option positive)) j x :
  NoDup (omap id bs) → (∀ j', bs !! j' ≠ Some (Some x)) →
  NoDup (omap id (<[j := Some x]> bs)).
Proof.
  rewrite !NoDup_omap_lookup. intros Hinj Hfresh j1 j2 b H1 H2.
  destruct (decide (j1 = j)) as [->|Hj1], (decide (j2 = j)) as [->|Hj2].
  - done.
  - rewrite list_lookup_insert_ne in H2 by done.
    apply list_lookup_insert_Some in H1 as [(_ & [= <-] & _)|[? _]]; [|done].
    by destruct (Hfresh j2).
  - rewrite list_lookup_insert_ne in H1 by done.
    apply list_lookup_insert_Some in H2 as [(_ & [= <-] & _)|[? _]]; [|done].
    by destruct (Hfresh j1).
  - rewrite list_lookup_insert_ne in H1, H2 by done. eauto.
Qed.

Lemma Forall2_slot_ok_lookup h (bs : list (option positive)) (ls : list Z) :
  Forall2 (slot_ok h) bs ls ↔
  length bs = length ls ∧
  ∀ j p c, bs !! j = Some p → ls !! j = Some c → slot_ok h p c.
Proof. apply Forall2_same_length_lookup. Qed.

(** ** The heap after a replacement *)

Section result_heaps.

Context (h : heap) (pb pl : positive) (bs : list ptr) (ls : list Z).
Context (j : nat) (p : ptr) (c n : Z) (out : list byte).

Hypothesis Hwf : heap_wf h.
Hypothesis Hpb : live h !! pb = Some (PtrArray bs).
Hypothesis Hpl : live h !! pl = Some (IntArray ls).
Hypothesis Hok : slot_ok h p c.

Let h' := heap_written (heap_renewed h pb pl bs ls j p n) (next h) n out.

Lemma renewed_fresh : live h !! next h = None ∧ pb ≠ next h ∧ pl ≠ next h
                      ∧ pb ≠ pl ∧ p ≠ Some (next h) ∧ p ≠ Some pb ∧ p ≠ Some pl.
Proof.
  pose proof (heap_wf_next h Hwf) as Hnext.
  repeat split; try congruence.
  all: intros ->; apply slot_ok_block in Hok as (? & ? & _); congruence.
Qed.

Lemma renewed_buf :
  live h' !! pb = Some (PtrArray (<[j := Some (next h)]> bs)).
Proof.
  destruct renewed_fresh as (_ & ? & ? & ? & _).
  unfold h'. simpl. rewrite lookup_insert_ne by done.
  by rewrite lookup_insert_eq.
Qed.

Lemma renewed_len : live h' !! pl = Some (IntArray (<[j := n]> ls)).
Proof.
  destruct renewed_fresh as (_ & ? & ? & ? & _).
  unfold h'. simpl. rewrite !lookup_insert_ne by done.
  by rewrite lookup_insert_eq.
Qed.

Lemma renewed_block :
  live h' !! next h = Some (CharBuf n (out ++ [x00])).
Proof. unfold h'. simpl. by rewrite lookup_insert_eq. Qed.

Lemma renewed_freed b : p = Some b → live h' !! b = None.
Proof.
  destruct renewed_fresh as (_ & ? & ? & ? & ? & ? & ?). intros ->.
  unfold h'. simpl. rewrite !lookup_insert_ne by congruence.
  by rewrite lookup_delete_eq.
Qed.

Lemma renewed_other b :
  b ≠ pb → b ≠ pl → b ≠ next h → p ≠ Some b →
  live h' !! b = live h !! b.
Proof.
  intros ? ? ? Hp. unfold h'. simpl. rewrite !lookup_insert_ne by done.
  destruct p as [b0|]; [|done]. rewrite lookup_delete_ne; [done|congruence].
Qed.

Lemma renewed_wf : heap_wf h'.
Proof.
  unfold h', heap_written, heap_renewed, heap_wf, map_Forall. simpl.
  intros b o. rewrite !lookup_insert.
  repeat case_decide; subst.
  - intros _. apply Pos.lt_succ_diag_r.
  - intros _. apply Pos.lt_lt_succ. by apply Hwf in Hpb.
  - intros _. apply Pos.lt_lt_succ. by apply Hwf in Hpl.
  - intros Hb. apply Pos.lt_lt_succ.
    assert (live h !! b = Some o) as Hb'.
    { destruct p; [|done]. by apply lookup_delete_Some in Hb as [_ ?]. }
    by apply Hwf in Hb'.
Qed.

End result_heaps.

(** ** Slots of an initialised pool *)

Lemma slot_storage_shape k st pb pl bs ls j :
  pool_shape k st pb pl bs ls → 0 ≤ j →
  slot_storage st j = bs !! Z.to_nat j.
Proof.
  intros [] Hj. unfold slot_storage, load_ptr. rewrite shape_buf0. simpl.
  rewrite shape_buf_live0. by rewrite decide_True.
Qed.

Lemma slot_capacity_shape k st pb pl bs ls j :
  pool_shape k st pb pl bs ls → 0 ≤ j →
  slot_capacity st j = ls !! Z.to_nat j.
Proof.
  intros [] Hj. unfold slot_capacity, load_int. rewrite shape_len0. simpl.
  rewrite shape_len_live0. by rewrite decide_True.
Qed.

Lemma slot_negative k st pb pl bs ls j :
  pool_shape k st pb pl bs ls → j < 0 →
  slot_storage st j = None ∧ slot_capacity st j = None.
Proof.
  intros [] Hj. unfold slot_storage, slot_capacity, load_ptr, load_int.
  rewrite shape_buf0, shape_len0. simpl.
  rewrite shape_buf_live0, shape_len_live0.
  by rewrite !decide_False by lia.
Qed.

(** The block of a used slot is none of the two arrays, is below the
    allocation pointer, and belongs to that slot only. *)
Lemma shape_slot_block k st pb pl bs ls j b :
  heap_wf (mem st) → pool_shape k st pb pl bs ls →
  bs !! j = Some (Some b) →
  ∃ c text, ls !! j = Some c ∧
            live (mem st) !! b = Some (CharBuf c text) ∧
            1 ≤ c ≤ INT_MAX ∧ Z.of_nat (length text) ≤ c ∧
            b ≠ pb ∧ b ≠ pl ∧ b ≠ next (mem st).
Proof.
  intros Hwf [] Hb.
  destruct (Forall2_lookup_l _ _ _ _ _ shape_slots0 Hb) as (c & Hc & Hok).
  apply slot_ok_block in Hok as (text & Hblk & Hc1 & Ht).
  pose proof (heap_wf_next _ Hwf).
  exists c, text. repeat split; try done; try lia; congruence.
Qed.

(** ** The state after a successful call *)

Lemma replaced_state k st1 pb pl bs ls p c out :
  heap_wf (mem st1) → 0 ≤ i (tsp st1) < k →
  pool_shape k st1 pb pl bs ls →
  let j := Z.to_nat (i (tsp st1)) in
  let n := Z.of_nat (length out) + 1 in
  bs !! j = Some p → ls !! j = Some c → n ≤ INT_MAX →
  let st' := {| tsp := tsp st1;
                mem := heap_written
                         (heap_renewed (mem st1) pb pl bs ls j p n)
                         (next (mem st1)) n out |} in
  heap_wf (mem st') ∧
  pool_shape k st' pb pl (<[j := Some (next (mem st1))]> bs) (<[j := n]> ls).
Proof.
  intros Hwf Hi Hshape j n Hp Hc Hn st'.
  pose proof Hshape as [].
  assert (slot_ok (mem st1) p c) as Hok.
  { exact (Forall2_lookup_lr _ _ _ _ _ _ shape_slots0 Hp Hc). }
  split; [by eapply renewed_wf|].
  constructor; simpl; try done.
  - by eapply renewed_buf.
  - by eapply renewed_len.
  - by rewrite length_insert.
  - by rewrite length_insert.
  - apply Forall2_slot_ok_lookup. rewrite !length_insert.
    split; [congruence|]. intros j0 p0 c0 Hp0 Hc0.
    destruct (decide (j0 = j)) as [->|Hj0].
    + rewrite list_lookup_insert_eq in Hp0 by lia.
      rewrite list_lookup_insert_eq in Hc0 by lia.
      injection Hp0 as <-. injection Hc0 as <-.
      unfold slot_ok. rewrite renewed_block.
      rewrite length_app. simpl. lia.
    + rewrite list_lookup_insert_ne in Hp0 by done.
      rewrite list_lookup_insert_ne in Hc0 by done.
      pose proof (Forall2_lookup_lr _ _ _ _ _ _ shape_slots0 Hp0 Hc0).
      apply (slot_ok_frame (mem st1)); [|done].
      intros b0 ->.
      destruct (shape_slot_block _ _ _ _ _ _ _ _ Hwf Hshape Hp0)
        as (_ & _ & _ & _ & _ & _ & ? & ? & ?).
      apply (renewed_other _ _ _ _ _ _ _ c); try done.
      intros ->. apply Hj0.
      by apply (proj1 (NoDup_omap_lookup bs) shape_nodup0 j0 j b0).
  - apply NoDup_omap_insert_fresh; [done|]. intros j' Hj'.
    destruct (shape_slot_block _ _ _ _ _ _ _ _ Hwf Hshape Hj')
      as (_ & _ & _ & _ & _ & _ & _ & _ & ?).
    done.
Qed.

Lemma reused_state k st1 pb pl bs ls b c out :
  heap_wf (mem st1) → 0 ≤ i (tsp st1) < k →
  pool_shape k st1 pb pl bs ls →
  let j := Z.to_nat (i (tsp st1)) in
  bs !! j = Some (Some b) → ls !! j = Some c →
  Z.of_nat (length out) < c →
  let st' := {| tsp := tsp st1; mem := heap_written (mem st1) b c out |} in
  heap_wf (mem st') ∧ pool_shape k st' pb pl bs ls.
Proof.
  intros Hwf Hi Hshape j Hp Hc Hfit st'.
  pose proof Hshape as [].
  destruct (shape_slot_block _ _ _ _ _ _ _ _ Hwf Hshape Hp)
    as (c' & text & Hc' & Hblk & Hcr & _ & ? & ? & _).
  assert (c' = c) as -> by congruence.
  split; [apply heap_wf_update; eauto|].
  constructor; simpl; try done.
  - by rewrite lookup_insert_ne.
  - by rewrite lookup_insert_ne.
  - apply Forall2_slot_ok_lookup. split; [congruence|].
    intros j0 p0 c0 Hp0 Hc0.
    pose proof (Forall2_lookup_lr _ _ _ _ _ _ shape_slots0 Hp0 Hc0) as Hok0.
    destruct (decide (p0 = Some b)) as [->|Hne].
    + assert (j0 = j) as ->
        by apply (proj1 (NoDup_omap_lookup bs) shape_nodup0 j0 j b Hp0 Hp).
      assert (c0 = c) as -> by congruence.
      unfold slot_ok. simpl. rewrite lookup_insert_eq.
      rewrite length_app. simpl. lia.
    + apply (slot_ok_frame (mem st1)); [|done].
      intros b0 ->. simpl. rewrite lookup_insert_ne; [done|congruence].
Qed.

Lemma tsprintf_success k st out :
  1 ≤ k ≤ INT_MAX → pool_inv k st → no_overflow out →
  let st1 := rdstr_cyclic_get st k in
  ∃ p c r st',
    slot_storage st1 (i (tsp st1)) = Some p ∧
    slot_capacity st1 (i (tsp st1)) = Some c ∧
    slot_ok (mem st1) p c ∧
    rd_tsprintf k (Formatted out) st = Some (r, st') ∧
    render_post k st1 out p c r st'.
Proof.
  intros Hk Hinv Hout st1.
  destruct (cyclic_get_shape k st Hk Hinv)
    as (Hwf & Hi & pb & pl & bs & ls & Hshape).
  fold st1 in Hwf, Hi, Hshape.
  destruct (shape_slot _ _ _ _ _ _ Hshape Hi) as (p & c & Hp & Hc & Hok).
  pose proof (tsprintf_compute k st out pb pl bs ls p c
                Hwf Hi Hshape Hp Hc Hok Hout) as Hrun.
  fold st1 in Hrun.
  set (j := Z.to_nat (i (tsp st1))) in *.
  set (n := Z.of_nat (length out) + 1) in *.
  assert (n ≤ INT_MAX) as Hn by (unfold no_overflow, INT_MAX in *; lia).
  exists p, c.
  rewrite (slot_storage_shape _ _ _ _ _ _ _ Hshape) by lia.
  rewrite (slot_capacity_shape _ _ _ _ _ _ _ Hshape) by lia.
  destruct (decide (must_replace p c n)) as [Hr|Hr].
  - eexists _, _. do 4 (split; [done|]).
    destruct (replaced_state k st1 pb pl bs ls p c out Hwf Hi Hshape Hp Hc Hn)
      as [Hwf' Hshape'].
    fold j n in Hwf', Hshape'.
    constructor; fold n.
    + done.
    + eapply shape_pool_inv; eauto. lia.
    + rewrite (slot_storage_shape _ _ _ _ _ _ _ Hshape') by (simpl; lia).
      apply list_lookup_insert_eq. destruct Hshape. lia.
    + unfold text_at. simpl. by rewrite lookup_insert_eq.
    + intros _. split; [done|]. split; [|split; [|split]].
      * rewrite (slot_capacity_shape _ _ _ _ _ _ _ Hshape') by (simpl; lia).
        apply list_lookup_insert_eq. destruct Hshape. lia.
      * by apply renewed_block.
      * simpl. rewrite (heap_wf_next _ Hwf). by intros [? ?].
      * destruct p as [b|]; simpl; [|tauto].
        destruct Hshape.
        rewrite (renewed_freed (mem st1) pb pl bs ls j (Some b) c n out)
          by done.
        by intros [? ?].
    + tauto.
    + intros j0 Hj0. destruct (decide (0 ≤ j0)) as [Hpos|Hneg].
      * rewrite (slot_storage_shape _ _ _ _ _ _ _ Hshape') by done.
        rewrite (slot_capacity_shape _ _ _ _ _ _ _ Hshape') by done.
        rewrite (slot_storage_shape _ _ _ _ _ _ _ Hshape) by done.
        rewrite (slot_capacity_shape _ _ _ _ _ _ _ Hshape) by done.
        rewrite !list_lookup_insert_ne by (subst j; lia).
        split; [done|]. split; [done|].
        intros [b0|] Hq; [|done].
        destruct (shape_slot_block _ _ _ _ _ _ _ _ Hwf Hshape Hq)
          as (_ & _ & _ & _ & _ & _ & ? & ? & ?).
        unfold text_at. simpl.
        destruct Hshape.
        rewrite (renewed_other (mem st1) pb pl bs ls j p c n out); try done.
        intros ->.
        assert (Z.to_nat j0 = j)
          by apply (proj1 (NoDup_omap_lookup bs) shape_nodup0 _ _ b0 Hq Hp).
        subst j. lia.
      * destruct (slot_negative _ _ _ _ _ _ j0 Hshape) as [-> ->]; [lia|].
        destruct (slot_negative _ _ _ _ _ _ j0 Hshape') as [-> ->]; [lia|].
        done.
  - assert (∃ b, p = Some b) as [b ->].
    { destruct p; [eauto|]. destruct Hr. by left. }
    assert (Z.of_nat (length out) < c) as Hfit
      by (unfold must_replace in Hr; lia).
    eexists _, _. do 4 (split; [done|]).
    destruct (reused_state k st1 pb pl bs ls b c out Hwf Hi Hshape Hp Hc Hfit)
      as [Hwf' Hshape'].
    destruct (shape_slot_block _ _ _ _ _ _ _ _ Hwf Hshape Hp)
      as (_ & _ & _ & _ & _ & _ & ? & ? & ?).
    constructor; fold n.
    + done.
    + eapply shape_pool_inv; eauto. lia.
    + by rewrite (slot_storage_shape _ _ _ _ _ _ _ Hshape') by (simpl; lia).
    + unfold text_at. simpl. by rewrite lookup_insert_eq.
    + tauto.
    + intros _. split; [done|].
      by rewrite (slot_capacity_shape _ _ _ _ _ _ _ Hshape') by (simpl; lia).
    + intros j0 Hj0. destruct (decide (0 ≤ j0)) as [Hpos|Hneg].
      * rewrite (slot_storage_shape _ _ _ _ _ _ _ Hshape') by done.
        rewrite (slot_capacity_shape _ _ _ _ _ _ _ Hshape') by done.
        rewrite (slot_storage_shape _ _ _ _ _ _ _ Hshape) by done.
        rewrite (slot_capacity_shape _ _ _ _ _ _ _ Hshape) by done.
        split; [done|]. split; [done|].
        intros [b0|] Hq; [|done].
        unfold text_at. simpl. rewrite lookup_insert_ne; [done|].
        intros ->. destruct Hshape.
        assert (Z.to_nat j0 = j)
          by apply (proj1 (NoDup_omap_lookup bs) shape_nodup0 _ _ b0 Hq Hp).
        subst j. lia.
      * destruct (slot_negative _ _ _ _ _ _ j0 Hshape) as [-> ->]; [lia|].
        destruct (slot_negative _ _ _ _ _ _ j0 Hshape') as [-> ->]; [lia|].
        done.
Qed.

Lemma tsprintf_failure k st :
  rd_tsprintf k FormatError st = Some (None, rdstr_cyclic_get st k).
Proof. unfold rd_tsprintf. by rewrite decide_True by done. Qed.

(** ** [rd_string_thread_cleanup] *)

Lemma release_lookup bl m b :
  release bl m !! b = if decide (b ∈ bl) then None else m !! b.
Proof.
  unfold release. revert m. induction bl as [|a bl IH]; intros m.
  - case_decide as Hin; [by apply elem_of_nil in Hin | done].
  - simpl. rewrite IH. destruct (decide (b ∈ bl)) as [Hbl|Hbl].
    + rewrite decide_True; [done | by right].
    + destruct (decide (b = a)) as [->|Hne].
      * rewrite lookup_delete_eq. rewrite decide_True; [done | by left].
      * rewrite lookup_delete_ne by done. rewrite decide_False; [done|].
        intros [?|?]%elem_of_cons; done.
Qed.

Lemma cleanup_loop_frees cyc pb bs todo :
  buf cyc = Some pb →
  ∀ idx h,
    live h !! pb = Some (PtrArray bs) →
    0 ≤ idx → idx + Z.of_nat todo ≤ INT_MAX →
    (Z.to_nat idx + todo ≤ length bs)%nat →
    let blocks := omap id (take todo (drop (Z.to_nat idx) bs)) in
    NoDup blocks →
    (∀ b, b ∈ blocks → is_Some (live h !! b) ∧ b ≠ pb) →
    cleanup_loop todo idx cyc h
    = Some {| live := release blocks (live h); next := next h |}.
Proof.
  intros Hbuf. induction todo as [|todo IH];
    intros idx h Hpb Hidx Hmax Hlen blocks Hnodup Hlive.
  - simpl. by destruct h.
  - destruct (lookup_lt_is_Some_2 bs (Z.to_nat idx)) as [p Hp]; [lia|].
    assert (blocks = omap id (p :: take todo (drop (S (Z.to_nat idx)) bs)))
      as Hblocks.
    { subst blocks. by rewrite (drop_S _ _ _ Hp). }
    clearbody blocks. simpl. rewrite Hbuf.
    rewrite (load_ptr_live _ _ _ _ _ Hpb Hidx Hp). simpl.
    unfold int_add. rewrite int_wrap_small by (unfold INT_MAX in *; lia).
    assert (Z.to_nat (idx + 1) = S (Z.to_nat idx)) as Hsucc by lia.
    destruct p as [b|]; simpl in Hblocks.
    + assert (b ∈ blocks) as Hb by (rewrite Hblocks; by left).
      destruct (Hlive b Hb) as [[o Ho] Hne].
      rewrite (free_live _ _ _ Ho). simpl.
      rewrite Hblocks in Hnodup. apply NoDup_cons in Hnodup as [Hnot Hnodup].
      specialize (IH (idx + 1)
                    {| live := delete b (live h); next := next h |}).
      rewrite Hsucc in IH. rewrite IH; try done; try lia.
      * by rewrite Hblocks.
      * simpl. by rewrite lookup_delete_ne.
      * intros b' Hb'. simpl.
        rewrite lookup_delete_ne by (intros ->; done).
        apply Hlive. rewrite Hblocks. by right.
    + unfold free. simpl.
      specialize (IH (idx + 1) h). rewrite Hsucc in IH.
      rewrite IH; try done; try lia.
      * by rewrite Hblocks.
      * by rewrite Hblocks in Hnodup.
      * intros b' Hb'. apply Hlive. by rewrite Hblocks.
Qed.

Lemma cleanup_uninit st :
  size (tsp st) = 0 → rd_string_thread_cleanup st = Some st.
Proof.
  intros Hsz. unfold rd_string_thread_cleanup. by rewrite decide_False by auto.
Qed.

Lemma cleanup_init k st pb pl bs ls :
  1 ≤ k ≤ INT_MAX → heap_wf (mem st) → pool_shape k st pb pl bs ls →
  rd_string_thread_cleanup st = Some (torn_down st pb pl bs).
Proof.
  intros Hk Hwf Hshape. pose proof Hshape as [].
  assert (∀ b, b ∈ omap id bs →
               is_Some (live (mem st) !! b) ∧ b ≠ pb ∧ b ≠ pl) as Hblocks.
  { intros b (p & Hin & Hid)%list_elem_of_omap. simpl in Hid. subst p.
    apply list_elem_of_lookup in Hin as [j Hj].
    destruct (shape_slot_block _ _ _ _ _ _ _ _ Hwf Hshape Hj)
      as (c & text & _ & Hb & _ & _ & ? & ? & _).
    rewrite Hb. eauto. }
  unfold rd_string_thread_cleanup. rewrite decide_True by lia.
  rewrite shape_size0.
  rewrite (cleanup_loop_frees _ pb bs (Z.to_nat k) shape_buf0);
    try done; try lia.
  - rewrite drop_0, take_ge by lia. simpl.
    rewrite shape_buf0, shape_len0.
    erewrite free_live; cycle 1.
    { simpl. rewrite release_lookup. rewrite decide_False; [done|].
      intros Hin. by destruct (Hblocks _ Hin) as (_ & ? & _). }
    simpl. erewrite free_live; cycle 1.
    { simpl. rewrite lookup_delete_ne by congruence.
      rewrite release_lookup. rewrite decide_False; [done|].
      intros Hin. by destruct (Hblocks _ Hin) as (_ & _ & ?). }
    done.
  - by rewrite drop_0, take_ge by lia.
  - rewrite drop_0, take_ge by lia. intros b Hb.
    destruct (Hblocks b Hb) as (? & ? & _). done.
Qed.

Lemma torn_down_lookup st pb pl bs b :
  live (mem (torn_down st pb pl bs)) !! b
  = if decide (b = pl ∨ b = pb ∨ b ∈ omap id bs) then None
    else live (mem st) !! b.
Proof.
  unfold torn_down. simpl.
  destruct (decide (b = pl)) as [->|?].
  { rewrite lookup_delete_eq. rewrite decide_True; auto. }
  rewrite lookup_delete_ne by done.
  destruct (decide (b = pb)) as [->|?].
  { rewrite lookup_delete_eq. rewrite decide_True; auto. }
  rewrite lookup_delete_ne by done.
  rewrite release_lookup.
  destruct (decide (b ∈ omap id bs)).
  - rewrite decide_True; auto.
  - rewrite decide_False; [done|]. intros [?|[?|?]]; done.
Qed.

Lemma torn_down_inv k st pb pl bs ls :
  pool_inv k st → pool_shape k st pb pl bs ls →
  pool_inv k (torn_down st pb pl bs).
Proof.
  intros (Hwf & Hi & _) Hshape.
  split; [|split; [done|]].
  - intros b o. rewrite torn_down_lookup. case_decide; [done|].
    apply Hwf.
  - pose proof (torn_down_lookup st pb pl bs pb) as Hb.
    pose proof (torn_down_lookup st pb pl bs pl) as Hl.
    rewrite decide_True in Hb by auto.
    rewrite decide_True in Hl by auto.
    rewrite decide_True by done.
    unfold buf_cells, len_cells.
    simpl in *. by rewrite Hb, Hl.
Qed.

Lemma cleanup_inv k st :
  1 ≤ k ≤ INT_MAX → pool_inv k st →
  ∃ st', rd_string_thread_cleanup st = Some st' ∧
         pool_inv k st' ∧ size (tsp st') = 0 ∧ i (tsp st') = i (tsp st).
Proof.
  intros Hk Hinv. destruct (decide (size (tsp st) = 0)) as [Hsz|Hsz].
  - exists st. by rewrite cleanup_uninit.
  - destruct (pool_inv_shape _ _ Hinv Hsz) as (pb & pl & bs & ls & Hshape).
    exists (torn_down st pb pl bs).
    rewrite (cleanup_init k st pb pl bs ls); try done; [|by destruct Hinv].
    split; [done|]. split; [by eapply torn_down_inv|]. done.
Qed.

(** ** Runs keep the invariant *)

(** One call of [rd_tsprintf] on a pool that satisfies the invariant. *)
Lemma render_step k st f :
  1 ≤ k ≤ INT_MAX → pool_inv k st → format_ok f →
  ∃ r st', rd_tsprintf k f st = Some (r, st') ∧
           pool_inv k st' ∧ tsp st' = tsp (rdstr_cyclic_get st k).
Proof.
  intros Hk Hinv Hf. destruct f as [|out].
  - exists None, (rdstr_cyclic_get st k).
    split; [apply tsprintf_failure|]. split; [by apply cyclic_get_inv|done].
  - destruct (tsprintf_success k st out Hk Hinv Hf)
      as (p & c & r & st' & _ & _ & _ & Hrun & []).
    by exists r, st'.
Qed.

Lemma step_inv k st o :
  1 ≤ k ≤ INT_MAX → pool_inv k st → op_ok o →
  ∃ st', step k o st = Some st' ∧ pool_inv k st'.
Proof.
  intros Hk Hinv Ho. destruct o as [f|]; simpl.
  - destruct (render_step k st f Hk Hinv Ho) as (r & st' & -> & ? & _).
    by exists st'.
  - destruct (cleanup_inv k st Hk Hinv) as (st' & -> & ? & _). by exists st'.
Qed.

Lemma run_inv k ops st :
  1 ≤ k ≤ INT_MAX → pool_inv k st → Forall op_ok ops →
  ∃ st', run k ops st = Some st' ∧ pool_inv k st'.
Proof.
  intros Hk Hinv Hops. revert st Hinv.
  induction Hops as [|o ops Ho Hops IH]; intros st Hinv; simpl.
  - by exists st.
  - destruct (step_inv k st o Hk Hinv Ho) as (st' & -> & Hinv'). simpl.
    by apply IH.
Qed.

Lemma fresh_thread_inv k h :
  1 ≤ k → heap_wf h → pool_inv k (fresh_thread h).
Proof.
  intros Hk Hwf. split; [done|]. split; [simpl; lia|]. done.
Qed.

(** ** The replacement rule *)

(** The decision within the range of [int], that is for an output whose
    needed length times four is at most [INT_MAX]: on a successful call the
    storage of the slot under the cursor is replaced exactly when it is
    absent, or shorter than the needed length, or longer than four times
    the needed length and longer than 64; a replacement frees the old block
    and records exactly the needed length for a new block of that many
    bytes; otherwise storage and capacity stay as they were. *)
Theorem replacement_decision k st out :
  1 ≤ k ≤ INT_MAX → pool_inv k st → no_overflow out →
  replacement_rule k st out.
Proof.
  intros Hk Hinv Hout.
  destruct (tsprintf_success k st out Hk Hinv Hout)
    as (p & c & r & st' & Hp & Hc & Hok & Hrun & Hpost).
  destruct Hpost. unfold replacement_rule.
  set (n := Z.of_nat (length out) + 1) in *.
  assert (p ≠ None → is_live (mem (rdstr_cyclic_get st k)) p) as Hlive.
  { destruct p as [b|]; [intros _|done]. simpl.
    apply slot_ok_block in Hok as (text & -> & _). eauto. }
  destruct (decide (must_replace p c n)) as [Hr|Hr].
  - destruct (post_replaced0 Hr) as (-> & Hc' & Hblk & Hfresh & Hfreed).
    assert (Some (next (mem (rdstr_cyclic_get st k))) ≠ p) as Hne.
    { intros <-. apply Hfresh. simpl.
      apply slot_ok_block in Hok as (text & -> & _). eauto. }
    exists p, c, (Some (next (mem (rdstr_cyclic_get st k)))), n, st'.
    do 6 (split; [done|]). split; [done|]. split; [|done].
    intros _. do 2 (split; [done|]). split; [eauto|done].
  - destruct (post_kept0 Hr) as (-> & Hc').
    exists p, c, p, c, st'.
    do 6 (split; [done|]). split; [done|]. done.
Qed.

Lemma replacement_decision_witness :
  (1 ≤ 2 ≤ INT_MAX ∧ pool_inv 2 after_two_calls ∧ no_overflow abc)
  ∧ replacement_rule 2 after_two_calls abc.
Proof.
  assert (1 ≤ 2 ≤ INT_MAX) as Hk by (unfold INT_MAX; lia).
  assert (pool_inv 2 after_two_calls) as Hinv
    by (apply (bool_decide_unpack _); vm_compute; exact I).
  assert (no_overflow abc) as Hout
    by (apply (bool_decide_unpack _); vm_compute; exact I).
  split; [done|]. exact (replacement_decision 2 _ abc Hk Hinv Hout).
Defined.

(** The rule on a pool of one slot: a block of 64 bytes is kept for an
    11-byte need (64 > 44, but not 64 > 64); a block of 65 bytes is replaced
    for a 16-byte need (65 > 64 twice) and kept for a 17-byte need. *)
Example replacement_thresholds :
  let caps sizes :=
    st ← run 1 ((λ n, Render (Formatted (replicate n x61))) <$> sizes)
           (fresh_thread empty_heap);
    slot_capacity st 0 in
  caps [63%nat] = Some 64 ∧ caps [63%nat; 10%nat] = Some 64 ∧
  caps [64%nat] = Some 65 ∧ caps [64%nat; 15%nat] = Some 16 ∧
  caps [64%nat; 16%nat] = Some 65 ∧ caps [64%nat; 65%nat] = Some 66.
Proof. vm_compute. done. Qed.

(** ** Rotation *)

Lemma cyclic_get_cursor k st :
  1 ≤ k ≤ INT_MAX → pool_inv k st →
  let st1 := rdstr_cyclic_get st k in
  size (tsp st1) = k ∧
  i (tsp st1) = if decide (size (tsp st) = 0) then i (tsp st)
                else (i (tsp st) + 1) `mod` k.
Proof.
  intros Hk Hinv. destruct (decide (size (tsp st) = 0)) as [Hsz|Hsz].
  - by rewrite (cyclic_get_uninit _ _ Hsz).
  - rewrite (cyclic_get_init _ _ Hsz). simpl.
    destruct Hinv as (_ & Hi & Hrest). rewrite decide_False in Hrest by done.
    destruct Hrest as [-> _]. split; [done|].
    by destruct (next_index k (i (tsp st)) Hk Hi) as [-> _].
Qed.

Lemma run_render k f fs st r st1 :
  rd_tsprintf k f st = Some (r, st1) →
  run k (Render <$> f :: fs) st = run k (Render <$> fs) st1.
Proof. intros Hrun. rewrite fmap_cons. simpl. by rewrite Hrun. Qed.

(** Calls on an initialised pool advance the cursor by one each. *)
Lemma renders_cursor k fs st :
  1 ≤ k ≤ INT_MAX → pool_inv k st → size (tsp st) ≠ 0 →
  Forall format_ok fs →
  ∃ st', run k (Render <$> fs) st = Some st' ∧ pool_inv k st' ∧
         size (tsp st') = k ∧
         i (tsp st') = (i (tsp st) + Z.of_nat (length fs)) `mod` k.
Proof.
  intros Hk Hinv Hsz Hfs. revert st Hinv Hsz.
  induction Hfs as [|f fs Hf Hfs IH]; intros st Hinv Hsz.
  - exists st. split; [done|]. split; [done|].
    destruct Hinv as (Hwf & Hi & Hrest).
    rewrite decide_False in Hrest by done. destruct Hrest as [Hk' _].
    simpl. by rewrite Z.add_0_r, Z.mod_small by done.
  - destruct (render_step k st f Hk Hinv Hf) as (r & st1 & Hrun & Hinv1 & Htsp).
    destruct (cyclic_get_cursor k st Hk Hinv) as [Hsz1 Hi1].
    rewrite decide_False in Hi1 by done. rewrite <- Htsp in Hsz1, Hi1.
    destruct (IH st1 Hinv1) as (st' & Hrun' & Hinv' & Hsz' & Hi'); [lia|].
    exists st'. rewrite (run_render _ _ _ _ _ _ Hrun), Hrun'.
    do 3 (split; [done|]). rewrite Hi', Hi1.
    rewrite Zplus_mod_idemp_l. f_equal. simpl length. lia.
Qed.

(** The first call on an uninitialised pool keeps the cursor where it is. *)
Lemma renders_cursor_uninit k f fs st :
  1 ≤ k ≤ INT_MAX → pool_inv k st → size (tsp st) = 0 →
  Forall format_ok (f :: fs) →
  ∃ st', run k (Render <$> f :: fs) st = Some st' ∧ pool_inv k st' ∧
         size (tsp st') = k ∧
         i (tsp st') = (i (tsp st) + Z.of_nat (length fs)) `mod` k.
Proof.
  intros Hk Hinv Hsz [Hf Hfs]%Forall_cons.
  destruct (render_step k st f Hk Hinv Hf) as (r & st1 & Hrun & Hinv1 & Htsp).
  destruct (cyclic_get_cursor k st Hk Hinv) as [Hsz1 Hi1].
  rewrite decide_True in Hi1 by done. rewrite <- Htsp in Hsz1, Hi1.
  destruct (renders_cursor k fs st1 Hk Hinv1) as (st' & Hrun' & ? & ? & Hi');
    [lia|done|].
  exists st'. rewrite (run_render _ _ _ _ _ _ Hrun), Hrun'.
  do 3 (split; [done|]). by rewrite Hi', Hi1.
Qed.

Lemma call_slot_uninit k st fs n :
  1 ≤ k ≤ INT_MAX → pool_inv k st → size (tsp st) = 0 →
  Forall format_ok fs → (1 ≤ n ≤ length fs)%nat →
  call_slot k st fs n = Some ((i (tsp st) + Z.of_nat n - 1) `mod` k).
Proof.
  intros Hk Hinv Hsz Hfs Hn. unfold call_slot.
  destruct (take n fs) as [|f fs'] eqn:Htake.
  { apply (f_equal length) in Htake. rewrite length_take in Htake.
    simpl in Htake. lia. }
  assert (Forall format_ok (f :: fs')) as Hfs'.
  { rewrite <- Htake. by apply Forall_take. }
  destruct (renders_cursor_uninit k f fs' st Hk Hinv Hsz Hfs')
    as (st' & Hrun & _ & _ & Hi).
  rewrite Hrun. simpl. rewrite Hi. do 2 f_equal.
  apply (f_equal length) in Htake. rewrite length_take in Htake.
  simpl in Htake. lia.
Qed.

Lemma mod_shift_distinct (k x d : Z) :
  0 < d < k → (x + d) `mod` k ≠ x `mod` k.
Proof.
  intros Hd Heq.
  pose proof (Z.div_mod x k ltac:(lia)) as Hx.
  pose proof (Z.div_mod (x + d) k ltac:(lia)) as Hxd.
  rewrite Heq in Hxd.
  assert (d = k * ((x + d) `div` k - x `div` k)) as Hd' by lia.
  destruct (decide (0 < (x + d) `div` k - x `div` k)); nia.
Qed.

(** C2, as the code has it: the first call on an uninitialised pool uses
    the slot the cursor already names, which is 0 on a new thread and the
    slot of the last call before a teardown otherwise; the n-th call uses
    that slot plus n - 1 modulo the number of slots, so slot (n - 1) mod k
    on a new thread; calls n and n + k use the same slot, and any k
    consecutive calls use pairwise distinct slots. *)
Theorem rotation k st fs :
  1 ≤ k ≤ INT_MAX → pool_inv k st → size (tsp st) = 0 →
  Forall format_ok fs →
  rotation_rule k st fs.
Proof.
  intros Hk Hinv Hsz Hfs.
  pose proof (λ n, call_slot_uninit k st fs n Hk Hinv Hsz Hfs) as Hslot.
  split; [done|]. split; [|split].
  - intros Hi n Hn. rewrite Hslot by done. by rewrite Hi, Z.add_0_l.
  - intros n Hn1 Hn2. rewrite !Hslot by lia. f_equal.
    rewrite <- (Z_mod_plus_full (i (tsp st) + Z.of_nat n - 1) 1 k).
    f_equal. lia.
  - intros a b Hab Hbk Hb. rewrite !Hslot by lia. intros [= Heq].
    apply (mod_shift_distinct k (i (tsp st) + Z.of_nat a - 1)
             (Z.of_nat b - Z.of_nat a)); [lia|].
    rewrite Heq. f_equal. lia.
Qed.

Lemma rotation_witness :
  (1 ≤ 2 ≤ INT_MAX ∧ pool_inv 2 after_teardown ∧
   size (tsp after_teardown) = 0 ∧
   Forall format_ok [Formatted abc; FormatError; Formatted abc])
  ∧ rotation_rule 2 after_teardown [Formatted abc; FormatError; Formatted abc].
Proof.
  assert (1 ≤ 2 ≤ INT_MAX) as Hk by (unfold INT_MAX; lia).
  assert (pool_inv 2 after_teardown) as Hinv
    by (apply (bool_decide_unpack _); vm_compute; exact I).
  assert (size (tsp after_teardown) = 0) as Hsz by (vm_compute; reflexivity).
  assert (Forall format_ok [Formatted abc; FormatError; Formatted abc]) as Hfs
    by (apply (bool_decide_unpack _); vm_compute; exact I).
  split; [done|]. exact (rotation 2 _ _ Hk Hinv Hsz Hfs).
Defined.

(** Four calls on a new thread with three slots use slots 0, 1, 2, 0,
    whether their measurement succeeds or not. *)
Example rotation_run :
  let fs := [Formatted abc; FormatError; Formatted abc; Formatted abc] in
  call_slot 3 (fresh_thread empty_heap) fs <$> [1; 2; 3; 4]%nat
  = [Some 0; Some 1; Some 2; Some 0].
Proof. vm_compute. done. Qed.

(** The first call after a teardown initialises the pool again and uses
    slot 1, the slot of the last call before the teardown, not slot
    (1 - 1) mod 2. *)
Lemma rotation_after_teardown_counterexample :
  run 2 [Render (Formatted abc); Render (Formatted abc); Cleanup]
    (fresh_thread empty_heap) = Some after_teardown ∧
  size (tsp after_teardown) = 0 ∧
  call_slot 2 after_teardown [Formatted abc] 1 = Some 1 ∧
  call_slot 2 after_teardown [Formatted abc] 1 ≠ Some ((1 - 1) `mod` 2).
Proof. vm_compute. repeat split; congruence. Qed.

(** ** Acquisition *)

Lemma cyclic_get_uninit_cells st sz :
  size (tsp st) = 0 →
  buf_cells (rdstr_cyclic_get st sz) = Some (replicate (Z.to_nat sz) None) ∧
  len_cells (rdstr_cyclic_get st sz) = Some (replicate (Z.to_nat sz) 0).
Proof.
  intros Hsz. rewrite (cyclic_get_uninit _ _ Hsz).
  unfold buf_cells, len_cells. simpl.
  rewrite lookup_insert_eq.
  rewrite lookup_insert_ne by lia. by rewrite lookup_insert_eq.
Qed.

(** C3, as the code has it: on a pool whose slot count is 0 the call
    allocates the requested number of unused slots (storage absent,
    capacity 0) and records that slot count, and it leaves the cursor as
    it is: 0 on a new thread, the last slot used before a teardown; on an
    initialised pool the requested count is ignored and the cursor moves to
    the next slot modulo the slot count. *)
Theorem acquire_next_slot st sz :
  let st1 := rdstr_cyclic_get st sz in
  (size (tsp st) = 0 →
   size (tsp st1) = sz ∧
   i (tsp st1) = i (tsp st) ∧
   buf_cells st1 = Some (replicate (Z.to_nat sz) None) ∧
   len_cells st1 = Some (replicate (Z.to_nat sz) 0)) ∧
  (∀ h, i (tsp (rdstr_cyclic_get (fresh_thread h) sz)) = 0) ∧
  (size (tsp st) > 0 →
   0 ≤ i (tsp st) < size (tsp st) → size (tsp st) ≤ INT_MAX →
   size (tsp st1) = size (tsp st) ∧
   i (tsp st1) = (i (tsp st) + 1) `mod` size (tsp st) ∧
   buf (tsp st1) = buf (tsp st) ∧ len (tsp st1) = len (tsp st) ∧
   mem st1 = mem st).
Proof.
  intros st1. split; [|split].
  - intros Hsz. destruct (cyclic_get_uninit_cells st sz Hsz) as [Hb Hl].
    subst st1. split; [|split]; [| |done].
    + by rewrite (cyclic_get_uninit _ _ Hsz).
    + by rewrite (cyclic_get_uninit _ _ Hsz).
  - intros h. by rewrite cyclic_get_uninit.
  - intros Hsz Hi Hmax. subst st1. rewrite cyclic_get_init by lia. simpl.
    destruct (next_index (size (tsp st)) (i (tsp st))) as [-> _];
      [lia|lia|done].
Qed.

Lemma acquire_next_slot_witness :
  size (tsp (rdstr_cyclic_get after_teardown 2)) = 2 ∧
  i (tsp (rdstr_cyclic_get after_teardown 2)) = 1 ∧
  buf_cells (rdstr_cyclic_get after_teardown 2) = Some [None; None] ∧
  len_cells (rdstr_cyclic_get after_teardown 2) = Some [0; 0].
Proof.
  destruct (acquire_next_slot after_teardown 2) as [Huninit _].
  apply Huninit. vm_compute. reflexivity.
Defined.

(** The pool left by a teardown has slot count 0 and cursor 1; the
    acquisition that initialises it again leaves the cursor at 1. *)
Lemma acquire_after_teardown_counterexample :
  run 2 [Render (Formatted abc); Render (Formatted abc); Cleanup]
    (fresh_thread empty_heap) = Some after_teardown ∧
  size (tsp after_teardown) = 0 ∧
  size (tsp (rdstr_cyclic_get after_teardown 2)) = 2 ∧
  i (tsp (rdstr_cyclic_get after_teardown 2)) ≠ 0.
Proof. vm_compute. repeat split; congruence. Qed.

(** ** Calls whose measurement fails *)

Lemma slot_storage_cells st bs j :
  buf_cells st = Some bs → 0 ≤ j →
  slot_storage st j = bs !! Z.to_nat j.
Proof.
  intros (pb & Hpb & Hlive)%buf_cells_Some Hj.
  unfold slot_storage, load_ptr. rewrite Hpb. simpl. rewrite Hlive.
  by rewrite decide_True.
Qed.

Lemma slot_capacity_cells st ls j :
  len_cells st = Some ls → 0 ≤ j →
  slot_capacity st j = ls !! Z.to_nat j.
Proof.
  intros (pl & Hpl & Hlive)%len_cells_Some Hj.
  unfold slot_capacity, load_int. rewrite Hpl. simpl. rewrite Hlive.
  by rewrite decide_True.
Qed.

(** The failing call on an initialised pool moves the cursor from 0 to 1. *)
Lemma failed_call_counterexample :
  run 2 [Render (Formatted abc)] (fresh_thread empty_heap)
  = Some after_one_call ∧
  ∃ st', rd_tsprintf 2 FormatError after_one_call = Some (None, st') ∧
         i (tsp after_one_call) = 0 ∧ i (tsp st') = 1 ∧
         st' ≠ after_one_call.
Proof.
  split; [vm_compute; reflexivity|].
  eexists. split; [vm_compute; reflexivity|].
  split; [vm_compute; reflexivity|]. split; [vm_compute; reflexivity|].
  intros Heq. apply (f_equal (λ st, i (tsp st))) in Heq.
  vm_compute in Heq. congruence.
Qed.

(** C4, as the code has it: a call whose measurement fails returns [NULL]
    and leaves what the slot acquisition made of the pool.  On an
    initialised pool the slot count, both arrays and the whole heap, hence
    the storage and capacity of every slot, are as before the call, and
    only the cursor has moved, to the next slot; on an uninitialised pool
    the call has initialised it, with [k] slots that are all unused, the
    cursor is where it was and every block that was live before is
    untouched. *)
Theorem failed_call_effect k st :
  1 ≤ k ≤ INT_MAX → pool_inv k st →
  ∃ st',
    rd_tsprintf k FormatError st = Some (None, st') ∧
    (size (tsp st) ≠ 0 →
     size (tsp st') = size (tsp st) ∧
     buf (tsp st') = buf (tsp st) ∧
     len (tsp st') = len (tsp st) ∧
     mem st' = mem st ∧
     (∀ j, slot_storage st' j = slot_storage st j ∧
           slot_capacity st' j = slot_capacity st j) ∧
     i (tsp st') = (i (tsp st) + 1) `mod` size (tsp st)) ∧
    (size (tsp st) = 0 →
     size (tsp st') = k ∧
     buf_cells st' = Some (replicate (Z.to_nat k) None) ∧
     len_cells st' = Some (replicate (Z.to_nat k) 0) ∧
     (∀ j, 0 ≤ j < k →
           slot_storage st' j = Some None ∧ slot_capacity st' j = Some 0) ∧
     i (tsp st') = i (tsp st) ∧
     ∀ b, is_Some (live (mem st) !! b) →
          live (mem st') !! b = live (mem st) !! b).
Proof.
  intros Hk Hinv. exists (rdstr_cyclic_get st k).
  split; [apply tsprintf_failure|]. split.
  - intros Hsz.
    pose proof Hinv as (_ & Hi & Hrest).
    rewrite decide_False in Hrest by done. destruct Hrest as [Hk' _].
    destruct (next_index k (i (tsp st)) Hk Hi) as [Hnext _].
    rewrite (cyclic_get_init _ _ Hsz). cbn [tsp mem size buf len i].
    do 5 (split; [done|]). by rewrite Hk'.
  - intros Hsz.
    destruct (cyclic_get_uninit_cells st k Hsz) as [Hb Hl].
    split; [by rewrite (cyclic_get_uninit _ _ Hsz)|].
    do 2 (split; [done|]). split; [|split].
    + intros j Hj.
      rewrite (slot_storage_cells _ _ _ Hb), (slot_capacity_cells _ _ _ Hl)
        by lia.
      rewrite !lookup_replicate_2 by lia. done.
    + by rewrite (cyclic_get_uninit _ _ Hsz).
    + intros b [o Hb']. destruct Hinv as (Hwf & _).
      rewrite (cyclic_get_uninit _ _ Hsz). simpl.
      pose proof (Hwf _ _ Hb') as Hlt. simpl in Hlt.
      rewrite !lookup_insert_ne by lia. done.
Qed.

Lemma failed_call_effect_witness :
  (1 ≤ 2 ≤ INT_MAX ∧ pool_inv 2 after_one_call) ∧
  ∃ st',
    rd_tsprintf 2 FormatError after_one_call = Some (None, st') ∧
    mem st' = mem after_one_call ∧
    (∀ j, slot_storage st' j = slot_storage after_one_call j ∧
          slot_capacity st' j = slot_capacity after_one_call j) ∧
    i (tsp st') = (i (tsp after_one_call) + 1) `mod` size (tsp after_one_call).
Proof.
  assert (1 ≤ 2 ≤ INT_MAX) as Hk by (unfold INT_MAX; lia).
  assert (pool_inv 2 after_one_call) as Hinv
    by (apply (bool_decide_unpack _); vm_compute; exact I).
  split; [done|].
  destruct (failed_call_effect 2 after_one_call Hk Hinv)
    as (st' & Hrun & Hinit & _).
  exists st'. split; [exact Hrun|].
  destruct Hinit as (_ & _ & _ & Hmem & Hslots & Hi).
  - vm_compute. congruence.
  - split; [exact Hmem|]. split; [exact Hslots|exact Hi].
Defined.

(** C5: a call whose measurement fails returns [NULL], and the slot it
    targeted has the storage and the capacity it had before the call; when
    the call had to initialise the pool the targeted slot is new and unused
    (storage absent, capacity 0). *)
Theorem failed_call_slot k st :
  1 ≤ k ≤ INT_MAX → pool_inv k st →
  ∃ st', rd_tsprintf k FormatError st = Some (None, st') ∧
         let j := i (tsp st') in
         (size (tsp st) ≠ 0 →
          slot_storage st' j = slot_storage st j ∧
          slot_capacity st' j = slot_capacity st j ∧
          ∀ q, text_at (mem st') q = text_at (mem st) q) ∧
         (size (tsp st) = 0 →
          slot_storage st' j = Some None ∧ slot_capacity st' j = Some 0).
Proof.
  intros Hk Hinv. exists (rdstr_cyclic_get st k).
  split; [apply tsprintf_failure|]. split.
  - intros Hsz. by rewrite (cyclic_get_init _ _ Hsz).
  - intros Hsz.
    destruct (cyclic_get_shape k st Hk Hinv)
      as (_ & Hi & pb & pl & bs & ls & Hshape).
    destruct (cyclic_get_uninit_cells st k Hsz) as [Hb Hl].
    apply buf_cells_Some in Hb as (pb' & Hpb' & Hb).
    apply len_cells_Some in Hl as (pl' & Hpl' & Hl).
    rewrite (slot_storage_shape _ _ _ _ _ _ _ Hshape) by lia.
    rewrite (slot_capacity_shape _ _ _ _ _ _ _ Hshape) by lia.
    destruct Hshape.
    assert (bs = replicate (Z.to_nat k) None) as -> by congruence.
    assert (ls = replicate (Z.to_nat k) 0) as -> by congruence.
    rewrite !lookup_replicate_2 by lia. done.
Qed.

Lemma failed_call_slot_witness :
  (1 ≤ 2 ≤ INT_MAX ∧ pool_inv 2 after_one_call) ∧
  ∃ st', rd_tsprintf 2 FormatError after_one_call = Some (None, st') ∧
         let j := i (tsp st') in
         (size (tsp after_one_call) ≠ 0 →
          slot_storage st' j = slot_storage after_one_call j ∧
          slot_capacity st' j = slot_capacity after_one_call j ∧
          ∀ q, text_at (mem st') q = text_at (mem after_one_call) q) ∧
         (size (tsp after_one_call) = 0 →
          slot_storage st' j = Some None ∧ slot_capacity st' j = Some 0).
Proof.
  assert (1 ≤ 2 ≤ INT_MAX) as Hk by (unfold INT_MAX; lia).
  assert (pool_inv 2 after_one_call) as Hinv
    by (apply (bool_decide_unpack _); vm_compute; exact I).
  split; [done|]. exact (failed_call_slot 2 after_one_call Hk Hinv).
Defined.

(** C10: a call whose measurement fails keeps the slot acquisition it began
    with: an uninitialised pool comes out initialised, with [k] slots whose
    storage is absent and whose capacity is 0, and on an initialised pool
    the cursor has advanced by one modulo the slot count. *)
Theorem failed_call_acquires k st :
  1 ≤ k ≤ INT_MAX → pool_inv k st →
  ∃ st', rd_tsprintf k FormatError st = Some (None, st') ∧
         (size (tsp st) = 0 →
          size (tsp st') = k ∧
          buf_cells st' = Some (replicate (Z.to_nat k) None) ∧
          len_cells st' = Some (replicate (Z.to_nat k) 0)) ∧
         (size (tsp st) ≠ 0 →
          size (tsp st') = size (tsp st) ∧
          i (tsp st') = (i (tsp st) + 1) `mod` size (tsp st)).
Proof.
  intros Hk Hinv. exists (rdstr_cyclic_get st k).
  split; [apply tsprintf_failure|].
  destruct (cyclic_get_cursor k st Hk Hinv) as [Hsz1 Hi1].
  split.
  - intros Hsz. split; [done|]. by apply cyclic_get_uninit_cells.
  - intros Hsz. rewrite decide_False in Hi1 by done.
    destruct Hinv as (_ & _ & Hrest). rewrite decide_False in Hrest by done.
    destruct Hrest as [Hk' _]. rewrite Hk'. done.
Qed.

Lemma failed_call_acquires_witness :
  (1 ≤ 2 ≤ INT_MAX ∧ pool_inv 2 (fresh_thread empty_heap)) ∧
  ∃ st', rd_tsprintf 2 FormatError (fresh_thread empty_heap)
         = Some (None, st') ∧
         size (tsp st') = 2 ∧
         buf_cells st' = Some [None; None] ∧ len_cells st' = Some [0; 0].
Proof.
  assert (1 ≤ 2 ≤ INT_MAX) as Hk by (unfold INT_MAX; lia).
  assert (pool_inv 2 (fresh_thread empty_heap)) as Hinv
    by (apply (bool_decide_unpack _); vm_compute; exact I).
  split; [done|].
  destruct (failed_call_acquires 2 (fresh_thread empty_heap) Hk Hinv)
    as (st' & Hrun & Huninit & _).
  exists st'. split; [exact Hrun|]. apply Huninit. reflexivity.
Defined.

(** ** Teardown *)

Lemma first_call_uninit k st out :
  1 ≤ k ≤ INT_MAX → pool_inv k st → size (tsp st) = 0 → no_overflow out →
  first_call k st out.
Proof.
  intros Hk Hinv Hsz Hout.
  destruct (tsprintf_success k st out Hk Hinv Hout)
    as (p & c & r & st' & Hp & Hc & Hok & Hrun & Hpost).
  destruct (cyclic_get_cursor k st Hk Hinv) as [Hsz1 _].
  destruct (cyclic_get_shape k st Hk Hinv) as (_ & Hi & _).
  destruct (cyclic_get_uninit_cells st k Hsz) as [Hb Hl].
  rewrite (slot_storage_cells _ _ _ Hb) in Hp by lia.
  rewrite lookup_replicate_2 in Hp by lia. injection Hp as <-.
  destruct Hpost. rewrite <- post_tsp0 in *.
  destruct post_replaced0 as (-> & Hc' & _); [by left|].
  exists (Some (next (mem (rdstr_cyclic_get st k)))), st'.
  do 5 (split; [done|]).
  intros j Hj Hne. destruct (post_others0 j Hne) as (-> & -> & _).
  rewrite (slot_storage_cells _ _ _ Hb), (slot_capacity_cells _ _ _ Hl) by lia.
  by rewrite !lookup_replicate_2 by lia.
Qed.

Lemma results_expected k fs st :
  1 ≤ k ≤ INT_MAX → pool_inv k st → Forall format_ok fs →
  results k fs st = Some (expected <$> fs).
Proof.
  intros Hk Hinv Hfs. revert st Hinv.
  induction Hfs as [|f fs Hf Hfs IH]; intros st Hinv; [done|].
  assert (∃ r st', rd_tsprintf k f st = Some (r, st') ∧ pool_inv k st' ∧
                   text_at (mem st') r = expected f)
    as (r & st' & Hrun & Hinv' & Htext).
  { destruct f as [|out].
    - exists None, (rdstr_cyclic_get st k).
      split; [apply tsprintf_failure|]. split; [by apply cyclic_get_inv|done].
    - destruct (tsprintf_success k st out Hk Hinv Hf)
        as (p & c & r & st' & _ & _ & _ & Hrun & []).
      by exists r, st'. }
  simpl. rewrite Hrun. simpl. rewrite (IH st' Hinv'). simpl.
  by rewrite Htext.
Qed.

(** C6: the teardown of a pool whose slot count is 0 changes nothing; the
    teardown of an initialised pool frees the block of every used slot and
    both arrays, touches no other block, and sets the slot count to 0.
    Afterwards the slot count is 0, and the next call initialises the pool
    with [k] slots again and returns the complete output, in a pool that
    looks as it does after the first call of a new thread; whatever calls
    follow, the strings they return are those a new thread would get. *)
Theorem teardown k st :
  1 ≤ k ≤ INT_MAX → pool_inv k st →
  ∃ st', rd_string_thread_cleanup st = Some st' ∧
    (size (tsp st) = 0 → st' = st) ∧
    (size (tsp st) ≠ 0 →
     (∀ j b, slot_storage st j = Some (Some b) →
             live (mem st') !! b = None) ∧
     ¬ is_live (mem st') (buf (tsp st)) ∧
     ¬ is_live (mem st') (len (tsp st)) ∧
     (∀ b, Some b ≠ buf (tsp st) → Some b ≠ len (tsp st) →
           (∀ j, slot_storage st j ≠ Some (Some b)) →
           live (mem st') !! b = live (mem st) !! b)) ∧
    size (tsp st') = 0 ∧ buf_cells st' = None ∧ len_cells st' = None ∧
    (∀ out, no_overflow out →
       first_call k st' out ∧
       ∀ h, heap_wf h → first_call k (fresh_thread h) out) ∧
    (∀ fs h, Forall format_ok fs → heap_wf h →
       results k fs st' = Some (expected <$> fs) ∧
       results k fs st' = results k fs (fresh_thread h)).
Proof.
  intros Hk Hinv.
  destruct (cleanup_inv k st Hk Hinv) as (st' & Hrun & Hinv' & Hsz' & Hi').
  exists st'. split; [done|].
  assert (buf_cells st' = None ∧ len_cells st' = None) as [Hb' Hl'].
  { destruct Hinv' as (_ & _ & Hrest). by rewrite decide_True in Hrest. }
  split; [|split; [|do 3 (split; [done|])]].
  - intros Hsz. rewrite (cleanup_uninit _ Hsz) in Hrun. congruence.
  - intros Hsz.
    destruct (pool_inv_shape _ _ Hinv Hsz) as (pb & pl & bs & ls & Hshape).
    rewrite (cleanup_init k st pb pl bs ls) in Hrun;
      [|done|by destruct Hinv|done].
    injection Hrun as <-.
    assert (∀ b, b ∈ omap id bs ↔ ∃ j, slot_storage st j = Some (Some b))
      as Hslots.
    { intros b. rewrite list_elem_of_omap. split.
      - intros (p & [j Hj]%list_elem_of_lookup & Hid). simpl in Hid. subst p.
        exists (Z.of_nat j).
        rewrite (slot_storage_shape _ _ _ _ _ _ _ Hshape) by lia.
        by rewrite Nat2Z.id.
      - intros [j Hj]. exists (Some b). split; [|done].
        destruct (decide (0 ≤ j)) as [Hpos|Hneg].
        + rewrite (slot_storage_shape _ _ _ _ _ _ _ Hshape) in Hj by done.
          apply list_elem_of_lookup. eauto.
        + destruct (slot_negative _ _ _ _ _ _ j Hshape) as [Hnone _]; [lia|].
          congruence. }
    destruct Hshape. rewrite shape_buf0, shape_len0.
    split; [|split; [|split]].
    + intros j b Hj. rewrite torn_down_lookup.
      rewrite decide_True; [done|]. right. right. apply Hslots. eauto.
    + unfold is_live. rewrite (torn_down_lookup st pb pl bs pb).
      rewrite decide_True by auto. by intros [? ?].
    + unfold is_live. rewrite (torn_down_lookup st pb pl bs pl).
      rewrite decide_True by auto. by intros [? ?].
    + intros b Hpb Hpl Hnot. rewrite torn_down_lookup.
      rewrite decide_False; [done|].
      intros [->|[->|[j Hj]%Hslots]]; [done|done|]. by apply (Hnot j).
  - split.
    + intros out Hout. split.
      * by apply first_call_uninit.
      * intros h Hwf. apply first_call_uninit; try done.
        apply fresh_thread_inv; [lia|done].
    + intros fs h Hfs Hwf. rewrite !results_expected; try done.
      apply fresh_thread_inv; [lia|done].
Qed.

Lemma teardown_witness :
  (1 ≤ 2 ≤ INT_MAX ∧ pool_inv 2 after_two_calls) ∧
  ∃ st', rd_string_thread_cleanup after_two_calls = Some st' ∧
         size (tsp st') = 0 ∧ first_call 2 st' abc.
Proof.
  assert (1 ≤ 2 ≤ INT_MAX) as Hk by (unfold INT_MAX; lia).
  assert (pool_inv 2 after_two_calls) as Hinv
    by (apply (bool_decide_unpack _); vm_compute; exact I).
  assert (no_overflow abc) as Hout
    by (apply (bool_decide_unpack _); vm_compute; exact I).
  split; [done|].
  destruct (teardown 2 after_two_calls Hk Hinv)
    as (st' & Hrun & _ & _ & Hsz & _ & _ & Hnext & _).
  exists st'. split; [exact Hrun|]. split; [exact Hsz|].
  exact (proj1 (Hnext abc Hout)).
Defined.

(** ** Capacity covers what was rendered *)

#[local] Arguments rdstr_cyclic_get : simpl never.






(** ** Structure of the pool *)

Lemma pool_inv_structural k st : pool_inv k st → structural st.
Proof.
  intros (Hwf & Hi & Hrest). unfold structural, slot_collection.
  destruct (decide (size (tsp st) = 0)) as [Hsz|Hsz].
  - destruct Hrest as [-> _]. simpl. rewrite Hsz.
    split; [done|]. split; [done|lia].
  - destruct Hrest as [Hk Hrest].
    destruct (buf_cells st) as [bs|]; [|done].
    destruct (len_cells st) as [ls|]; [|done].
    destruct Hrest as (Hbs & Hls & _).
    assert (length (zip bs ls) = Z.to_nat k) as Hlen.
    { rewrite length_zip_with. lia. }
    rewrite Hlen. split; [lia|]. split; [|lia].
    split; [done|]. intros Hnil. rewrite Hnil in Hlen. simpl in Hlen. lia.
Qed.

(** C8: the operations keep the structure of the pool: the slot count is
    the number of slots, so it is 0 exactly when there are none; on an
    initialised pool a call keeps the slot count, and an acquisition that
    asks for another count is ignored; the cursor is a valid index whenever
    the slot count is positive. *)
Theorem structure_preserved k :
  1 ≤ k ≤ INT_MAX →
  (∀ h, heap_wf h → pool_inv k (fresh_thread h)) ∧
  (∀ st, pool_inv k st → structural st) ∧
  (∀ st o, pool_inv k st → op_ok o →
     ∃ st', step k o st = Some st' ∧ pool_inv k st' ∧ structural st' ∧
            (size (tsp st) ≠ 0 → o ≠ Cleanup →
             size (tsp st') = size (tsp st))) ∧
  (∀ st, pool_inv k st →
     pool_inv k (rdstr_cyclic_get st k) ∧
     structural (rdstr_cyclic_get st k)) ∧
  (∀ st sz, size (tsp st) ≠ 0 →
     size (tsp (rdstr_cyclic_get st sz)) = size (tsp st)) ∧
  (∀ h ops, heap_wf h → Forall op_ok ops →
     ∃ st, run k ops (fresh_thread h) = Some st ∧ structural st).
Proof.
  intros Hk. split; [|split; [|split; [|split; [|split]]]].
  - intros h Hwf. apply fresh_thread_inv; [lia|done].
  - apply pool_inv_structural.
  - intros st o Hinv Ho.
    destruct o as [f|].
    + destruct (render_step k st f Hk Hinv Ho) as (r & st' & Hrun & Hinv' & Htsp).
      exists st'. unfold step. rewrite Hrun. simpl.
      split; [done|]. split; [done|].
      split; [by eapply pool_inv_structural|].
      intros Hsz _. rewrite Htsp. by rewrite (cyclic_get_init _ _ Hsz).
    + destruct (cleanup_inv k st Hk Hinv) as (st' & Hrun & Hinv' & _).
      exists st'. split; [done|]. split; [done|].
      split; [by eapply pool_inv_structural|]. done.
  - intros st Hinv. pose proof (cyclic_get_inv k st Hk Hinv).
    split; [done|]. by eapply pool_inv_structural.
  - intros st sz Hsz. by rewrite (cyclic_get_init _ _ Hsz).
  - intros h ops Hwf Hops.
    destruct (run_inv k ops (fresh_thread h) Hk) as (st & Hrun & Hinv);
      [apply fresh_thread_inv; [lia|done]|done|].
    exists st. split; [done|]. by eapply pool_inv_structural.
Qed.

(** The slot count handed to [rdstr_cyclic_get] matters here: the code
    always passes [RD_TSPRINTF_BUFCNT].  Were a torn-down pool with cursor 1
    initialised again with a single slot, the cursor would stay at 1. *)
Example acquire_other_count :
  size (tsp (rdstr_cyclic_get after_teardown 1)) = 1 ∧
  i (tsp (rdstr_cyclic_get after_teardown 1)) = 1.
Proof. vm_compute. done. Qed.

Lemma structure_preserved_witness :
  1 ≤ 2 ≤ INT_MAX ∧
  ∃ st, run 2 [Render (Formatted abc); Render FormatError; Cleanup;
               Render (Formatted abc)]
          (fresh_thread empty_heap) = Some st ∧
        structural st.
Proof.
  assert (1 ≤ 2 ≤ INT_MAX) as Hk by (unfold INT_MAX; lia).
  split; [done|].
  destruct (structure_preserved 2 Hk) as (_ & _ & _ & _ & _ & Hrun).
  apply Hrun.
  - apply (bool_decide_unpack _). vm_compute. exact I.
  - apply (bool_decide_unpack _). vm_compute. exact I.
Defined.

(** ** Growth, then shrinking *)

Lemma run_app k ops1 ops2 st :
  run k (ops1 ++ ops2) st = st' ← run k ops1 st; run k ops2 st'.
Proof.
  revert st. induction ops1 as [|o ops1 IH]; intros st; simpl; [done|].
  destruct (step k o st) as [st1|]; simpl; [apply IH|done].
Qed.

(** A call leaves the slots it does not target as they are. *)
Lemma render_frame k st f X :
  1 ≤ k ≤ INT_MAX → pool_inv k st → size (tsp st) ≠ 0 → format_ok f →
  X ≠ (i (tsp st) + 1) `mod` k →
  ∃ r st', rd_tsprintf k f st = Some (r, st') ∧ pool_inv k st' ∧
           size (tsp st') ≠ 0 ∧
           i (tsp st') = (i (tsp st) + 1) `mod` k ∧
           slot_storage st' X = slot_storage st X ∧
           slot_capacity st' X = slot_capacity st X.
Proof.
  intros Hk Hinv Hsz Hf HX.
  destruct (cyclic_get_cursor k st Hk Hinv) as [Hsz1 Hi1].
  rewrite decide_False in Hi1 by done.
  assert (slot_storage (rdstr_cyclic_get st k) X = slot_storage st X ∧
          slot_capacity (rdstr_cyclic_get st k) X = slot_capacity st X)
    as [Hs1 Hc1] by (by rewrite (cyclic_get_init _ _ Hsz)).
  destruct f as [|out].
  - exists None, (rdstr_cyclic_get st k).
    split; [apply tsprintf_failure|]. split; [by apply cyclic_get_inv|].
    split; [lia|]. done.
  - destruct (tsprintf_success k st out Hk Hinv Hf)
      as (p & c & r & st' & _ & _ & _ & Hrun & []).
    exists r, st'. split; [done|]. split; [done|].
    rewrite post_tsp0. split; [lia|]. split; [done|].
    destruct (post_others0 X) as (-> & -> & _); [congruence|done].
Qed.

(** Calls that rotate past the slot [X] without reaching it leave it as
    it is. *)
Lemma others_keep_slot k fs st X :
  1 ≤ k ≤ INT_MAX → pool_inv k st → size (tsp st) ≠ 0 →
  Forall format_ok fs →
  (∀ m, 1 ≤ m ≤ Z.of_nat (length fs) → (i (tsp st) + m) `mod` k ≠ X) →
  ∃ st', run k (Render <$> fs) st = Some st' ∧ pool_inv k st' ∧
         size (tsp st') ≠ 0 ∧
         i (tsp st') = (i (tsp st) + Z.of_nat (length fs)) `mod` k ∧
         slot_storage st' X = slot_storage st X ∧
         slot_capacity st' X = slot_capacity st X.
Proof.
  intros Hk Hinv Hsz Hfs. revert st Hinv Hsz.
  induction Hfs as [|f fs Hf Hfs IH]; intros st Hinv Hsz HX.
  - exists st. do 3 (split; [done|]). split; [|done].
    destruct Hinv as (_ & Hi & Hrest). simpl.
    by rewrite Z.add_0_r, Z.mod_small by done.
  - destruct (render_frame k st f X Hk Hinv Hsz Hf)
      as (r & st1 & Hrun & Hinv1 & Hsz1 & Hi1 & Hs1 & Hc1).
    { intros ->. apply (HX 1); [simpl length; lia|done]. }
    destruct (IH st1 Hinv1 Hsz1) as (st' & Hrun' & ? & ? & Hi' & Hs' & Hc').
    { intros m Hm. rewrite Hi1, Zplus_mod_idemp_l.
      replace (i (tsp st) + 1 + m) with (i (tsp st) + (m + 1)) by lia.
      apply HX. simpl length. lia. }
    exists st'. rewrite (run_render _ _ _ _ _ _ Hrun), Hrun'.
    do 3 (split; [done|]). split; [|by rewrite Hs', Hc'].
    rewrite Hi', Hi1, Zplus_mod_idemp_l. f_equal. simpl length. lia.
Qed.

Lemma turn_decision k st fs out :
  1 ≤ k ≤ INT_MAX → pool_inv k st → size (tsp st) ≠ 0 →
  Forall format_ok fs → Z.of_nat (length fs) = k - 1 → no_overflow out →
  let X := i (tsp st) in
  let n := Z.of_nat (length out) + 1 in
  ∃ p c r c' st',
    slot_storage st X = Some p ∧ slot_capacity st X = Some c ∧
    run k (turn fs out) st = Some st' ∧
    pool_inv k st' ∧ size (tsp st') ≠ 0 ∧ i (tsp st') = X ∧
    slot_storage st' X = Some r ∧ slot_capacity st' X = Some c' ∧
    text_at (mem st') r = Some (out ++ [x00]) ∧
    (must_replace p c n → r ≠ p ∧ c' = n ∧ ¬ is_live (mem st') p) ∧
    (¬ must_replace p c n → r = p ∧ c' = c).
Proof.
  intros Hk Hinv Hsz Hfs Hlen Hout X n.
  pose proof Hinv as (_ & Hi & _).
  destruct (others_keep_slot k fs st X Hk Hinv Hsz Hfs)
    as (st1 & Hrun1 & Hinv1 & Hsz1 & Hi1 & Hs1 & Hc1).
  { intros m Hm. subst X.
    rewrite <- (Z.mod_small (i (tsp st)) k) at 2 by done.
    apply mod_shift_distinct. lia. }
  destruct (tsprintf_success k st1 out Hk Hinv1 Hout)
    as (p & c & r & st' & Hp & Hc & Hok & Hrun & []).
  destruct (cyclic_get_cursor k st1 Hk Hinv1) as [Hsz2 Hi2].
  rewrite decide_False in Hi2 by done.
  assert (i (tsp (rdstr_cyclic_get st1 k)) = X) as HX.
  { rewrite Hi2, Hi1, Zplus_mod_idemp_l, Hlen.
    replace (i (tsp st) + (k - 1) + 1) with (i (tsp st) + 1 * k) by lia.
    rewrite Z_mod_plus_full. by apply Z.mod_small. }
  rewrite HX in *.
  assert (mem (rdstr_cyclic_get st1 k) = mem st1 ∧
          slot_storage (rdstr_cyclic_get st1 k) X = slot_storage st1 X ∧
          slot_capacity (rdstr_cyclic_get st1 k) X = slot_capacity st1 X)
    as (Hmem & Hs2 & Hc2) by (by rewrite (cyclic_get_init _ _ Hsz1)).
  rewrite Hs2, Hs1 in Hp. rewrite Hc2, Hc1 in Hc.
  assert (run k (turn fs out) st = Some st') as Hturn.
  { unfold turn. rewrite run_app, Hrun1. simpl. by rewrite Hrun. }
  exists p, c, r.
  destruct (decide (must_replace p c n)) as [Hr|Hr].
  - destruct (post_replaced0 Hr) as (Hrnew & Hc' & _ & Hfresh & Hfreed).
    exists n, st'. rewrite post_tsp0, HX.
    do 5 (split; [done || lia|]). do 4 (split; [done|]). split; [|done].
    intros _. split; [|done].
    intros <-. apply Hfresh. rewrite Hrnew in Hok.
    apply slot_ok_block in Hok as (text & Hb & _).
    rewrite Hrnew. simpl. eauto.
  - destruct (post_kept0 Hr) as (-> & Hc').
    exists c, st'. rewrite post_tsp0, HX.
    do 5 (split; [done || lia|]). do 4 (split; [done|]). done.
Qed.

Lemma turns_stay k small turns :
  1 ≤ k ≤ INT_MAX → length small = 10%nat →
  Forall (λ fs, Forall format_ok fs ∧ Z.of_nat (length fs) = k - 1) turns →
  ∀ st b,
    pool_inv k st → size (tsp st) ≠ 0 →
    slot_storage st (i (tsp st)) = Some (Some b) →
    slot_capacity st (i (tsp st)) = Some 11 →
    ∃ st', run k (concat ((λ fs, turn fs small) <$> turns)) st = Some st' ∧
           i (tsp st') = i (tsp st) ∧
           slot_storage st' (i (tsp st)) = Some (Some b) ∧
           slot_capacity st' (i (tsp st)) = Some 11.
Proof.
  intros Hk Hsmall Hturns.
  assert (no_overflow small) as Hout
    by (unfold no_overflow, INT_MAX; rewrite Hsmall; lia).
  induction Hturns as [|fs turns [Hfs Hlen] Hturns IH]; intros st b Hinv Hsz Hs Hc.
  - by exists st.
  - destruct (turn_decision k st fs small Hk Hinv Hsz Hfs Hlen Hout)
      as (p & c & r & c' & st1 & Hp & Hc0 & Hrun & Hinv1 & Hsz1 & Hi1
          & Hr & Hc' & _ & _ & Hkeep).
    assert (p = Some b) as -> by congruence.
    assert (c = 11) as -> by congruence.
    destruct Hkeep as [-> ->].
    { unfold must_replace. rewrite Hsmall. intros [?|?]; [done|lia]. }
    rewrite <- Hi1 in Hr, Hc'.
    destruct (IH st1 b Hinv1 Hsz1 Hr Hc') as (st' & Hrun' & Hi' & Hs' & Hc'').
    exists st'. rewrite fmap_cons. simpl. rewrite run_app, Hrun. simpl.
    rewrite Hrun'. rewrite <- Hi1. by rewrite Hi'.
Qed.

(** C9: on a new thread a 500-byte string leaves its slot with capacity
    501.  A 10-byte string rendered into a used slot of capacity at least
    11 replaces the storage exactly when the capacity exceeds 44 and 64;
    with capacity 501 it does, so the next 10-byte render into the slot
    frees the 501-byte block and leaves capacity 11, which is still at
    least 11; from then on 10-byte renders into the slot keep the same
    block and capacity 11.  The renders into the slot are one turn of the
    rotation apart, with any calls into the other slots in between. *)
Theorem shrink_after_growth k h big small :
  1 ≤ k ≤ INT_MAX → heap_wf h →
  length big = 500%nat → length small = 10%nat →
  (∀ st fs b c,
     pool_inv k st → size (tsp st) ≠ 0 →
     slot_storage st (i (tsp st)) = Some (Some b) →
     slot_capacity st (i (tsp st)) = Some c → 11 ≤ c →
     Forall format_ok fs → Z.of_nat (length fs) = k - 1 →
     ∃ r c' st',
       run k (turn fs small) st = Some st' ∧
       slot_storage st' (i (tsp st)) = Some r ∧
       slot_capacity st' (i (tsp st)) = Some c' ∧
       (r ≠ Some b ↔ c > 11 * 4 ∧ c > 64) ∧ 11 ≤ c') ∧
  ∃ b1 st1,
    rd_tsprintf k (Formatted big) (fresh_thread h) = Some (Some b1, st1) ∧
    slot_storage st1 (i (tsp st1)) = Some (Some b1) ∧
    slot_capacity st1 (i (tsp st1)) = Some 501 ∧
    ∀ fs1, Forall format_ok fs1 → Z.of_nat (length fs1) = k - 1 →
      ∃ b2 st2,
        run k (turn fs1 small) st1 = Some st2 ∧
        i (tsp st2) = i (tsp st1) ∧
        slot_storage st2 (i (tsp st1)) = Some (Some b2) ∧
        b2 ≠ b1 ∧ ¬ is_live (mem st2) (Some b1) ∧
        slot_capacity st2 (i (tsp st1)) = Some 11 ∧
        ∀ turns,
          Forall (λ fs, Forall format_ok fs ∧ Z.of_nat (length fs) = k - 1)
            turns →
          ∃ st3,
            run k (concat ((λ fs, turn fs small) <$> turns)) st2 = Some st3 ∧
            i (tsp st3) = i (tsp st1) ∧
            slot_storage st3 (i (tsp st1)) = Some (Some b2) ∧
            slot_capacity st3 (i (tsp st1)) = Some 11.
Proof.
  intros Hk Hwf Hbig Hsmall.
  assert (no_overflow small) as Hout
    by (unfold no_overflow, INT_MAX; rewrite Hsmall; lia).
  assert (no_overflow big) as Hout'
    by (unfold no_overflow, INT_MAX; rewrite Hbig; lia).
  split.
  - intros st fs b c Hinv Hsz Hs Hc Hc11 Hfs Hlen.
    destruct (turn_decision k st fs small Hk Hinv Hsz Hfs Hlen Hout)
      as (p & c0 & r & c' & st' & Hp & Hc0 & Hrun & _ & _ & _
          & Hr & Hc' & _ & Hrep & Hkeep).
    assert (p = Some b) as -> by congruence.
    assert (c0 = c) as -> by congruence.
    rewrite Hsmall in Hrep, Hkeep. change (Z.of_nat 10 + 1) with 11 in *.
    exists r, c', st'. do 3 (split; [done|]).
    destruct (decide (must_replace (Some b) c 11)) as [Hm|Hm].
    + destruct (Hrep Hm) as (Hne & -> & _). split; [|done].
      split; [|done]. intros _. unfold must_replace in Hm.
      destruct Hm as [?|[?|?]]; [done|lia|lia].
    + destruct (Hkeep Hm) as [-> ->]. split; [|done].
      split; [done|]. intros Hgt. destruct Hm. right. right. lia.
  - assert (pool_inv k (fresh_thread h)) as Hinv
      by (apply fresh_thread_inv; [lia|done]).
    destruct (first_call_uninit k (fresh_thread h) big Hk Hinv eq_refl Hout')
      as (r & st1 & Hrun & Hsz1 & Htext & Hs1 & Hc1 & _).
    destruct r as [b1|]; [|done].
    rewrite Hbig in Hc1. change (Z.of_nat 500 + 1) with 501 in Hc1.
    destruct (render_step k (fresh_thread h) (Formatted big) Hk Hinv Hout')
      as (r' & st1' & Hrun' & Hinv1 & _).
    assert (st1' = st1) as -> by congruence.
    exists b1, st1. do 3 (split; [done|]).
    intros fs1 Hfs1 Hlen1.
    destruct (turn_decision k st1 fs1 small Hk Hinv1 ltac:(lia) Hfs1 Hlen1 Hout)
      as (p & c & r & c' & st2 & Hp & Hc0 & Hrun2 & Hinv2 & Hsz2 & Hi2
          & Hr & Hc' & Htext2 & Hrep & _).
    assert (p = Some b1) as -> by congruence.
    assert (c = 501) as -> by congruence.
    rewrite Hsmall in Hrep. change (Z.of_nat 10 + 1) with 11 in Hrep.
    destruct Hrep as (Hne & -> & Hfreed).
    { right. right. lia. }
    destruct r as [b2|]; [|done].
    exists b2, st2. do 3 (split; [done|]). split; [congruence|].
    do 2 (split; [done|]).
    intros turns Hturns. rewrite <- Hi2 in Hr, Hc'.
    destruct (turns_stay k small turns Hk Hsmall Hturns st2 b2 Hinv2 Hsz2 Hr Hc')
      as (st3 & Hrun3 & Hi3 & Hs3 & Hc3).
    exists st3. rewrite <- Hi2. split; [done|]. by rewrite Hi3.
Qed.

Lemma shrink_after_growth_witness :
  (1 ≤ 2 ≤ INT_MAX ∧ heap_wf empty_heap ∧
   length big500 = 500%nat ∧ length small10 = 10%nat) ∧
  ∃ b1 st1,
    rd_tsprintf 2 (Formatted big500) (fresh_thread empty_heap)
    = Some (Some b1, st1) ∧
    slot_capacity st1 (i (tsp st1)) = Some 501 ∧
    ∃ b2 st2,
      run 2 (turn [FormatError] small10) st1 = Some st2 ∧
      slot_storage st2 (i (tsp st1)) = Some (Some b2) ∧ b2 ≠ b1 ∧
      slot_capacity st2 (i (tsp st1)) = Some 11.
Proof.
  assert (1 ≤ 2 ≤ INT_MAX) as Hk by (unfold INT_MAX; lia).
  assert (heap_wf empty_heap) as Hwf
    by (apply (bool_decide_unpack _); vm_compute; exact I).
  assert (length big500 = 500%nat) as Hbig by (vm_compute; reflexivity).
  assert (length small10 = 10%nat) as Hsmall by (vm_compute; reflexivity).
  split; [done|].
  destruct (shrink_after_growth 2 empty_heap big500 small10 Hk Hwf Hbig Hsmall)
    as (_ & b1 & st1 & Hrun & _ & Hc & Hturn).
  exists b1, st1. split; [exact Hrun|]. split; [exact Hc|].
  destruct (Hturn [FormatError]) as (b2 & st2 & Hrun2 & _ & Hs & Hne & _ & Hc2 & _).
  - repeat constructor.
  - reflexivity.
  - exists b2, st2. split; [exact Hrun2|]. split; [exact Hs|].
    split; [exact Hne|exact Hc2].
Defined.

(** The scenario of C9 run on a pool of one slot: the capacities of the
    slot after each of four calls. *)
Example shrink_after_growth_run :
  let caps ops :=
    st ← run 1 ops (fresh_thread empty_heap); slot_capacity st 0 in
  caps [Render (Formatted big500)] = Some 501 ∧
  caps [Render (Formatted big500); Render (Formatted small10)] = Some 11 ∧
  caps [Render (Formatted big500); Render (Formatted small10);
        Render (Formatted small10)] = Some 11 ∧
  caps [Render (Formatted big500); Render (Formatted small10);
        Render (Formatted small10); Render (Formatted small10)] = Some 11.
Proof. vm_compute. done. Qed.

(** ** The replacement test beyond the range of [int] *)

Lemma vsnprintf_len_fits out :
  Z.of_nat (length out) ≤ INT_MAX →
  vsnprintf_len (Formatted out) = Z.of_nat (length out).
Proof. intros Ho. unfold vsnprintf_len. by rewrite decide_True. Qed.

Lemma replace_test_product c n m :
  bool_decide (c < n) || bool_decide (c > m) && bool_decide (c > 64)
  = bool_decide (c < n ∨ (c > m ∧ c > 64)).
Proof.
  destruct (decide (c < n ∨ (c > m ∧ c > 64))) as [H|H].
  - rewrite (bool_decide_eq_true_2 _ H).
    destruct H as [H|[H1 H2]].
    + by rewrite (bool_decide_eq_true_2 _ H).
    + rewrite (bool_decide_eq_true_2 _ H1), (bool_decide_eq_true_2 _ H2).
      by rewrite orb_true_r.
  - rewrite (bool_decide_eq_false_2 _ H).
    rewrite (bool_decide_eq_false_2 (c < n)) by tauto. simpl.
    destruct (decide (c > m)) as [H1|H1].
    + rewrite (bool_decide_eq_false_2 (c > 64)) by tauto.
      by rewrite andb_false_r.
    + by rewrite (bool_decide_eq_false_2 _ H1).
Qed.

(** What a successful call computes for any output shorter than
    [INT_MAX], with the product of the test as the code computes it. *)
Lemma tsprintf_compute_int k st out pb pl bs ls p c :
  let st1 := rdstr_cyclic_get st k in
  let j := Z.to_nat (i (tsp st1)) in
  let n := Z.of_nat (length out) + 1 in
  heap_wf (mem st1) → 0 ≤ i (tsp st1) < k →
  pool_shape k st1 pb pl bs ls →
  bs !! j = Some p → ls !! j = Some c → slot_ok (mem st1) p c →
  Z.of_nat (length out) < INT_MAX →
  rd_tsprintf k (Formatted out) st =
    if decide (p = None ∨ c < n ∨ (c > int_mul n 4 ∧ c > 64)) then
      Some (Some (next (mem st1)),
            {| tsp := tsp st1;
               mem := heap_written
                        (heap_renewed (mem st1) pb pl bs ls j p n)
                        (next (mem st1)) n out |})
    else
      Some (p,
            {| tsp := tsp st1;
               mem := match p with
                      | Some b => heap_written (mem st1) b c out
                      | None => mem st1
                      end |}).
Proof.
  intros st1 j n Hwf Hi Hshape Hp Hc Hok Hout.
  unfold rd_tsprintf. fold st1. clearbody st1.
  destruct Hshape. destruct st1 as [[sz b l idx] h].
  cbn [tsp mem size buf len i] in *. subst.
  rewrite vsnprintf_len_fits by lia.
  rewrite decide_False by lia.
  unfold int_add.
  rewrite (int_wrap_small (Z.of_nat (length out) + 1))
    by (unfold INT_MAX in *; lia).
  fold n. fold j. set (m := int_mul n 4).
  assert (Z.to_nat idx < length bs)%nat as Hjb by lia.
  assert (Z.to_nat idx < length ls)%nat as Hjl by lia.
  pose proof (heap_wf_next h Hwf) as Hnext.
  assert (pb ≠ pl ∧ pb ≠ next h ∧ pl ≠ next h) as (Hne & Hnb & Hnl)
    by (repeat split; congruence).
  rewrite (load_ptr_live _ _ _ _ _ shape_buf_live0 (proj1 Hi) Hp). simpl.
  assert (match p with
          | Some _ =>
              c0 ← load_int h (Some pl) idx;
              Some (bool_decide (c0 < n)
                    || bool_decide (c0 > m) && bool_decide (c0 > 64))
          | None => Some true
          end = Some (bool_decide (p = None ∨ c < n ∨ (c > m ∧ c > 64))))
    as ->.
  { destruct p as [b|].
    - rewrite (load_int_live _ _ _ _ _ shape_len_live0 (proj1 Hi) Hc). simpl.
      rewrite replace_test_product. f_equal. apply bool_decide_ext.
      split; [tauto | intros [?|?]; [done | tauto]].
    - by rewrite bool_decide_eq_true_2 by auto. }
  simpl. destruct (decide (p = None ∨ c < n ∨ (c > m ∧ c > 64))) as [Hr|Hr].
  - rewrite (bool_decide_eq_true_2 _ Hr).
    pose proof (replace_branch h pb pl bs ls idx p c n) as Hrb.
    unfold malloc in Hrb. simpl in Hrb.
    rewrite free_guard, Hrb by (done || unfold INT_MAX in *; lia).
    simpl.
    apply (render_tail _ pb pl (<[j := Some (next h)]> bs) (<[j := n]> ls)
             idx (next h) n []).
    + simpl. by rewrite lookup_insert_eq.
    + simpl. rewrite !lookup_insert_ne by done. by rewrite lookup_insert_eq.
    + lia.
    + by rewrite list_lookup_insert_eq.
    + by rewrite list_lookup_insert_eq.
    + simpl. rewrite lookup_insert_ne by done. by rewrite lookup_insert_eq.
    + unfold INT_MAX in *. lia.
  - rewrite (bool_decide_eq_false_2 _ Hr). simpl.
    destruct p as [b|]; [|tauto].
    apply slot_ok_block in Hok as (text & Hb & Hcr & _).
    apply (render_tail _ pb pl bs ls idx b c text); try done; lia.
Qed.

(** A call that renders 2^29 bytes into a slot whose block has exactly
    the length it needs replaces the block. *)
Lemma overflow_replaces_slot k st out b :
  1 ≤ k ≤ INT_MAX → pool_inv k st →
  Z.of_nat (length out) = 2 ^ 29 →
  let st1 := rdstr_cyclic_get st k in
  slot_storage st1 (i (tsp st1)) = Some (Some b) →
  slot_capacity st1 (i (tsp st1)) = Some (Z.of_nat (length out) + 1) →
  ∃ r st2,
    rd_tsprintf k (Formatted out) st = Some (r, st2) ∧
    tsp st2 = tsp st1 ∧
    r ≠ Some b ∧ slot_storage st2 (i (tsp st1)) = Some r ∧
    ¬ is_live (mem st2) (Some b) ∧
    ¬ replacement_rule k st out.
Proof.
  intros Hk Hinv Hlen st1 Hs Hc.
  set (n := Z.of_nat (length out) + 1) in *.
  assert (Z.of_nat (length out) < INT_MAX) as Hfit by (unfold INT_MAX; lia).
  assert (n ≤ INT_MAX) as Hn by (unfold INT_MAX; lia).
  destruct (cyclic_get_shape k st Hk Hinv)
    as (Hwf & Hi & pb & pl & bs & ls & Hshape).
  fold st1 in Hwf, Hi, Hshape.
  set (j := Z.to_nat (i (tsp st1))) in *.
  pose proof Hs as Hp. pose proof Hc as Hcap.
  rewrite (slot_storage_shape _ _ _ _ _ _ _ Hshape) in Hp by lia.
  rewrite (slot_capacity_shape _ _ _ _ _ _ _ Hshape) in Hcap by lia.
  fold j in Hp, Hcap.
  destruct (shape_slot _ _ _ _ _ _ Hshape Hi) as (p' & c' & Hp' & Hc' & Hok).
  fold j in Hp', Hc'.
  assert (p' = Some b) as -> by congruence.
  assert (c' = n) as -> by congruence.
  pose proof (tsprintf_compute_int k st out pb pl bs ls (Some b) n
                Hwf Hi Hshape Hp Hcap Hok Hfit) as Hrun.
  fold st1 j n in Hrun.
  rewrite decide_True in Hrun.
  2:{ right. right. unfold n. rewrite Hlen. split; reflexivity. }
  destruct (replaced_state k st1 pb pl bs ls (Some b) n out
              Hwf Hi Hshape Hp Hcap Hn) as [_ Hshape'].
  fold j n in Hshape'.
  destruct (shape_slot_block k st1 pb pl bs ls j b Hwf Hshape Hp)
    as (_ & _ & _ & _ & _ & _ & _ & _ & Hbn).
  assert (j < length bs)%nat as Hj by (apply lookup_lt_is_Some; eauto).
  assert (slot_storage
            {| tsp := tsp st1;
               mem := heap_written
                        (heap_renewed (mem st1) pb pl bs ls j (Some b) n)
                        (next (mem st1)) n out |} (i (tsp st1))
          = Some (Some (next (mem st1)))) as Hs'.
  { rewrite (slot_storage_shape _ _ _ _ _ _ _ Hshape') by (simpl; lia).
    cbn [tsp]. fold j. by apply list_lookup_insert_eq. }
  eexists _, _. split; [exact Hrun|]. split; [done|].
  split; [congruence|]. split; [exact Hs'|]. split.
  - cbn [mem is_live]. destruct Hshape.
    rewrite (renewed_freed (mem st1) pb pl bs ls j (Some b) n n out)
      by done.
    by intros [? ?].
  - unfold replacement_rule. cbv zeta. fold st1 n.
    intros (p2 & c2 & r2 & c3 & st3 & Hp2 & Hc2 & Hrun2 & _ & _ & _
            & Hiff & _).
    rewrite Hs in Hp2. rewrite Hc in Hc2.
    injection Hp2 as <-. injection Hc2 as <-.
    rewrite Hrun in Hrun2. injection Hrun2 as <- _.
    assert (Some (next (mem st1)) ≠ Some b) as Hne by congruence.
    destruct (proj1 Hiff Hne) as [?|[?|[? ?]]]; [done|lia|].
    unfold n in *. lia.
Qed.

(** The first call of a thread with an output of 2^29 bytes: it leaves a
    block of exactly the needed length in slot 0. *)
Lemma overflow_first_call k out :
  1 ≤ k ≤ INT_MAX → Z.of_nat (length out) = 2 ^ 29 →
  ∃ b st1,
    rd_tsprintf k (Formatted out) (fresh_thread empty_heap)
    = Some (Some b, st1) ∧
    pool_inv k st1 ∧ size (tsp st1) ≠ 0 ∧ i (tsp st1) = 0 ∧
    slot_storage st1 0 = Some (Some b) ∧
    slot_capacity st1 0 = Some (Z.of_nat (length out) + 1).
Proof.
  intros Hk Hlen.
  set (n := Z.of_nat (length out) + 1).
  assert (Z.of_nat (length out) < INT_MAX) as Hfit by (unfold INT_MAX; lia).
  assert (n ≤ INT_MAX) as Hn by (unfold INT_MAX; lia).
  assert (pool_inv k (fresh_thread empty_heap)) as Hinv0.
  { apply fresh_thread_inv; [lia|]. apply map_Forall_empty. }
  destruct (cyclic_get_shape k _ Hk Hinv0)
    as (Hwf1 & Hi1 & pb & pl & bs & ls & Hshape1).
  set (sta := rdstr_cyclic_get (fresh_thread empty_heap) k) in *.
  assert (size (tsp (fresh_thread empty_heap)) = 0) as Hsz0 by done.
  assert (i (tsp sta) = 0) as Hia
    by (unfold sta; by rewrite (cyclic_get_uninit _ _ Hsz0)).
  destruct (shape_slot _ _ _ _ _ _ Hshape1 Hi1) as (p & c & Hp & Hc & Hok).
  assert (p = None) as ->.
  { destruct (cyclic_get_uninit_cells (fresh_thread empty_heap) k Hsz0)
      as [Hb _].
    fold sta in Hb.
    pose proof (slot_storage_cells _ _ 0 Hb ltac:(lia)) as Hs.
    rewrite (slot_storage_shape _ _ _ _ _ _ _ Hshape1) in Hs by lia.
    rewrite Hia in Hp. rewrite Hp in Hs.
    rewrite lookup_replicate_2 in Hs by lia. congruence. }
  pose proof (tsprintf_compute_int k _ out pb pl bs ls None c
                Hwf1 Hi1 Hshape1 Hp Hc Hok Hfit) as Hrun1.
  fold sta n in Hrun1. rewrite decide_True in Hrun1 by (by left).
  destruct (replaced_state k sta pb pl bs ls None c out
              Hwf1 Hi1 Hshape1 Hp Hc Hn) as [Hwfb Hshapeb].
  fold n in Hwfb, Hshapeb. rewrite Hia in *.
  assert (0 < length bs ∧ 0 < length ls)%nat as [Hlb Hll]
    by (destruct Hshape1; lia).
  eexists _, _. split; [exact Hrun1|].
  split; [eapply shape_pool_inv; [| | |exact Hshapeb]; [lia|done|]|].
  { cbn [tsp]. lia. }
  split; [destruct Hshapeb; cbn [tsp] in *; lia|].
  split; [done|].
  rewrite (slot_storage_shape _ _ _ _ _ _ _ Hshapeb) by lia.
  rewrite (slot_capacity_shape _ _ _ _ _ _ _ Hshapeb) by lia.
  by rewrite !list_lookup_insert_eq by done.
Qed.

(** The same on a pool of any number of slots: after the first call and
    any [k - 1] calls into the other slots, the call that comes back to
    slot 0 with the same output replaces a block of exactly the length it
    needs. *)
Lemma overflow_replaces_turn k out fs :
  1 ≤ k ≤ INT_MAX → Z.of_nat (length out) = 2 ^ 29 →
  Forall format_ok fs → Z.of_nat (length fs) = k - 1 →
  ∃ b st1 st' r st2,
    rd_tsprintf k (Formatted out) (fresh_thread empty_heap)
    = Some (Some b, st1) ∧
    run k (Render <$> fs) st1 = Some st' ∧
    slot_storage st' 0 = Some (Some b) ∧
    slot_capacity st' 0 = Some (Z.of_nat (length out) + 1) ∧
    rd_tsprintf k (Formatted out) st' = Some (r, st2) ∧
    i (tsp st2) = 0 ∧
    r ≠ Some b ∧ slot_storage st2 0 = Some r ∧
    ¬ is_live (mem st2) (Some b) ∧
    ¬ replacement_rule k st' out.
Proof.
  intros Hk Hlen Hfs Hcount.
  destruct (overflow_first_call k out Hk Hlen)
    as (b & st1 & Hrun1 & Hinv1 & Hsz1 & Hi1 & Hs1 & Hc1).
  destruct (others_keep_slot k fs st1 0 Hk Hinv1 Hsz1 Hfs)
    as (st' & Hrun' & Hinv' & Hsz' & Hi' & Hs' & Hc').
  { intros m Hm. rewrite Hi1. rewrite Z.add_0_l.
    rewrite Z.mod_small by lia. lia. }
  rewrite Hi1, Z.add_0_l, Hcount in Hi'.
  destruct (cyclic_get_cursor k st' Hk Hinv') as [_ Hcur].
  rewrite decide_False in Hcur by done.
  rewrite Hi' in Hcur. rewrite Zplus_mod_idemp_l in Hcur.
  replace (k - 1 + 1) with (1 * k) in Hcur by lia.
  rewrite Z.mod_mul in Hcur by lia.
  assert (slot_storage (rdstr_cyclic_get st' k) 0 = slot_storage st' 0 ∧
          slot_capacity (rdstr_cyclic_get st' k) 0 = slot_capacity st' 0)
    as [Hsg Hcg] by (by rewrite (cyclic_get_init _ _ Hsz')).
  destruct (overflow_replaces_slot k st' out b Hk Hinv' Hlen)
    as (r & st2 & Hrun2 & Htsp2 & Hne & Hs2 & Hdead & Hrule).
  { rewrite Hcur. congruence. }
  { rewrite Hcur. congruence. }
  rewrite Hcur in Hs2.
  exists b, st1, st', r, st2.
  split; [exact Hrun1|]. split; [exact Hrun'|].
  split; [congruence|]. split; [congruence|].
  split; [exact Hrun2|]. split; [|done].
  by rewrite Htsp2.
Qed.

(** C1, at an output of 2^29 bytes on a pool of one slot.  The first call
    leaves a block of exactly the needed length; for the second call the
    storage is present, the capacity is not below the needed length and
    not above four times it, and yet the call frees the block and returns
    a new one: the product [len * 4] has left [int] and compares as a
    negative number. *)
Theorem replacement_overflow :
  ∃ b st1 r st2,
    rd_tsprintf 1 (Formatted huge) (fresh_thread empty_heap)
    = Some (Some b, st1) ∧
    slot_storage st1 0 = Some (Some b) ∧
    slot_capacity st1 0 = Some (Z.of_nat (length huge) + 1) ∧
    rd_tsprintf 1 (Formatted huge) st1 = Some (r, st2) ∧
    i (tsp st2) = 0 ∧
    r ≠ Some b ∧ slot_storage st2 0 = Some r ∧
    ¬ is_live (mem st2) (Some b) ∧
    ¬ replacement_rule 1 st1 huge.
Proof.
  assert (Z.of_nat (length huge) = 2 ^ 29) as Hlen.
  { unfold huge. rewrite length_replicate. apply Z2Nat.id. lia. }
  assert (1 ≤ 1 ≤ INT_MAX) as Hk by (unfold INT_MAX; lia).
  destruct (overflow_replaces_turn 1 huge [] Hk Hlen)
    as (b & st1 & st' & r & st2 & Hrun1 & Hrun' & Hrest);
    [constructor|reflexivity|].
  injection Hrun' as <-.
  exists b, st1, r, st2. split; [exact Hrun1|exact Hrest].
Qed.

(** * Part 3: the string functions *)

(** ** Characters *)

Lemma byte_val_range c : 0 ≤ byte_val c < 256.
Proof. unfold byte_val. pose proof (Byte.to_N_bounded c). lia. Qed.

Lemma byte_val_inj c1 c2 : byte_val c1 = byte_val c2 → c1 = c2.
Proof.
  unfold byte_val. intros Heq%(inj Z.of_N).
  pose proof (Byte.of_to_N c1) as H1. rewrite Heq, Byte.of_to_N in H1.
  congruence.
Qed.

Lemma int_of_char_indexes cs c :
  indexes cs c → int_of_char cs c = byte_val c.
Proof.
  unfold indexes, int_of_char. pose proof (byte_val_range c).
  destruct cs; simpl; [|done]. case_bool_decide; [lia|done].
Qed.

Lemma indexes_unsigned c : indexes false c.
Proof. unfold indexes, int_of_char. simpl. apply byte_val_range. Qed.

Lemma indexes_signed c : indexes true c ↔ byte_val c < 128.
Proof.
  unfold indexes, int_of_char. pose proof (byte_val_range c). simpl.
  case_bool_decide; lia.
Qed.

(** ** Strings *)

Lemma c_string_no_nul s : x00 ∉ c_string s.
Proof.
  induction s as [|c s IH]; simpl; [apply not_elem_of_nil|].
  case_decide; [apply not_elem_of_nil|].
  intros [?|?]%elem_of_cons; [congruence|done].
Qed.

Lemma c_string_split s :
  x00 ∈ s → ∃ rest, s = c_string s ++ x00 :: rest.
Proof.
  induction s as [|c s IH]; [by intros ?%elem_of_nil|].
  intros Hin. simpl. case_decide as Hc.
  - subst. by exists s.
  - apply elem_of_cons in Hin as [?|Hin]; [congruence|].
    destruct (IH Hin) as [rest Hrest]. exists rest. simpl. by f_equal.
Qed.

Lemma c_string_length s : (length (c_string s) ≤ length s)%nat.
Proof.
  induction s as [|c s IH]; simpl; [done|]. case_decide; simpl; lia.
Qed.

Lemma c_string_lt_length s : x00 ∈ s → (length (c_string s) < length s)%nat.
Proof.
  intros [rest Hrest]%c_string_split. rewrite Hrest at 2.
  rewrite length_app. simpl. lia.
Qed.

Lemma c_string_app_nul l rest : x00 ∉ l → c_string (l ++ x00 :: rest) = l.
Proof.
  induction l as [|c l IH]; simpl; intros Hl.
  - done.
  - rewrite decide_False by (intros ->; apply Hl; by left).
    f_equal. apply IH. intros ?. apply Hl. by right.
Qed.

Lemma c_string_take s : c_string s = take (length (c_string s)) s.
Proof.
  induction s as [|c s IH]; simpl; [done|].
  case_decide; simpl; [done|]. by f_equal.
Qed.

Lemma c_string_idemp l : x00 ∉ l → c_string l = l.
Proof.
  induction l as [|c l IH]; simpl; intros Hl; [done|].
  rewrite decide_False by (intros ->; apply Hl; by left).
  f_equal. apply IH. intros ?. apply Hl. by right.
Qed.

Lemma strlen_c_string s :
  x00 ∈ s → strlen s = Some (Z.of_nat (length (c_string s))).
Proof.
  intros Hin. unfold strlen.
  assert (list_find (λ c, c = x00) s = Some (length (c_string s), x00)) as ->;
    [|done].
  induction s as [|c s IH]; [by apply elem_of_nil in Hin|].
  simpl. case_decide as Hc; [by subst|].
  apply elem_of_cons in Hin as [?|Hin]; [congruence|].
  simpl. by rewrite (IH Hin).
Qed.

(** ** The table of marked characters *)

Lemma table_get_set map idx v idx' :
  0 ≤ idx < Z.of_nat (length map) → 0 ≤ idx' →
  table_get (<[Z.to_nat idx := v]> map) idx'
  = if decide (idx' = idx) then Some v else table_get map idx'.
Proof.
  intros Hidx Hidx'. unfold table_get.
  rewrite !(decide_True (P := 0 ≤ idx')) by done.
  case_decide as Heq.
  - subst. apply list_lookup_insert_eq. lia.
  - apply list_lookup_insert_ne. lia.
Qed.

(** The first loop of the three scanning functions marks exactly the
    characters of its string, when all of them index the table. *)
Lemma mark_chars_spec cs chars map0 :
  x00 ∈ chars → Forall (indexes cs) (c_string chars) → length map0 = 256%nat →
  ∃ map, mark_chars cs chars map0 = Some map ∧ length map = 256%nat ∧
         ∀ c, table_get map (byte_val c)
              = if decide (c ∈ c_string chars) then Some 1
                else table_get map0 (byte_val c).
Proof.
  revert map0. induction chars as [|c chars IH]; intros map0 Hin Hidx Hlen.
  { by apply elem_of_nil in Hin. }
  simpl in *. case_decide as Hc.
  - exists map0. split; [done|]. split; [done|]. intros c'.
    rewrite decide_False; [done|apply not_elem_of_nil].
  - apply elem_of_cons in Hin as [?|Hin]; [congruence|].
    apply Forall_cons in Hidx as [Hidxc Hidx].
    rewrite (int_of_char_indexes _ _ Hidxc).
    pose proof (byte_val_range c) as Hr.
    unfold table_set. rewrite decide_True by lia. simpl.
    destruct (IH (<[Z.to_nat (byte_val c) := 1]> map0) Hin Hidx)
      as (map & Hrun & Hlen' & Hget).
    { by rewrite length_insert. }
    exists map. split; [done|]. split; [done|]. intros c'.
    rewrite Hget. pose proof (byte_val_range c').
    rewrite table_get_set by lia.
    destruct (decide (c' ∈ c_string chars)) as [Hin'|Hin'].
    + rewrite decide_True; [done|by right].
    + destruct (decide (c' = c)) as [->|Hne].
      * rewrite decide_True by done. rewrite decide_True; [done|by left].
      * rewrite decide_False by (intros ?%byte_val_inj; done).
        rewrite decide_False; [done|].
        intros [?|?]%elem_of_cons; done.
Qed.

Lemma mark_chars_fresh cs chars :
  x00 ∈ chars → Forall (indexes cs) (c_string chars) →
  ∃ map, mark_chars cs chars (replicate 256 0) = Some map ∧
         ∀ c, table_get map (byte_val c)
              = Some (if decide (c ∈ c_string chars) then 1 else 0).
Proof.
  intros Hin Hidx.
  destruct (mark_chars_spec cs chars (replicate 256 0) Hin Hidx)
    as (map & Hrun & _ & Hget); [done|].
  exists map. split; [done|]. intros c. rewrite Hget.
  case_decide; [done|]. unfold table_get.
  pose proof (byte_val_range c). rewrite decide_True by lia.
  apply lookup_replicate_2. lia.
Qed.

(** A character that does not index the table makes the marking loop
    store outside it. *)
Lemma mark_chars_outside cs chars map c :
  c ∈ c_string chars → ¬ indexes cs c → mark_chars cs chars map = None.
Proof.
  revert map. induction chars as [|c' chars IH]; intros map Hin Hidx.
  { by apply elem_of_nil in Hin. }
  simpl in *. case_decide as Hc; [by apply elem_of_nil in Hin|].
  apply elem_of_cons in Hin as [<-|Hin].
  - unfold table_set. unfold indexes in Hidx.
    by rewrite decide_False by lia.
  - destruct (table_set map (int_of_char cs c') 1) as [map'|]; [|done].
    simpl. by apply IH.
Qed.

(** ** Scans *)

Lemma stop_index_nil (P : byte → Prop) `{∀ c, Decision (P c)} :
  stop_index P [] = 0%nat.
Proof. done. Qed.

Lemma stop_index_cons (P : byte → Prop) `{∀ c, Decision (P c)} c w :
  stop_index P (c :: w) = if decide (P c) then 0%nat else S (stop_index P w).
Proof.
  unfold stop_index. simpl. case_decide; [done|].
  by destruct (list_find P w) as [[n x]|].
Qed.

Lemma stop_index_spec (P : byte → Prop) `{∀ c, Decision (P c)} w :
  (stop_index P w ≤ length w)%nat ∧
  Forall (λ c, ¬ P c) (take (stop_index P w) w) ∧
  (∀ c, w !! stop_index P w = Some c → P c).
Proof.
  induction w as [|c w (IH1 & IH2 & IH3)].
  - rewrite stop_index_nil. simpl. split; [done|]. split; [done|]. done.
  - rewrite stop_index_cons. case_decide as HP; simpl.
    + split; [lia|]. split; [done|]. by intros c' [= <-].
    + split; [lia|]. split; [by constructor|]. done.
Qed.

(** The index is determined by what holds before and at it. *)
Lemma stop_index_unique (P : byte → Prop) `{∀ c, Decision (P c)} w n :
  (n ≤ length w)%nat → Forall (λ c, ¬ P c) (take n w) →
  (∀ c, w !! n = Some c → P c) → n = stop_index P w.
Proof.
  revert n. induction w as [|c w IH]; intros n Hn Hbefore Hat.
  - simpl in Hn. rewrite stop_index_nil. lia.
  - rewrite stop_index_cons. destruct n as [|n]; simpl in *.
    + rewrite decide_True; [done|]. by apply Hat.
    + apply Forall_cons in Hbefore as [HP Hbefore].
      rewrite decide_False by done. f_equal. apply IH; [lia|done|done].
Qed.

(** The comparison of the moving pointer with [end], in offsets. *)
Lemma ptr_lt_offset addr size off :
  0 ≤ off → off ≤ distance addr size ∨ off = 0 →
  ptr_add addr off < ptr_add addr size ↔ off < distance addr size.
Proof.
  unfold distance, ptr_add. intros Hoff Hle.
  pose proof (Z.mod_pos_bound (addr + size) (2 ^ 64) ltac:(lia)) as Hend.
  pose proof (Z.mod_pos_bound addr (2 ^ 64) ltac:(lia)) as Ha.
  rewrite Z.add_0_r in *.
  rewrite <- (Zplus_mod_idemp_l addr off).
  destruct Hle as [Hle| ->].
  - rewrite Z.mod_small by lia. lia.
  - rewrite Z.add_0_r, Z.mod_mod by lia. lia.
Qed.

Lemma scan_test unbounded addr size off :
  0 ≤ off → size = unbounded ∨ off ≤ distance addr size ∨ off = 0 →
  size = unbounded ∨ ptr_add addr off < ptr_add addr size
  ↔ size = unbounded ∨ off < distance addr size.
Proof.
  intros Hoff [Hu|Hle]; [tauto|].
  by rewrite (ptr_lt_offset addr size off Hoff Hle).
Qed.

(** Inside the address space the distance is the size. *)
Lemma distance_inside addr size :
  0 ≤ ptr_add addr 0 + size < 2 ^ 64 → distance addr size = size.
Proof.
  unfold distance, ptr_add. rewrite Z.add_0_r. intros Hin.
  rewrite <- (Zplus_mod_idemp_l addr size).
  rewrite (Z.mod_small (addr `mod` 2 ^ 64 + size)) by done. lia.
Qed.

(** A size that takes [s + size] beyond the end of the address space
    leaves [end] below [s]. *)
Lemma distance_wrapped addr size :
  2 ^ 64 ≤ ptr_add addr 0 + size → size < 2 ^ 64 → distance addr size < 0.
Proof.
  unfold distance, ptr_add. rewrite Z.add_0_r. intros Hout Hsz.
  pose proof (Z.mod_pos_bound addr (2 ^ 64) ltac:(lia)) as Ha.
  rewrite <- (Zplus_mod_idemp_l addr size).
  replace (addr `mod` 2 ^ 64 + size)
    with (addr `mod` 2 ^ 64 + size - 2 ^ 64 + 1 * 2 ^ 64) by lia.
  rewrite Z.mod_add by lia. rewrite Z.mod_small by lia. lia.
Qed.

Lemma scanned_wrapped unbounded addr size s :
  size ≠ unbounded → 2 ^ 64 ≤ ptr_add addr 0 + size → size < 2 ^ 64 →
  scanned unbounded addr size s = [].
Proof.
  intros Hne Hout Hsz.
  pose proof (distance_wrapped addr size Hout Hsz) as Hd.
  unfold scanned. rewrite decide_False by done.
  by replace (Z.to_nat (distance addr size)) with 0%nat by lia.
Qed.

Lemma distance_mod addr size :
  distance addr (size `mod` 2 ^ 64) = distance addr size.
Proof. unfold distance, ptr_add. by rewrite Zplus_mod_idemp_r. Qed.

Lemma scanned_inside unbounded addr size s :
  size = unbounded ∨ 0 ≤ ptr_add addr 0 + size < 2 ^ 64 →
  scanned unbounded addr size s = window unbounded size s.
Proof.
  intros Hin. unfold scanned, window. case_decide as Hu; [done|].
  destruct Hin as [?|Hin]; [done|]. by rewrite distance_inside.
Qed.

Lemma strnchrs_loop_spec map (D : list byte) size addr s off :
  (∀ c, table_get map (byte_val c)
        = Some (if decide (c ∈ D) then 1 else 0)) →
  0 ≤ off → size = -1 ∨ off ≤ distance addr size ∨ off = 0 →
  x00 ∈ s ∨ (size ≠ -1 ∧ distance addr size - off ≤ Z.of_nat (length s)) →
  let w := if decide (size = -1) then c_string s
           else c_string (take (Z.to_nat (distance addr size - off)) s) in
  let n := stop_index (λ c, c ∈ D) w in
  rd_strnchrs_loop map size (ptr_add addr size) addr s off
  = Some (bool_decide (n < length w)%nat, off + Z.of_nat n).
Proof.
  intros Hmap. cbv zeta. set (e := distance addr size). revert off.
  induction s as [|c s IH]; intros off Hoff Hinv Hread;
    pose proof (scan_test (-1) addr size off Hoff Hinv) as Htest; fold e in Htest.
  - destruct Hread as [Hin|[Hsz Hlen]]; [by apply elem_of_nil in Hin|].
    simpl in *. rewrite decide_False by (rewrite Htest; lia).
    rewrite decide_False by done.
    rewrite take_nil. simpl. rewrite stop_index_nil. f_equal. f_equal. lia.
  - simpl rd_strnchrs_loop.
    destruct (decide (size = -1 ∨ ptr_add addr off < ptr_add addr size))
      as [Hgo|Hstop].
    + apply Htest in Hgo.
      assert ((if decide (size = -1) then c_string (c :: s)
               else c_string (take (Z.to_nat (e - off)) (c :: s)))
              = if decide (c = x00) then []
                else c :: (if decide (size = -1) then c_string s
                           else c_string (take (Z.to_nat (e - (off + 1))) s)))
        as ->.
      { destruct (decide (size = -1)) as [Hu|Hb]; [done|].
        replace (Z.to_nat (e - off))
          with (S (Z.to_nat (e - (off + 1)))) by lia.
        done. }
      destruct (decide (c = x00)) as [Hc|Hc].
      { rewrite stop_index_nil. simpl. f_equal. f_equal. lia. }
      rewrite Hmap. simpl. rewrite stop_index_cons.
      destruct (decide (c ∈ D)) as [HD|HD].
      * rewrite decide_True by done. simpl. f_equal. f_equal. lia.
      * rewrite decide_False by (intros ?; done).
        rewrite IH; cycle 1.
        { lia. }
        { lia. }
        { destruct Hread as [Hin|[Hsz Hlen]].
          - left. apply elem_of_cons in Hin as [?|?]; [congruence|done].
          - right. split; [done|]. simpl in Hlen. lia. }
        simpl. f_equal. f_equal; [|lia].
        apply bool_decide_ext. lia.
    + rewrite Htest in Hstop.
      assert (size ≠ -1 ∧ e ≤ off) as [Hb Hle] by lia.
      rewrite decide_False by done.
      replace (Z.to_nat (e - off)) with 0%nat by lia.
      simpl. rewrite stop_index_nil. simpl. f_equal. f_equal. lia.
Qed.

Lemma strnspn_map_loop_spec cs map (D : list byte) size addr accept s off cnt :
  (∀ c, table_get map (byte_val c)
        = Some (if decide (c ∈ D) then 1 else 0)) →
  0 ≤ off → size = SIZE_MAX ∨ off ≤ distance addr size ∨ off = 0 →
  x00 ∈ s ∨ (size ≠ SIZE_MAX ∧
             distance addr size - off ≤ Z.of_nat (length s)) →
  let w := if decide (size = SIZE_MAX) then c_string s
           else c_string (take (Z.to_nat (distance addr size - off)) s) in
  Forall (indexes cs) w →
  0 ≤ cnt → cnt + Z.of_nat (length w) ≤ INT_MAX →
  rd_strnspn_map_loop cs size (ptr_add addr size) addr accept map s off cnt
  = Some (cnt + Z.of_nat
            (stop_index (λ c, (if decide (c ∈ D) then 1 else 0) ≠ accept) w)).
Proof.
  intros Hmap Hoff Hinv Hread w. subst w. set (e := distance addr size).
  revert off cnt Hoff Hinv Hread.
  induction s as [|c s IH]; intros off cnt Hoff Hinv Hread Hidx Hcnt Hmax;
    pose proof (scan_test SIZE_MAX addr size off Hoff Hinv) as Htest;
    fold e in Htest.
  - destruct Hread as [Hin|[Hsz Hlen]]; [by apply elem_of_nil in Hin|].
    simpl in *. rewrite decide_False by (rewrite Htest; lia).
    rewrite decide_False by done.
    rewrite take_nil. simpl. rewrite stop_index_nil. f_equal. lia.
  - simpl rd_strnspn_map_loop.
    destruct (decide (size = SIZE_MAX
                      ∨ ptr_add addr off < ptr_add addr size))
      as [Hgo|Hstop].
    + apply Htest in Hgo.
      assert ((if decide (size = SIZE_MAX) then c_string (c :: s)
               else c_string (take (Z.to_nat (e - off)) (c :: s)))
              = if decide (c = x00) then []
                else c :: (if decide (size = SIZE_MAX) then c_string s
                           else c_string
                                  (take (Z.to_nat (e - (off + 1))) s)))
        as Hw.
      { destruct (decide (size = SIZE_MAX)) as [Hu|Hb]; [done|].
        replace (Z.to_nat (e - off))
          with (S (Z.to_nat (e - (off + 1)))) by lia.
        done. }
      rewrite Hw in *. clear Hw.
      destruct (decide (c = x00)) as [Hc|Hc].
      { rewrite stop_index_nil. simpl. f_equal. lia. }
      apply Forall_cons in Hidx as [Hidxc Hidx].
      rewrite (int_of_char_indexes _ _ Hidxc), Hmap. simpl.
      rewrite stop_index_cons.
      destruct (decide ((if decide (c ∈ D) then 1 else 0) ≠ accept))
        as [Hne|Heq].
      * f_equal. lia.
      * simpl length in Hmax.
        unfold int_add. rewrite int_wrap_small by (unfold INT_MAX in *; lia).
        rewrite IH; cycle 1.
        { lia. }
        { lia. }
        { destruct Hread as [Hin|[Hsz Hlen]].
          - left. apply elem_of_cons in Hin as [?|?]; [congruence|done].
          - right. split; [done|]. simpl in Hlen. lia. }
        { done. }
        { lia. }
        { lia. }
        f_equal. lia.
    + rewrite Htest in Hstop.
      assert (size ≠ SIZE_MAX ∧ e ≤ off) as [Hb Hle] by lia.
      rewrite decide_False by done.
      replace (Z.to_nat (e - off)) with 0%nat by lia.
      simpl. rewrite stop_index_nil. f_equal. lia.
Qed.

Lemma scanned_start unbounded addr size s :
  scanned unbounded addr size s
  = if decide (size = unbounded) then c_string s
    else c_string (take (Z.to_nat (distance addr size - 0)) s).
Proof. unfold scanned. by rewrite Z.sub_0_r. Qed.

Lemma in_object_start unbounded addr size s :
  in_object unbounded addr size s →
  x00 ∈ s ∨ (size ≠ unbounded ∧
             distance addr size - 0 ≤ Z.of_nat (length s)).
Proof. unfold in_object. by rewrite Z.sub_0_r. Qed.

Lemma rd_strnchrs_stop cs addr s size delimiters match_eol :
  x00 ∈ delimiters → Forall (indexes cs) (c_string delimiters) →
  in_object (-1) addr size s →
  let w := scanned (-1) addr size s in
  let n := stop_index (λ c, c ∈ c_string delimiters) w in
  rd_strnchrs cs addr s size delimiters match_eol
  = Some (if decide ((n < length w)%nat ∨ match_eol ≠ 0)
          then Some (Z.of_nat n) else None).
Proof.
  intros Hterm Hidx Hread. cbv zeta.
  destruct (mark_chars_fresh cs delimiters Hterm Hidx) as (map & Hmark & Hget).
  unfold rd_strnchrs. rewrite Hmark. simpl.
  rewrite (strnchrs_loop_spec map (c_string delimiters) size addr s 0 Hget
             ltac:(done) ltac:(by do 2 right)
             (in_object_start _ _ _ _ Hread)).
  rewrite <- scanned_start. simpl. rewrite Z.add_0_l.
  case_bool_decide as Hlt.
  - rewrite decide_True; [done|by left].
  - destruct (decide (match_eol ≠ 0)) as [Hm|Hm].
    + rewrite decide_True; [done|by right].
    + rewrite decide_False; [done|]. intros [?|?]; done.
Qed.

Lemma rd_strnspn_map_stop cs addr s size accept map (D : list byte) :
  (∀ c, table_get map (byte_val c)
        = Some (if decide (c ∈ D) then 1 else 0)) →
  in_object SIZE_MAX addr size s →
  let w := scanned SIZE_MAX addr size s in
  Forall (indexes cs) w → Z.of_nat (length w) ≤ INT_MAX →
  rd_strnspn_map cs addr s size accept map
  = Some (Z.of_nat
            (stop_index (λ c, (if decide (c ∈ D) then 1 else 0) ≠ accept) w)).
Proof.
  intros Hget Hread w Hidx Hmax. subst w. unfold rd_strnspn_map.
  rewrite scanned_start in *.
  rewrite (strnspn_map_loop_spec cs map D size addr accept s 0 0 Hget
             ltac:(done) ltac:(by do 2 right)
             (in_object_start _ _ _ _ Hread) Hidx); [|done|lia].
  simpl. rewrite Z.add_0_l. rewrite size_t_of_int_small; [done|].
  match goal with |- context [stop_index ?P ?w] =>
    pose proof (stop_index_spec P w) as [Hle _] end.
  lia.
Qed.

(** X1: with a terminated set of delimiters that all index the table,
    [rd_strnchrs] returns the offset of the first character of the scanned
    part of [s] that is a delimiter; when there is none it returns the
    offset where the scan ended if [match_eol] is set, and [NULL] if not.
    The scanned part is the string up to its terminator, for a [size]
    other than -1 within the bytes below [end = s + size], a pointer that
    the code computes and compares as an address: it is [size] bytes away
    when the sum stays inside the address space, and below [s], so that
    nothing is scanned, or far above it when the sum leaves it.  The
    characters of [s] themselves may have any value. *)
Theorem strnchrs_first_delimiter cs addr s size delimiters match_eol :
  x00 ∈ delimiters → Forall (indexes cs) (c_string delimiters) →
  in_object (-1) addr size s →
  ∃ n : nat,
    (n ≤ length (scanned (-1) addr size s))%nat ∧
    Forall (λ c, c ∉ c_string delimiters)
      (take n (scanned (-1) addr size s)) ∧
    (∀ c, scanned (-1) addr size s !! n = Some c →
          c ∈ c_string delimiters) ∧
    rd_strnchrs cs addr s size delimiters match_eol
    = Some (if decide ((n < length (scanned (-1) addr size s))%nat
                       ∨ match_eol ≠ 0)
            then Some (Z.of_nat n) else None) ∧
    (size = -1 ∨ 0 ≤ ptr_add addr 0 + size < 2 ^ 64 →
     scanned (-1) addr size s = window (-1) size s).
Proof.
  intros Hterm Hidx Hread.
  exists (stop_index (λ c, c ∈ c_string delimiters)
            (scanned (-1) addr size s)).
  destruct (stop_index_spec (λ c, c ∈ c_string delimiters)
              (scanned (-1) addr size s)) as (Hle & Hbefore & Hat).
  do 3 (split; [done|]). split; [by apply rd_strnchrs_stop|].
  apply scanned_inside.
Qed.

Lemma strnchrs_first_delimiter_witness :
  (x00 ∈ vowels ∧ Forall (indexes true) (c_string vowels) ∧
   in_object (-1) 4096 8 hello_world) ∧
  ∃ n : nat,
    (n ≤ length (scanned (-1) 4096 8 hello_world))%nat ∧
    Forall (λ c, c ∉ c_string vowels)
      (take n (scanned (-1) 4096 8 hello_world)) ∧
    (∀ c, scanned (-1) 4096 8 hello_world !! n = Some c →
          c ∈ c_string vowels) ∧
    rd_strnchrs true 4096 hello_world 8 vowels 0
    = Some (if decide ((n < length (scanned (-1) 4096 8 hello_world))%nat
                       ∨ 0 ≠ 0)
            then Some (Z.of_nat n) else None) ∧
    (8 = -1 ∨ 0 ≤ ptr_add 4096 0 + 8 < 2 ^ 64 →
     scanned (-1) 4096 8 hello_world = window (-1) 8 hello_world).
Proof.
  assert (x00 ∈ vowels) as H1
    by (apply (bool_decide_unpack _); vm_compute; exact I).
  assert (Forall (indexes true) (c_string vowels)) as H2
    by (apply (bool_decide_unpack _); vm_compute; exact I).
  assert (in_object (-1) 4096 8 hello_world) as H3
    by (apply (bool_decide_unpack _); vm_compute; exact I).
  split; [done|].
  exact (strnchrs_first_delimiter true 4096 hello_world 8 vowels 0 H1 H2 H3).
Defined.

(** X2: [rd_strnspn] returns the length of the longest prefix of the
    scanned part of [s] made of characters of [accept]: every character
    before the returned index is in [accept], the one at it, if any, is
    not.  The scanned part is the string up to its terminator, for a
    [size] other than [(size_t) -1] within the bytes below
    [end = s + size]: [size] bytes when the sum stays inside the address
    space, none when it leaves it. *)
Theorem strnspn_accepted_prefix cs addr s size accept :
  x00 ∈ accept → Forall (indexes cs) (c_string accept) →
  in_object SIZE_MAX addr size s →
  Forall (indexes cs) (scanned SIZE_MAX addr size s) →
  Z.of_nat (length (scanned SIZE_MAX addr size s)) ≤ INT_MAX →
  ∃ n : nat,
    rd_strnspn cs addr s size accept = Some (Z.of_nat n) ∧
    (n ≤ length (scanned SIZE_MAX addr size s))%nat ∧
    Forall (λ c, c ∈ c_string accept)
      (take n (scanned SIZE_MAX addr size s)) ∧
    (∀ c, scanned SIZE_MAX addr size s !! n = Some c →
          c ∉ c_string accept) ∧
    (size = SIZE_MAX ∨ 0 ≤ ptr_add addr 0 + size < 2 ^ 64 →
     scanned SIZE_MAX addr size s = window SIZE_MAX size s) ∧
    (2 ^ 64 ≤ ptr_add addr 0 + size → size < SIZE_MAX → n = 0%nat).
Proof.
  intros Hterm Hidx Hread Hidxs Hmax.
  destruct (mark_chars_fresh cs accept Hterm Hidx) as (map & Hmark & Hget).
  unfold rd_strnspn. rewrite Hmark. simpl.
  rewrite (rd_strnspn_map_stop cs addr s size 1 map (c_string accept)
             Hget Hread Hidxs Hmax).
  eexists. split; [done|].
  match goal with |- context [stop_index ?P ?w] =>
    destruct (stop_index_spec P w) as (Hle & Hbefore & Hat) end.
  split; [done|]. split; [|split; [|split]].
  - eapply Forall_impl; [exact Hbefore|]. intros c Hc. simpl in Hc.
    destruct (decide (c ∈ c_string accept)); [done|]. by destruct Hc.
  - intros c Hc. specialize (Hat c Hc). simpl in Hat.
    destruct (decide (c ∈ c_string accept)); done.
  - apply scanned_inside.
  - intros Hout Hsz.
    rewrite scanned_wrapped by (unfold SIZE_MAX in *; lia).
    apply stop_index_nil.
Qed.

Lemma strnspn_accepted_prefix_witness :
  (x00 ∈ hello ∧ Forall (indexes true) (c_string hello) ∧
   in_object SIZE_MAX 4096 8 hello_world ∧
   Forall (indexes true) (scanned SIZE_MAX 4096 8 hello_world) ∧
   Z.of_nat (length (scanned SIZE_MAX 4096 8 hello_world)) ≤ INT_MAX) ∧
  ∃ n : nat,
    rd_strnspn true 4096 hello_world 8 hello = Some (Z.of_nat n) ∧
    (n ≤ length (scanned SIZE_MAX 4096 8 hello_world))%nat ∧
    Forall (λ c, c ∈ c_string hello)
      (take n (scanned SIZE_MAX 4096 8 hello_world)) ∧
    (∀ c, scanned SIZE_MAX 4096 8 hello_world !! n = Some c →
          c ∉ c_string hello).
Proof.
  assert (x00 ∈ hello) as H1
    by (apply (bool_decide_unpack _); vm_compute; exact I).
  assert (Forall (indexes true) (c_string hello)) as H2
    by (apply (bool_decide_unpack _); vm_compute; exact I).
  assert (in_object SIZE_MAX 4096 8 hello_world) as H3
    by (apply (bool_decide_unpack _); vm_compute; exact I).
  assert (Forall (indexes true) (scanned SIZE_MAX 4096 8 hello_world)) as H4
    by (apply (bool_decide_unpack _); vm_compute; exact I).
  assert (Z.of_nat (length (scanned SIZE_MAX 4096 8 hello_world)) ≤ INT_MAX)
    as H5 by (vm_compute; congruence).
  split; [done|].
  destruct (strnspn_accepted_prefix true 4096 hello_world 8 hello
              H1 H2 H3 H4 H5) as (n & Hrun & Hle & Hbefore & Hat & _).
  exists n. split; [exact Hrun|]. split; [exact Hle|].
  split; [exact Hbefore|exact Hat].
Defined.

(** X3: [rd_strncspn] returns the length of the longest prefix of the
    scanned part of [s] free of characters of [reject]: no character
    before the returned index is in [reject], the one at it, if any, is.
    The scanned part is as for [rd_strnspn]. *)
Theorem strncspn_rejected_prefix cs addr s size reject :
  x00 ∈ reject → Forall (indexes cs) (c_string reject) →
  in_object SIZE_MAX addr size s →
  Forall (indexes cs) (scanned SIZE_MAX addr size s) →
  Z.of_nat (length (scanned SIZE_MAX addr size s)) ≤ INT_MAX →
  ∃ n : nat,
    rd_strncspn cs addr s size reject = Some (Z.of_nat n) ∧
    (n ≤ length (scanned SIZE_MAX addr size s))%nat ∧
    Forall (λ c, c ∉ c_string reject)
      (take n (scanned SIZE_MAX addr size s)) ∧
    (∀ c, scanned SIZE_MAX addr size s !! n = Some c →
          c ∈ c_string reject) ∧
    (size = SIZE_MAX ∨ 0 ≤ ptr_add addr 0 + size < 2 ^ 64 →
     scanned SIZE_MAX addr size s = window SIZE_MAX size s) ∧
    (2 ^ 64 ≤ ptr_add addr 0 + size → size < SIZE_MAX → n = 0%nat).
Proof.
  intros Hterm Hidx Hread Hidxs Hmax.
  destruct (mark_chars_fresh cs reject Hterm Hidx) as (map & Hmark & Hget).
  unfold rd_strncspn. rewrite Hmark. simpl.
  rewrite (rd_strnspn_map_stop cs addr s size 0 map (c_string reject)
             Hget Hread Hidxs Hmax).
  eexists. split; [done|].
  match goal with |- context [stop_index ?P ?w] =>
    destruct (stop_index_spec P w) as (Hle & Hbefore & Hat) end.
  split; [done|]. split; [|split; [|split]].
  - eapply Forall_impl; [exact Hbefore|]. intros c Hc. simpl in Hc.
    destruct (decide (c ∈ c_string reject)); [|done]. by destruct Hc.
  - intros c Hc. specialize (Hat c Hc). simpl in Hat.
    destruct (decide (c ∈ c_string reject)); done.
  - apply scanned_inside.
  - intros Hout Hsz.
    rewrite scanned_wrapped by (unfold SIZE_MAX in *; lia).
    apply stop_index_nil.
Qed.

Lemma strncspn_rejected_prefix_witness :
  (x00 ∈ vowels ∧ Forall (indexes false) (c_string vowels) ∧
   in_object SIZE_MAX 4096 11 hello_world ∧
   Forall (indexes false) (scanned SIZE_MAX 4096 11 hello_world) ∧
   Z.of_nat (length (scanned SIZE_MAX 4096 11 hello_world)) ≤ INT_MAX) ∧
  ∃ n : nat,
    rd_strncspn false 4096 hello_world 11 vowels = Some (Z.of_nat n) ∧
    (n ≤ length (scanned SIZE_MAX 4096 11 hello_world))%nat ∧
    Forall (λ c, c ∉ c_string vowels)
      (take n (scanned SIZE_MAX 4096 11 hello_world)) ∧
    (∀ c, scanned SIZE_MAX 4096 11 hello_world !! n = Some c →
          c ∈ c_string vowels).
Proof.
  assert (x00 ∈ vowels) as H1
    by (apply (bool_decide_unpack _); vm_compute; exact I).
  assert (Forall (indexes false) (c_string vowels)) as H2
    by (apply (bool_decide_unpack _); vm_compute; exact I).
  assert (in_object SIZE_MAX 4096 11 hello_world) as H3
    by (apply (bool_decide_unpack _); vm_compute; exact I).
  assert (Forall (indexes false) (scanned SIZE_MAX 4096 11 hello_world))
    as H4 by (apply (bool_decide_unpack _); vm_compute; exact I).
  assert (Z.of_nat (length (scanned SIZE_MAX 4096 11 hello_world))
          ≤ INT_MAX) as H5 by (vm_compute; congruence).
  split; [done|].
  destruct (strncspn_rejected_prefix false 4096 hello_world 11 vowels
              H1 H2 H3 H4 H5) as (n & Hrun & Hle & Hbefore & Hat & _).
  exists n. split; [exact Hrun|]. split; [exact Hle|].
  split; [exact Hbefore|exact Hat].
Defined.

(** The two scans at sizes that take [s + size] out of the address space,
    on a string at the address 4096: [rd_strnchrs] with the size -2^63
    finds [end] above [s] and scans, the other two with the size 2^64 - 2
    find it below [s] and scan nothing. *)
Example scans_beyond_address_space :
  rd_strnchrs true 4096 hello_world (- 2 ^ 63) vowels 0 = Some (Some 1) ∧
  rd_strnspn true 4096 hello_world (2 ^ 64 - 2) hello = Some 0 ∧
  rd_strncspn true 4096 hello_world (2 ^ 64 - 2) vowels = Some 0 ∧
  rd_strnspn true 4096 hello_world 8 hello = Some 5 ∧
  rd_strncspn true 4096 hello_world 8 vowels = Some 1.
Proof. vm_compute. done. Qed.

(** Under a signed size from -1 upwards, the scanned part is the window
    of that size, or nothing. *)
Lemma scanned_ssize addr size s :
  -1 ≤ size < 2 ^ 63 →
  scanned SIZE_MAX addr (size `mod` 2 ^ 64) s = scanned (-1) addr size s ∧
  (scanned (-1) addr size s = window (-1) size s ∨
   (scanned (-1) addr size s = [] ∧ size ≠ -1 ∧ distance addr size ≤ 0)).
Proof.
  intros Hsz. split.
  - unfold scanned, SIZE_MAX. rewrite distance_mod.
    destruct (decide (size = -1)) as [->|Hne].
    + by rewrite decide_True by done.
    + rewrite Z.mod_small by lia. by rewrite decide_False by lia.
  - pose proof (Z.mod_pos_bound addr (2 ^ 64) ltac:(lia)) as Ha.
    destruct (decide (size = -1 ∨ ptr_add addr 0 + size < 2 ^ 64))
      as [Hin|Hout].
    + left. apply scanned_inside. unfold ptr_add in *.
      rewrite Z.add_0_r in *. lia.
    + right. unfold ptr_add in Hout. rewrite Z.add_0_r in Hout.
      assert (distance addr size < 0) as Hd.
      { apply distance_wrapped; [|lia]. unfold ptr_add.
        rewrite Z.add_0_r. lia. }
      unfold scanned. rewrite decide_False by lia.
      replace (Z.to_nat (distance addr size)) with 0%nat by lia.
      split; [done|]. lia.
Qed.

(** X4: with [match_eol] set, [rd_strnchrs] returns [s] advanced by what
    [rd_strncspn] returns for the same string, bound and set, the bound
    converted to [size_t]; this at every address of [s]. *)
Theorem strnchrs_eol_strncspn cs addr s size delimiters match_eol :
  match_eol ≠ 0 → -1 ≤ size < 2 ^ 63 →
  x00 ∈ delimiters → Forall (indexes cs) (c_string delimiters) →
  readable (-1) size s →
  Forall (indexes cs) (window (-1) size s) →
  Z.of_nat (length (window (-1) size s)) ≤ INT_MAX →
  ∃ n, rd_strncspn cs addr s (size `mod` 2 ^ 64) delimiters = Some n ∧
       rd_strnchrs cs addr s size delimiters match_eol = Some (Some n).
Proof.
  intros Hm Hsz Hterm Hidx Hread Hidxs Hmax.
  destruct (scanned_ssize addr size s Hsz) as [Hconv Hcase].
  assert (in_object (-1) addr size s ∧
          Forall (indexes cs) (scanned (-1) addr size s) ∧
          Z.of_nat (length (scanned (-1) addr size s)) ≤ INT_MAX)
    as (Hread' & Hidxs' & Hmax').
  { destruct Hcase as [Heq|(Heq & Hne & Hd)]; rewrite Heq.
    - split; [|done]. unfold in_object, readable in *.
      destruct Hread as [?|[Hne Hlen]]; [by left|right].
      split; [done|].
      unfold scanned, window in Heq. rewrite !decide_False in Heq by done.
      destruct (decide (0 ≤ ptr_add addr 0 + size < 2 ^ 64)) as [Hin|Hout].
      + by rewrite distance_inside.
      + pose proof (Z.mod_pos_bound addr (2 ^ 64) ltac:(lia)) as Ha.
        unfold ptr_add in Hout. rewrite Z.add_0_r in Hout.
        assert (distance addr size < 0); [|lia].
        apply distance_wrapped; [|lia]. unfold ptr_add.
        rewrite Z.add_0_r. lia.
    - split; [|split; [done|simpl; unfold INT_MAX; lia]].
      right. split; [done|lia]. }
  destruct (mark_chars_fresh cs delimiters Hterm Hidx) as (map & Hmark & Hget).
  rewrite (rd_strnchrs_stop cs addr s size delimiters match_eol
             Hterm Hidx Hread').
  rewrite decide_True by (by right).
  unfold rd_strncspn. rewrite Hmark. simpl.
  rewrite (rd_strnspn_map_stop cs addr s _ 0 map (c_string delimiters) Hget);
    rewrite ?Hconv; try done.
  - eexists. split; [done|]. do 3 f_equal.
    destruct (stop_index_spec (λ c, c ∈ c_string delimiters)
                (scanned (-1) addr size s)) as (Hle & Hbefore & Hat).
    apply stop_index_unique; [done| |].
    + eapply Forall_impl; [exact Hbefore|]. intros c Hc. simpl.
      rewrite decide_False by done. intros Hne. by apply Hne.
    + intros c Hc. specialize (Hat c Hc). simpl in *.
      by rewrite decide_True by done.
  - unfold in_object in *. unfold SIZE_MAX. rewrite distance_mod.
    destruct Hread' as [?|[Hne Hlen]]; [by left|right].
    rewrite Z.mod_small by lia. split; [lia|done].
Qed.

Lemma strnchrs_eol_strncspn_witness :
  (1 ≠ 0 ∧ -1 ≤ 8 < 2 ^ 63 ∧ x00 ∈ vowels ∧
   Forall (indexes true) (c_string vowels) ∧
   readable (-1) 8 hello_world ∧
   Forall (indexes true) (window (-1) 8 hello_world) ∧
   Z.of_nat (length (window (-1) 8 hello_world)) ≤ INT_MAX) ∧
  ∃ n, rd_strncspn true 4096 hello_world (8 `mod` 2 ^ 64) vowels = Some n ∧
       rd_strnchrs true 4096 hello_world 8 vowels 1 = Some (Some n).
Proof.
  assert (1 ≠ 0) as H0 by lia.
  assert (-1 ≤ 8 < 2 ^ 63) as Hs by lia.
  assert (x00 ∈ vowels) as H1
    by (apply (bool_decide_unpack _); vm_compute; exact I).
  assert (Forall (indexes true) (c_string vowels)) as H2
    by (apply (bool_decide_unpack _); vm_compute; exact I).
  assert (readable (-1) 8 hello_world) as H3
    by (apply (bool_decide_unpack _); vm_compute; exact I).
  assert (Forall (indexes true) (window (-1) 8 hello_world)) as H4
    by (apply (bool_decide_unpack _); vm_compute; exact I).
  assert (Z.of_nat (length (window (-1) 8 hello_world)) ≤ INT_MAX) as H5
    by (vm_compute; congruence).
  split; [done|].
  exact (strnchrs_eol_strncspn true 4096 hello_world 8 vowels 1
           H0 Hs H1 H2 H3 H4 H5).
Defined.

(** X5: where [char] is signed, a character of 128 or more in the set
    makes all three functions store before their table: the index
    [(int) *delimiters] is negative. *)
Theorem high_character_in_set addr s size chars match_eol c :
  c ∈ c_string chars → 128 ≤ byte_val c →
  rd_strnchrs true addr s size chars match_eol = None ∧
  rd_strnspn true addr s size chars = None ∧
  rd_strncspn true addr s size chars = None.
Proof.
  intros Hin Hhigh.
  assert (mark_chars true chars (replicate 256 0) = None) as Hmark.
  { apply (mark_chars_outside true chars _ c Hin).
    rewrite indexes_signed. lia. }
  unfold rd_strnchrs, rd_strnspn, rd_strncspn. by rewrite Hmark.
Qed.

Lemma high_character_in_set_witness :
  (xe9 ∈ c_string [xe9; x00] ∧ 128 ≤ byte_val xe9) ∧
  rd_strnchrs true 4096 hello (-1) [xe9; x00] 0 = None ∧
  rd_strnspn true 4096 hello SIZE_MAX [xe9; x00] = None ∧
  rd_strncspn true 4096 hello SIZE_MAX [xe9; x00] = None.
Proof.
  assert (xe9 ∈ c_string [xe9; x00]) as H1
    by (apply (bool_decide_unpack _); vm_compute; exact I).
  assert (128 ≤ byte_val xe9) as H2 by (vm_compute; congruence).
  split; [done|].
  exact (high_character_in_set 4096 hello (-1) [xe9; x00] 0 xe9 H1 H2).
Defined.

(** The loop of [rd_strnspn_map] reaches every character that follows
    characters it continues on. *)
Lemma strnspn_map_loop_outside cs map size addr accept pre c rest off cnt :
  Forall (λ c', c' ≠ x00 ∧
                table_get map (int_of_char cs c') = Some accept) pre →
  c ≠ x00 → ¬ indexes cs c →
  0 ≤ off →
  size = SIZE_MAX ∨ off + Z.of_nat (length pre) < distance addr size →
  rd_strnspn_map_loop cs size (ptr_add addr size) addr accept map
    (pre ++ c :: rest) off cnt = None.
Proof.
  intros Hpre Hc Hidx. revert off cnt.
  induction Hpre as [|c' pre [Hc' Hget] Hpre IH]; intros off cnt Hoff Hsz;
    pose proof (scan_test SIZE_MAX addr size off Hoff ltac:(simpl in *; lia))
      as Htest.
  - simpl in *. rewrite decide_True by (rewrite Htest; lia).
    rewrite decide_False by done.
    unfold table_get. unfold indexes in Hidx. by rewrite decide_False by lia.
  - simpl in *. rewrite decide_True by (rewrite Htest; lia).
    rewrite decide_False by done.
    rewrite Hget. simpl. rewrite decide_False by (intros ?; done).
    apply IH; lia.
Qed.

(** X6: where [char] is signed, [rd_strnspn_map] indexes its table by
    [(int) *s]: on a string in which a character of 128 or more follows
    only characters the scan continues on, within the bound, it reads
    before the table.  This where the scan is unbounded or [s + size]
    stays inside the address space; where the sum leaves it, [end] is
    below [s], nothing is scanned and the function returns 0.
    [rd_strnchrs] indexes by [(unsigned char) *s] and has no such case. *)
Theorem high_character_in_string addr map size accept pre c rest :
  Forall (λ c', c' ≠ x00 ∧
                table_get map (int_of_char true c') = Some accept) pre →
  128 ≤ byte_val c →
  size = SIZE_MAX ∨ Z.of_nat (length pre) < size →
  (size = SIZE_MAX ∨ ptr_add addr 0 + size < 2 ^ 64 →
   rd_strnspn_map true addr (pre ++ c :: rest) size accept map = None) ∧
  (2 ^ 64 ≤ ptr_add addr 0 + size → size < SIZE_MAX →
   rd_strnspn_map true addr (pre ++ c :: rest) size accept map = Some 0).
Proof.
  intros Hpre Hhigh Hsz.
  pose proof (Z.mod_pos_bound addr (2 ^ 64) ltac:(lia)) as Ha.
  split.
  - intros Hin. unfold rd_strnspn_map. cbv zeta.
    rewrite (strnspn_map_loop_outside true map size addr accept pre c rest
               0 0); [done|done| | |done|].
    + intros ->. vm_compute in Hhigh. congruence.
    + rewrite indexes_signed. lia.
    + destruct (decide (size = SIZE_MAX)) as [?|Hne]; [by left|right].
      rewrite distance_inside; [lia|].
      unfold ptr_add in *. rewrite Z.add_0_r in *. lia.
  - intros Hout Hlt. unfold SIZE_MAX in *.
    pose proof (distance_wrapped addr size Hout ltac:(lia)) as Hd.
    unfold rd_strnspn_map. cbv zeta.
    assert (rd_strnspn_map_loop true size (ptr_add addr size) addr accept
              map (pre ++ c :: rest) 0 0 = Some 0) as ->; [|done].
    pose proof (scan_test (2 ^ 64 - 1) addr size 0 ltac:(done)
                  ltac:(by do 2 right)) as Htest.
    destruct (pre ++ c :: rest); simpl;
      by rewrite decide_False by (unfold SIZE_MAX; rewrite Htest; lia).
Qed.

Lemma high_character_in_string_witness :
  (Forall (λ c', c' ≠ x00 ∧
                 table_get (<[104%nat := 1]> (replicate 256 0))
                   (int_of_char true c') = Some 1) [x68] ∧
   128 ≤ byte_val xe9 ∧
   (2 = SIZE_MAX ∨ Z.of_nat (length [x68]) < 2)) ∧
  (2 = SIZE_MAX ∨ ptr_add 4096 0 + 2 < 2 ^ 64) ∧
  rd_strnspn_map true 4096 ([x68] ++ xe9 :: [x00]) 2 1
    (<[104%nat := 1]> (replicate 256 0)) = None.
Proof.
  assert (Forall (λ c', c' ≠ x00 ∧
                        table_get (<[104%nat := 1]> (replicate 256 0))
                          (int_of_char true c') = Some 1) [x68]) as H1.
  { constructor; [|constructor]. split; [congruence|vm_compute; reflexivity]. }
  assert (128 ≤ byte_val xe9) as H2 by (vm_compute; congruence).
  assert (2 = SIZE_MAX ∨ Z.of_nat (length [x68]) < 2) as H3
    by (right; simpl; lia).
  assert (2 = SIZE_MAX ∨ ptr_add 4096 0 + 2 < 2 ^ 64) as H4
    by (right; vm_compute; reflexivity).
  split; [done|]. split; [done|].
  exact (proj1 (high_character_in_string 4096 _ 2 1 [x68] xe9 [x00]
                  H1 H2 H3) H4).
Defined.

(** ** Comparisons *)

Lemma take_eq_lookup (a b : list byte) n :
  (n ≤ length a)%nat → (n ≤ length b)%nat →
  (∀ j, (j < n)%nat → a !! j = b !! j) → take n a = take n b.
Proof.
  intros Ha Hb Heq. apply list_eq. intros j.
  destruct (decide (j < n)%nat) as [Hj|Hj].
  - rewrite !lookup_take_lt by done. by apply Heq.
  - rewrite !lookup_take_ge by lia. done.
Qed.

Lemma take_eq_lookup_inv (a b : list byte) n j :
  take n a = take n b → (j < n)%nat → a !! j = b !! j.
Proof.
  intros Heq Hj.
  rewrite <- (lookup_take_lt a n j), <- (lookup_take_lt b n j) by done.
  by rewrite Heq.
Qed.

Lemma first_difference_unique a b r r' :
  first_difference a b r → first_difference a b r' → r = r'.
Proof.
  intros [[-> Hab]|(n & -> & Hn & Hdn)] [[-> Hab']|(m & -> & Hm & Hdm)].
  - done.
  - subst. done.
  - subst. done.
  - f_equal. destruct (Nat.lt_trichotomy n m) as [Hlt|[->|Hlt]]; [|done|].
    + destruct Hdn. by apply (take_eq_lookup_inv _ _ m).
    + destruct Hdm. by apply (take_eq_lookup_inv _ _ n).
Qed.

Lemma first_difference_equal a b r :
  first_difference a b r → (r = -1 ↔ a = b).
Proof.
  intros [[-> Hab]|(n & -> & Hn & Hdn)]; [done|].
  split; [lia|]. intros ->. done.
Qed.

Lemma first_difference_sym a b r :
  first_difference a b r → first_difference b a r.
Proof.
  intros [[-> Hab]|(n & -> & Hn & Hdn)]; [by left|].
  right. exists n. done.
Qed.

Lemma strndiffpos_loop_spec s1 s2 todo (p : nat) :
  (p + todo ≤ length s1)%nat → (p + todo ≤ length s2)%nat →
  ∃ r, rd_strndiffpos_loop s1 s2 todo (Z.of_nat p) = Some r ∧
       match r with
       | None => ∀ j, (p ≤ j < p + todo)%nat → s1 !! j = s2 !! j
       | Some q =>
           ∃ n : nat, q = Z.of_nat n ∧ (p ≤ n < p + todo)%nat ∧
                      s1 !! n ≠ s2 !! n ∧
                      ∀ j, (p ≤ j < n)%nat → s1 !! j = s2 !! j
       end.
Proof.
  revert p. induction todo as [|todo IH]; intros p H1 H2.
  - exists None. split; [done|]. intros j Hj. lia.
  - simpl. rewrite Nat2Z.id.
    destruct (lookup_lt_is_Some_2 s1 p) as [c1 Hc1]; [lia|].
    destruct (lookup_lt_is_Some_2 s2 p) as [c2 Hc2]; [lia|].
    rewrite Hc1, Hc2. simpl. case_decide as Hne.
    + exists (Some (Z.of_nat p)). split; [done|]. exists p.
      split; [done|]. split; [lia|]. split; [congruence|]. intros j Hj. lia.
    + assert (c1 = c2) as -> by (destruct (decide (c1 = c2)); done).
      replace (Z.of_nat p + 1) with (Z.of_nat (S p)) by lia.
      destruct (IH (S p)) as (r & Hrun & Hr); [lia|lia|].
      exists r. split; [done|]. destruct r as [q|].
      * destruct Hr as (n & -> & Hn & Hd & Hbefore). exists n.
        split; [done|]. split; [lia|]. split; [done|]. intros j Hj.
        destruct (decide (j = p)) as [->|?]; [congruence|].
        apply Hbefore. lia.
      * intros j Hj. destruct (decide (j = p)) as [->|?]; [congruence|].
        apply Hr. lia.
Qed.

Lemma rd_strndiffpos_first_difference RD_MIN s1 size1 s2 size2 :
  (∀ a b, RD_MIN a b = Z.min a b) →
  0 ≤ size1 ≤ Z.of_nat (length s1) → 0 ≤ size2 ≤ Z.of_nat (length s2) →
  size1 < 2 ^ 63 → size2 < 2 ^ 63 →
  ∃ r, rd_strndiffpos RD_MIN s1 size1 s2 size2 = Some r ∧
       -1 ≤ r ≤ Z.min size1 size2 ∧
       first_difference (take (Z.to_nat size1) s1) (take (Z.to_nat size2) s2) r.
Proof.
  intros Hmin H1 H2 Hs1 Hs2. unfold rd_strndiffpos. rewrite Hmin.
  set (m := Z.to_nat (Z.min size1 size2)).
  destruct (strndiffpos_loop_spec s1 s2 m 0) as (r & Hrun & Hr); [lia|lia|].
  change (Z.of_nat 0) with 0 in Hrun. rewrite Hrun. simpl.
  destruct r as [q|].
  - destruct Hr as (n & -> & Hn & Hd & Hbefore).
    exists (Z.of_nat n). split; [done|]. split; [lia|].
    right. exists n. split; [done|]. split.
    + rewrite !take_take.
      replace (n `min` Z.to_nat size1)%nat with n by lia.
      replace (n `min` Z.to_nat size2)%nat with n by lia.
      apply take_eq_lookup; [lia|lia|]. intros j Hj. apply Hbefore. lia.
    + rewrite !lookup_take_lt by lia. done.
  - assert (take m s1 = take m s2) as Hpre.
    { apply take_eq_lookup; [lia|lia|]. intros j Hj. apply Hr. lia. }
    case_decide as Hne.
    + unfold ssize_t_of_size_t. rewrite Z.mod_small by lia.
      exists (Z.min size1 size2). split; [f_equal; lia|]. split; [lia|].
      right. exists m. split; [lia|]. split.
      * rewrite !take_take.
        replace (m `min` Z.to_nat size1)%nat with m by lia.
        replace (m `min` Z.to_nat size2)%nat with m by lia. done.
      * destruct (decide (size1 < size2)) as [Hlt|Hge].
        -- rewrite (lookup_take_ge s1) by lia.
           rewrite lookup_take_lt by lia.
           destruct (lookup_lt_is_Some_2 s2 m) as [c ->]; [lia|done].
        -- rewrite (lookup_take_ge s2) by lia.
           rewrite lookup_take_lt by lia.
           destruct (lookup_lt_is_Some_2 s1 m) as [c ->]; [lia|done].
    + assert (size1 = size2) as <- by lia.
      exists (-1). split; [done|]. split; [lia|]. left. split; [done|].
      subst m. by rewrite Z.min_id in Hpre.
Qed.

(** X7: [rd_strndiffpos] compares the first [size1] bytes of [s1] with the
    first [size2] bytes of [s2], terminators included: it returns -1
    exactly when the two are equal, and otherwise the index of their first
    difference, which is the smaller size when one is a prefix of the
    other. *)
Theorem strndiffpos_first_difference RD_MIN s1 size1 s2 size2 :
  (∀ a b, RD_MIN a b = Z.min a b) →
  0 ≤ size1 ≤ Z.of_nat (length s1) → 0 ≤ size2 ≤ Z.of_nat (length s2) →
  size1 < 2 ^ 63 → size2 < 2 ^ 63 →
  ∃ r, rd_strndiffpos RD_MIN s1 size1 s2 size2 = Some r ∧
       -1 ≤ r ≤ Z.min size1 size2 ∧
       (r = -1 ↔ take (Z.to_nat size1) s1 = take (Z.to_nat size2) s2) ∧
       (r ≠ -1 →
        take (Z.to_nat r) s1 = take (Z.to_nat r) s2 ∧
        (r < Z.min size1 size2 → s1 !! Z.to_nat r ≠ s2 !! Z.to_nat r) ∧
        (r = Z.min size1 size2 → size1 ≠ size2)).
Proof.
  intros Hmin H1 H2 Hs1 Hs2.
  destruct (rd_strndiffpos_first_difference RD_MIN s1 size1 s2 size2
              Hmin H1 H2 Hs1 Hs2) as (r & Hrun & Hr & Hfd).
  exists r. do 2 (split; [done|]).
  split; [by apply first_difference_equal|].
  intros Hne. destruct Hfd as [[-> _]|(n & -> & Hn & Hd)]; [done|].
  rewrite Nat2Z.id. rewrite !take_take in Hn.
  replace (n `min` Z.to_nat size1)%nat with n in Hn by lia.
  replace (n `min` Z.to_nat size2)%nat with n in Hn by lia.
  split; [done|]. split.
  - intros Hlt. by rewrite !lookup_take_lt in Hd by lia.
  - intros Heq Hsz. subst size2. rewrite Z.min_id in Heq.
    rewrite !lookup_take_ge in Hd by lia. done.
Qed.

Lemma strndiffpos_first_difference_witness :
  ((∀ a b, Z.min a b = Z.min a b) ∧
   0 ≤ 5 ≤ Z.of_nat (length hello) ∧
   0 ≤ 11 ≤ Z.of_nat (length hello_world) ∧ 5 < 2 ^ 63 ∧ 11 < 2 ^ 63) ∧
  ∃ r, rd_strndiffpos Z.min hello 5 hello_world 11 = Some r ∧
       -1 ≤ r ≤ Z.min 5 11.
Proof.
  assert (∀ a b, Z.min a b = Z.min a b) as H0 by done.
  assert (0 ≤ 5 ≤ Z.of_nat (length hello)) as H1 by (simpl; lia).
  assert (0 ≤ 11 ≤ Z.of_nat (length hello_world)) as H2 by (simpl; lia).
  assert (5 < 2 ^ 63) as H3 by lia.
  assert (11 < 2 ^ 63) as H4 by lia.
  split; [done|].
  destruct (strndiffpos_first_difference Z.min hello 5 hello_world 11
              H0 H1 H2 H3 H4) as (r & Hrun & Hr & _).
  exists r. split; [exact Hrun|exact Hr].
Defined.

Lemma strndiffpos_loop_sym s1 s2 todo pos :
  rd_strndiffpos_loop s1 s2 todo pos = rd_strndiffpos_loop s2 s1 todo pos.
Proof.
  revert pos. induction todo as [|todo IH]; intros pos; simpl; [done|].
  destruct (s1 !! Z.to_nat pos) as [c1|], (s2 !! Z.to_nat pos) as [c2|];
    simpl; try done.
  destruct (decide (c1 = c2)) as [->|Hne].
  - rewrite !decide_False by (intros Hne; by apply Hne). apply IH.
  - rewrite !decide_True by congruence. done.
Qed.

(** X8: [rd_strndiffpos] does not depend on the order of its two strings,
    out of bounds included. *)
Theorem strndiffpos_symmetric RD_MIN s1 size1 s2 size2 :
  (∀ a b, RD_MIN a b = RD_MIN b a) →
  rd_strndiffpos RD_MIN s1 size1 s2 size2
  = rd_strndiffpos RD_MIN s2 size2 s1 size1.
Proof.
  intros Hcomm. unfold rd_strndiffpos.
  rewrite (Hcomm size2 size1), (strndiffpos_loop_sym s2 s1).
  destruct (rd_strndiffpos_loop s1 s2 _ 0) as [[q|]|]; simpl; try done.
  destruct (decide (size1 = size2)) as [->|Hne].
  - by rewrite !decide_False by (intros Hne; by apply Hne).
  - by rewrite !decide_True by congruence.
Qed.

Lemma strndiffpos_symmetric_witness :
  (∀ a b, Z.min a b = Z.min b a) ∧
  rd_strndiffpos Z.min hello 5 hello_world 11
  = rd_strndiffpos Z.min hello_world 11 hello 5.
Proof.
  assert (∀ a b, Z.min a b = Z.min b a) as H0 by (intros a b; lia).
  split; [done|].
  exact (strndiffpos_symmetric Z.min hello 5 hello_world 11 H0).
Defined.

Lemma strdiffpos_loop_spec s1 s2 off :
  x00 ∈ s1 → x00 ∈ s2 → 0 ≤ off →
  ∃ r, rd_strdiffpos_loop s1 s2 off = Some r ∧
       ((r = -1 ∧ c_string s1 = c_string s2) ∨
        (∃ n : nat, r = off + Z.of_nat n ∧
                    take n (c_string s1) = take n (c_string s2) ∧
                    c_string s1 !! n ≠ c_string s2 !! n)).
Proof.
  revert s2 off. induction s1 as [|c1 s1 IH]; intros s2 off H1 H2 Hoff.
  { by apply elem_of_nil in H1. }
  destruct s2 as [|c2 s2]; [by apply elem_of_nil in H2|].
  simpl. destruct (decide (c1 = c2)) as [<-|Hne].
  - destruct (decide (c1 = x00)) as [->|Hc].
    + exists (-1). split; [done|]. by left.
    + apply elem_of_cons in H1 as [?|H1]; [congruence|].
      apply elem_of_cons in H2 as [?|H2]; [congruence|].
      destruct (IH s2 (off + 1) H1 H2) as (r & Hrun & Hr); [lia|].
      exists r. split; [done|].
      destruct Hr as [[-> Heq]|(n & -> & Hn & Hd)].
      * left. by rewrite Heq.
      * right. exists (S n). split; [lia|]. simpl. by rewrite Hn.
  - exists off. split; [done|]. right. exists 0%nat.
    split; [lia|]. split; [done|].
    destruct (decide (c1 = x00)), (decide (c2 = x00)); simpl; congruence.
Qed.

Lemma rd_strdiffpos_first_difference s1 s2 :
  x00 ∈ s1 → x00 ∈ s2 →
  ∃ r, rd_strdiffpos s1 s2 = Some r ∧
       first_difference (c_string s1) (c_string s2) r.
Proof.
  intros H1 H2.
  destruct (strdiffpos_loop_spec s1 s2 0 H1 H2) as (r & Hrun & Hr); [done|].
  exists r. split; [done|].
  destruct Hr as [[-> Heq]|(n & -> & Hn & Hd)]; [by left|].
  right. exists n. by rewrite Z.add_0_l.
Qed.

(** X9: on two terminated strings [rd_strdiffpos] returns -1 exactly when
    they are equal, and otherwise the index of the first character in
    which they differ, where the terminator of the shorter string counts
    as a difference. *)
Theorem strdiffpos_first_difference s1 s2 :
  x00 ∈ s1 → x00 ∈ s2 →
  ∃ r, rd_strdiffpos s1 s2 = Some r ∧
       (r = -1 ↔ c_string s1 = c_string s2) ∧
       (r ≠ -1 →
        0 ≤ r ≤ Z.of_nat (length (c_string s1)) ∧
        r ≤ Z.of_nat (length (c_string s2)) ∧
        take (Z.to_nat r) (c_string s1) = take (Z.to_nat r) (c_string s2) ∧
        c_string s1 !! Z.to_nat r ≠ c_string s2 !! Z.to_nat r).
Proof.
  intros H1 H2.
  destruct (rd_strdiffpos_first_difference s1 s2 H1 H2) as (r & Hrun & Hfd).
  exists r. split; [done|]. split; [by apply first_difference_equal|].
  intros Hne. destruct Hfd as [[-> _]|(n & -> & Hn & Hd)]; [done|].
  rewrite Nat2Z.id.
  assert (n ≤ length (c_string s1) ∧ n ≤ length (c_string s2))%nat as [? ?].
  { apply (f_equal length) in Hn. rewrite !length_take in Hn.
    destruct (decide (n ≤ length (c_string s1))%nat) as [?|Hgt1],
             (decide (n ≤ length (c_string s2))%nat) as [?|Hgt2]; try lia.
    rewrite !lookup_ge_None_2 in Hd by lia. done. }
  repeat split; try done; lia.
Qed.

Lemma strdiffpos_first_difference_witness :
  (x00 ∈ hello ∧ x00 ∈ hello_world) ∧
  ∃ r, rd_strdiffpos hello hello_world = Some r ∧
       (r = -1 ↔ c_string hello = c_string hello_world).
Proof.
  assert (x00 ∈ hello) as H1
    by (apply (bool_decide_unpack _); vm_compute; exact I).
  assert (x00 ∈ hello_world) as H2
    by (apply (bool_decide_unpack _); vm_compute; exact I).
  split; [done|].
  destruct (strdiffpos_first_difference hello hello_world H1 H2)
    as (r & Hrun & Heq & _).
  exists r. split; [exact Hrun|exact Heq].
Defined.

(** X10: on terminated strings [rd_strdiffpos] answers what
    [rd_strndiffpos] answers when given the two string lengths. *)
Theorem strdiffpos_is_strndiffpos RD_MIN s1 s2 n1 n2 :
  (∀ a b, RD_MIN a b = Z.min a b) →
  strlen s1 = Some n1 → strlen s2 = Some n2 →
  n1 < 2 ^ 63 → n2 < 2 ^ 63 →
  ∃ r, rd_strdiffpos s1 s2 = Some r ∧
       rd_strndiffpos RD_MIN s1 n1 s2 n2 = Some r.
Proof.
  intros Hmin Hn1 Hn2 Hs1 Hs2.
  assert (∀ s n, strlen s = Some n →
                 x00 ∈ s ∧ n = Z.of_nat (length (c_string s))) as Hlen.
  { intros s n Hn. assert (x00 ∈ s) as Hin.
    { unfold strlen in Hn.
      destruct (list_find (λ c, c = x00) s) as [[j c]|] eqn:Hfind; [|done].
      apply list_find_Some in Hfind as (Hj & -> & _).
      apply list_elem_of_lookup. eauto. }
    split; [done|]. rewrite (strlen_c_string _ Hin) in Hn. congruence. }
  destruct (Hlen _ _ Hn1) as [Hin1 ->]. destruct (Hlen _ _ Hn2) as [Hin2 ->].
  destruct (rd_strdiffpos_first_difference s1 s2 Hin1 Hin2)
    as (r & Hrun & Hfd).
  pose proof (c_string_length s1). pose proof (c_string_length s2).
  destruct (rd_strndiffpos_first_difference RD_MIN
              s1 (Z.of_nat (length (c_string s1)))
              s2 (Z.of_nat (length (c_string s2))) Hmin)
    as (r' & Hrun' & _ & Hfd'); [lia|lia|done|done|].
  rewrite !Nat2Z.id, <- !c_string_take in Hfd'.
  exists r. split; [done|]. rewrite Hrun'. f_equal.
  by apply (first_difference_unique (c_string s1) (c_string s2)).
Qed.

Lemma strdiffpos_is_strndiffpos_witness :
  ((∀ a b, Z.min a b = Z.min a b) ∧
   strlen hello = Some 5 ∧ strlen hello_world = Some 11 ∧
   5 < 2 ^ 63 ∧ 11 < 2 ^ 63) ∧
  ∃ r, rd_strdiffpos hello hello_world = Some r ∧
       rd_strndiffpos Z.min hello 5 hello_world 11 = Some r.
Proof.
  assert (∀ a b, Z.min a b = Z.min a b) as H0 by done.
  assert (strlen hello = Some 5) as H1 by (vm_compute; reflexivity).
  assert (strlen hello_world = Some 11) as H2 by (vm_compute; reflexivity).
  assert (5 < 2 ^ 63) as H3 by lia.
  assert (11 < 2 ^ 63) as H4 by lia.
  split; [done|].
  exact (strdiffpos_is_strndiffpos Z.min hello hello_world 5 11
           H0 H1 H2 H3 H4).
Defined.

(** ** [rd_snprintf_cat] *)

Lemma rendered_length n out :
  0 < n → Z.of_nat (length (rendered n out)) = Z.min (Z.of_nat (length out)) (n - 1) + 1.
Proof.
  intros Hn. unfold rendered. rewrite length_app, length_take. simpl. lia.
Qed.


(** The call that finds room: what it returns and what it leaves in the
    object. *)
Lemma cat_appends e str size out :
  x00 ∈ str →
  Z.of_nat (length (c_string str)) < size ≤ Z.of_nat (length str) →
  Z.of_nat (length (c_string str)) + Z.of_nat (length out) ≤ INT_MAX →
  size < 2 ^ 64 →
  rd_snprintf_cat e str size (Formatted out)
  = Some {| cat_ret := Z.of_nat (length (c_string str))
                       + Z.of_nat (length out);
            cat_str :=
              c_string str
              ++ take (Z.to_nat size - 1 - length (c_string str)) out
              ++ x00
                 :: drop (S (length (c_string str)
                             + (Z.to_nat size - 1 - length (c_string str))
                               `min` length out)) str;
            cat_errno := None |}.
Proof.
  intros Hterm Hsz Hmax Hsize. unfold rd_snprintf_cat.
  rewrite (strlen_c_string _ Hterm). simpl.
  set (n := length (c_string str)) in *.
  rewrite int_wrap_small by (unfold INT_MAX in *; lia).
  rewrite size_t_of_int_small by (unfold INT_MAX in *; lia).
  rewrite decide_False by lia.
  rewrite (Z.mod_small (size - Z.of_nat n)) by lia.
  unfold vsnprintf_at. rewrite decide_False by lia.
  pose proof (rendered_length (size - Z.of_nat n) out ltac:(lia)) as Hlen.
  rewrite decide_True by lia. simpl.
  unfold vsnprintf_ret, vsnprintf_len.
  rewrite !(decide_True (P := Z.of_nat (length out) ≤ INT_MAX)) by lia.
  rewrite decide_False by lia.
  unfold int_add. rewrite int_wrap_small by (unfold INT_MAX in *; lia).
  f_equal. f_equal.
  rewrite Nat2Z.id. subst n. rewrite <- c_string_take. f_equal.
  unfold rendered. rewrite <- app_assoc. simpl.
  replace (Z.to_nat (size - Z.of_nat (length (c_string str)) - 1))
    with (Z.to_nat size - 1 - length (c_string str))%nat by lia.
  f_equal. f_equal. f_equal.
  rewrite length_app, length_take. simpl. lia.
Qed.

(** X11: when the string at [str] already has [size] characters or more,
    [size] 0 included, [rd_snprintf_cat] returns -1, stores [ERANGE] to
    [errno] and leaves the object as it is, whatever the format. *)
Theorem cat_no_room e str size f :
  x00 ∈ str → Z.of_nat (length (c_string str)) ≤ INT_MAX →
  size ≤ Z.of_nat (length (c_string str)) →
  rd_snprintf_cat e str size f
  = Some {| cat_ret := -1; cat_str := str; cat_errno := Some ERANGE |}.
Proof.
  intros Hterm Hmax Hsz. unfold rd_snprintf_cat.
  rewrite (strlen_c_string _ Hterm). simpl.
  rewrite int_wrap_small by (unfold INT_MAX in *; lia).
  rewrite size_t_of_int_small by (unfold INT_MAX in *; lia).
  by rewrite decide_True by lia.
Qed.

Lemma cat_no_room_witness :
  (x00 ∈ hello ∧ Z.of_nat (length (c_string hello)) ≤ INT_MAX ∧
   5 ≤ Z.of_nat (length (c_string hello))) ∧
  rd_snprintf_cat (-1) hello 5 (Formatted abc)
  = Some {| cat_ret := -1; cat_str := hello; cat_errno := Some ERANGE |}.
Proof.
  assert (x00 ∈ hello) as H1
    by (apply (bool_decide_unpack _); vm_compute; exact I).
  assert (Z.of_nat (length (c_string hello)) ≤ INT_MAX) as H2
    by (vm_compute; congruence).
  assert (5 ≤ Z.of_nat (length (c_string hello))) as H3
    by (vm_compute; congruence).
  split; [done|]. exact (cat_no_room (-1) hello 5 (Formatted abc) H1 H2 H3).
Defined.

(** X12: when there is room, [rd_snprintf_cat] leaves at [str] the old
    string followed by the output, cut to [size - 1] characters, and
    returns the length the uncut result has; the result is uncut exactly
    when the returned value is below [size]. *)
Theorem cat_appends_output e str size out :
  x00 ∈ str → x00 ∉ out →
  Z.of_nat (length (c_string str)) < size ≤ Z.of_nat (length str) →
  Z.of_nat (length (c_string str)) + Z.of_nat (length out) ≤ INT_MAX →
  size < 2 ^ 64 →
  ∃ r, rd_snprintf_cat e str size (Formatted out) = Some r ∧
       cat_errno r = None ∧
       cat_ret r = Z.of_nat (length (c_string str ++ out)) ∧
       c_string (cat_str r) = take (Z.to_nat size - 1) (c_string str ++ out) ∧
       (cat_ret r < size ↔ c_string (cat_str r) = c_string str ++ out).
Proof.
  intros Hterm Hout Hsz Hmax Hsize.
  rewrite (cat_appends e str size out Hterm Hsz Hmax Hsize).
  eexists. split; [done|]. split; [done|]. simpl.
  set (n := length (c_string str)) in *.
  assert (c_string
            (c_string str ++ take (Z.to_nat size - 1 - n) out
             ++ x00 :: drop (S (n + (Z.to_nat size - 1 - n) `min` length out))
                         str)
          = take (Z.to_nat size - 1) (c_string str ++ out)) as Hstr.
  { rewrite app_assoc. rewrite c_string_app_nul.
    - by rewrite take_app_ge by (subst n; lia).
    - intros [Hin|Hin]%elem_of_app.
      + by apply c_string_no_nul in Hin.
      + apply Hout. by apply (subseteq_take _ _ _ Hin). }
  split; [rewrite length_app; lia|]. split; [done|].
  rewrite Hstr. split.
  - intros Hlt. apply take_ge. rewrite length_app. subst n. lia.
  - intros Heq. apply (f_equal length) in Heq.
    rewrite length_take, length_app in Heq. subst n. lia.
Qed.

Lemma cat_appends_output_witness :
  (x00 ∈ hello_buffer ∧ (x00 ∉ abc) ∧
   Z.of_nat (length (c_string hello_buffer)) < 7
   ≤ Z.of_nat (length hello_buffer) ∧
   Z.of_nat (length (c_string hello_buffer))
   + Z.of_nat (length abc) ≤ INT_MAX ∧
   7 < 2 ^ 64) ∧
  ∃ r, rd_snprintf_cat (-1) hello_buffer 7 (Formatted abc) = Some r ∧
       cat_ret r = 8 ∧
       c_string (cat_str r) = [x68; x65; x6c; x6c; x6f; x61].
Proof.
  assert (x00 ∈ hello_buffer) as H1
    by (apply (bool_decide_unpack _); vm_compute; exact I).
  assert (x00 ∉ abc) as H2
    by (apply (bool_decide_unpack _); vm_compute; exact I).
  assert (Z.of_nat (length (c_string hello_buffer)) < 7
          ≤ Z.of_nat (length hello_buffer)) as H3
    by (vm_compute; split; congruence).
  assert (Z.of_nat (length (c_string hello_buffer))
          + Z.of_nat (length abc) ≤ INT_MAX) as H4
    by (vm_compute; congruence).
  assert (7 < 2 ^ 64) as H5 by lia.
  split; [done|].
  destruct (cat_appends_output (-1) _ 7 abc H1 H2 H3 H4 H5)
    as (r & Hrun & _ & Hret & Hstr & _).
  exists r. split; [exact Hrun|]. split; [exact Hret|exact Hstr].
Defined.

(** X13: a call that finds room writes inside the first [size] bytes of
    the object only, keeps the characters that were there, and leaves a
    terminator among the first [size] bytes, however long the output is. *)
Theorem cat_stays_inside e str size out :
  x00 ∈ str →
  Z.of_nat (length (c_string str)) < size ≤ Z.of_nat (length str) →
  Z.of_nat (length (c_string str)) + Z.of_nat (length out) ≤ INT_MAX →
  size < 2 ^ 64 →
  ∃ r, rd_snprintf_cat e str size (Formatted out) = Some r ∧
       length (cat_str r) = length str ∧
       drop (Z.to_nat size) (cat_str r) = drop (Z.to_nat size) str ∧
       take (length (c_string str)) (cat_str r) = c_string str ∧
       x00 ∈ take (Z.to_nat size) (cat_str r).
Proof.
  intros Hterm Hsz Hmax Hsize.
  rewrite (cat_appends e str size out Hterm Hsz Hmax Hsize).
  eexists. split; [done|]. simpl.
  set (n := length (c_string str)) in *.
  set (k := (Z.to_nat size - 1 - n)%nat).
  assert (length (take k out) = k `min` length out)%nat as Hk
    by apply length_take.
  split; [|split; [|split]].
  - rewrite !length_app. simpl. rewrite length_drop, Hk. fold n. lia.
  - rewrite drop_app_ge by (fold n; lia).
    rewrite drop_app_ge by (rewrite Hk; fold n; lia).
    rewrite Hk. fold n.
    replace (Z.to_nat size - n - k `min` length out)%nat
      with (S (Z.to_nat size - n - k `min` length out - 1)) by lia.
    simpl. rewrite drop_drop. f_equal. lia.
  - subst n. by rewrite take_app_length.
  - rewrite take_app_ge by (fold n; lia). apply elem_of_app. right.
    rewrite take_app_ge by (rewrite Hk; fold n; lia).
    apply elem_of_app. right. rewrite Hk. fold n.
    replace (Z.to_nat size - n - k `min` length out)%nat
      with (S (Z.to_nat size - n - k `min` length out - 1)) by lia.
    simpl. by left.
Qed.

Lemma cat_stays_inside_witness :
  (x00 ∈ hello_buffer ∧
   Z.of_nat (length (c_string hello_buffer)) < 7
   ≤ Z.of_nat (length hello_buffer) ∧
   Z.of_nat (length (c_string hello_buffer)) + Z.of_nat (length abc)
   ≤ INT_MAX ∧
   7 < 2 ^ 64) ∧
  ∃ r, rd_snprintf_cat (-1) hello_buffer 7 (Formatted abc) = Some r ∧
       length (cat_str r) = length hello_buffer ∧
       drop (Z.to_nat 7) (cat_str r) = drop (Z.to_nat 7) hello_buffer.
Proof.
  assert (x00 ∈ hello_buffer) as H1
    by (apply (bool_decide_unpack _); vm_compute; exact I).
  assert (Z.of_nat (length (c_string hello_buffer)) < 7
          ≤ Z.of_nat (length hello_buffer)) as H3
    by (vm_compute; split; congruence).
  assert (Z.of_nat (length (c_string hello_buffer))
          + Z.of_nat (length abc) ≤ INT_MAX) as H4
    by (vm_compute; congruence).
  assert (7 < 2 ^ 64) as H5 by lia.
  split; [done|].
  destruct (cat_stays_inside (-1) _ 7 abc H1 H3 H4 H5)
    as (r & Hrun & Hlen & Hdrop & _).
  exists r. split; [exact Hrun|]. split; [exact Hlen|exact Hdrop].
Defined.



(** X14: when there is room and the formatting fails, [rd_snprintf_cat]
    returns the old length plus the negative value that [vsnprintf]
    returned, and stores nothing to [errno] itself: the failure is not
    reported as -1. *)
Theorem cat_format_failure e str size :
  - 2 ^ 31 ≤ e < 0 →
  x00 ∈ str →
  Z.of_nat (length (c_string str)) < size →
  Z.of_nat (length (c_string str)) ≤ INT_MAX →
  size < 2 ^ 64 →
  ∃ r, rd_snprintf_cat e str size FormatError = Some r ∧
       cat_ret r = Z.of_nat (length (c_string str)) + e ∧
       cat_errno r = None.
Proof.
  intros He Hterm Hsz Hmax Hsize. unfold rd_snprintf_cat.
  rewrite (strlen_c_string _ Hterm). simpl.
  rewrite int_wrap_small by (unfold INT_MAX in *; lia).
  rewrite size_t_of_int_small by (unfold INT_MAX in *; lia).
  rewrite decide_False by lia. simpl.
  eexists. split; [done|]. simpl. split; [|done].
  unfold int_add, vsnprintf_ret, vsnprintf_len.
  rewrite decide_True by lia.
  rewrite int_wrap_small by (unfold INT_MAX in *; lia). done.
Qed.

Lemma cat_format_failure_witness :
  (- 2 ^ 31 ≤ -1 < 0 ∧ x00 ∈ hello_buffer ∧
   Z.of_nat (length (c_string hello_buffer)) < 12 ∧
   Z.of_nat (length (c_string hello_buffer)) ≤ INT_MAX ∧
   12 < 2 ^ 64) ∧
  ∃ r, rd_snprintf_cat (-1) hello_buffer 12 FormatError = Some r ∧
       cat_ret r = 4 ∧ cat_errno r = None.
Proof.
  assert (- 2 ^ 31 ≤ -1 < 0) as H0 by lia.
  assert (x00 ∈ hello_buffer) as H1
    by (apply (bool_decide_unpack _); vm_compute; exact I).
  assert (Z.of_nat (length (c_string hello_buffer)) < 12) as H2
    by (vm_compute; congruence).
  assert (Z.of_nat (length (c_string hello_buffer)) ≤ INT_MAX) as H3
    by (vm_compute; congruence).
  assert (12 < 2 ^ 64) as H4 by lia.
  split; [done|].
  destruct (cat_format_failure (-1) _ 12 H0 H1 H2 H3 H4)
    as (r & Hrun & Hret & Herr).
  exists r. split; [exact Hrun|]. split; [exact Hret|exact Herr].
Defined.



(** ** How long a returned string lasts *)

Lemma text_at_block h q text :
  text_at h q = Some text → ∃ b, q = Some b.
Proof. destruct q; [eauto|done]. Qed.

(** A call leaves the storage of the slots it does not target where it is
    and as it reads, and returns none of them. *)
Lemma render_keeps_text k st f X q :
  1 ≤ k ≤ INT_MAX → pool_inv k st → size (tsp st) ≠ 0 → format_ok f →
  X ≠ (i (tsp st) + 1) `mod` k →
  slot_storage st X = Some q →
  ∃ r st', rd_tsprintf k f st = Some (r, st') ∧ pool_inv k st' ∧
           size (tsp st') ≠ 0 ∧
           i (tsp st') = (i (tsp st) + 1) `mod` k ∧
           slot_storage st' X = Some q ∧
           text_at (mem st') q = text_at (mem st) q ∧
           (is_Some (text_at (mem st) q) → r ≠ q).
Proof.
  intros Hk Hinv Hsz Hf HX Hq.
  destruct (cyclic_get_cursor k st Hk Hinv) as [Hsz1 Hi1].
  rewrite decide_False in Hi1 by done.
  assert (slot_storage (rdstr_cyclic_get st k) X = slot_storage st X ∧
          mem (rdstr_cyclic_get st k) = mem st)
    as [Hs1 Hm1] by (by rewrite (cyclic_get_init _ _ Hsz)).
  destruct f as [|out].
  - exists None, (rdstr_cyclic_get st k).
    split; [apply tsprintf_failure|]. split; [by apply cyclic_get_inv|].
    split; [lia|]. split; [done|]. split; [congruence|].
    split; [by rewrite Hm1|].
    intros [text Htext]. by destruct (text_at_block _ _ _ Htext) as [b ->].
  - destruct (tsprintf_success k st out Hk Hinv Hf)
      as (p & c & r & st' & _ & _ & _ & Hrun & []).
    exists r, st'. split; [done|]. split; [done|].
    rewrite post_tsp0. split; [lia|]. split; [done|].
    destruct (post_others0 X) as (Hs' & _ & Htext); [congruence|].
    rewrite Hs', Hs1. split; [done|].
    rewrite (Htext q) by congruence. rewrite Hm1. split; [done|].
    intros [text Hqt] ->.
    destruct (text_at_block _ _ _ Hqt) as [b ->].
    destruct (pool_inv_shape k st' post_inv0) as (pb & pl & bs & ls & Hshape).
    { rewrite post_tsp0. lia. }
    assert (0 ≤ X) as HX0.
    { destruct (decide (0 ≤ X)); [done|].
      destruct (slot_negative _ _ _ _ _ _ X Hshape) as [Hnone _]; [lia|].
      rewrite Hs', Hs1, Hq in Hnone. done. }
    pose proof post_inv0 as (_ & Hi' & _). rewrite post_tsp0 in Hi'.
    rewrite (slot_storage_shape _ _ _ _ _ _ _ Hshape) in post_storage0 by lia.
    rewrite Hs1, Hq in Hs'.
    rewrite (slot_storage_shape _ _ _ _ _ _ _ Hshape) in Hs' by lia.
    destruct Hshape.
    pose proof (proj1 (NoDup_omap_lookup bs) shape_nodup0 _ _ b
                  post_storage0 Hs') as Heq.
    apply HX. rewrite <- Hi1. lia.
Qed.

(** Calls that rotate past the slot [X] without reaching it leave its
    storage where it is and as it reads. *)
Lemma others_keep_text k fs st X q :
  1 ≤ k ≤ INT_MAX → pool_inv k st → size (tsp st) ≠ 0 →
  Forall format_ok fs →
  (∀ m, 1 ≤ m ≤ Z.of_nat (length fs) → (i (tsp st) + m) `mod` k ≠ X) →
  slot_storage st X = Some q →
  ∃ st', run k (Render <$> fs) st = Some st' ∧ pool_inv k st' ∧
         size (tsp st') ≠ 0 ∧
         i (tsp st') = (i (tsp st) + Z.of_nat (length fs)) `mod` k ∧
         slot_storage st' X = Some q ∧
         text_at (mem st') q = text_at (mem st) q.
Proof.
  intros Hk Hinv Hsz Hfs. revert st Hinv Hsz.
  induction Hfs as [|f fs Hf Hfs IH]; intros st Hinv Hsz HX Hq.
  - exists st. do 3 (split; [done|]). split; [|done].
    destruct Hinv as (_ & Hi & Hrest). simpl.
    by rewrite Z.add_0_r, Z.mod_small by done.
  - destruct (render_keeps_text k st f X q Hk Hinv Hsz Hf)
      as (r & st1 & Hrun & Hinv1 & Hsz1 & Hi1 & Hs1 & Ht1 & _); [|done|].
    { intros ->. apply (HX 1); [simpl length; lia|done]. }
    destruct (IH st1 Hinv1 Hsz1) as (st' & Hrun' & ? & ? & Hi' & Hs' & Ht');
      [|done|].
    { intros m Hm. rewrite Hi1, Zplus_mod_idemp_l.
      replace (i (tsp st) + 1 + m) with (i (tsp st) + (m + 1)) by lia.
      apply HX. simpl length. lia. }
    exists st'. rewrite (run_render _ _ _ _ _ _ Hrun), Hrun'.
    do 3 (split; [done|]). split; [|by rewrite Ht', Ht1].
    rewrite Hi', Hi1, Zplus_mod_idemp_l. f_equal. simpl length. lia.
Qed.

(** A successful call, as the calls after it find it: the pool is
    initialised and the returned block is the storage of the slot under
    the cursor. *)
Lemma render_result k st out :
  1 ≤ k ≤ INT_MAX → pool_inv k st → no_overflow out →
  ∃ r st1, rd_tsprintf k (Formatted out) st = Some (r, st1) ∧
           pool_inv k st1 ∧ size (tsp st1) ≠ 0 ∧
           slot_storage st1 (i (tsp st1)) = Some r ∧
           text_at (mem st1) r = Some (out ++ [x00]).
Proof.
  intros Hk Hinv Hout.
  destruct (cyclic_get_cursor k st Hk Hinv) as [Hsz1 _].
  destruct (tsprintf_success k st out Hk Hinv Hout)
    as (p & c & r & st1 & _ & _ & _ & Hrun & []).
  exists r, st1. split; [done|]. split; [done|].
  rewrite post_tsp0. split; [lia|]. done.
Qed.

Lemma cursor_not_reached k st m :
  pool_inv k st → 1 ≤ m < k → (i (tsp st) + m) `mod` k ≠ i (tsp st).
Proof.
  intros (_ & Hi & _) Hm.
  rewrite <- (Z.mod_small (i (tsp st)) k) at 2 by done.
  apply mod_shift_distinct. lia.
Qed.

(** X16: the string a successful call returns stays in place, unchanged,
    through the next [k - 1] calls of the thread, failed ones included,
    where [k] is the number of buffers. *)
Theorem result_outlives_calls k st out fs :
  1 ≤ k ≤ INT_MAX → pool_inv k st → no_overflow out →
  Forall format_ok fs → Z.of_nat (length fs) < k →
  ∃ r st1 st',
    rd_tsprintf k (Formatted out) st = Some (r, st1) ∧
    run k (Render <$> fs) st1 = Some st' ∧
    text_at (mem st') r = Some (out ++ [x00]).
Proof.
  intros Hk Hinv Hout Hfs Hlen.
  destruct (render_result k st out Hk Hinv Hout)
    as (r & st1 & Hrun & Hinv1 & Hsz1 & Hs1 & Ht1).
  destruct (others_keep_text k fs st1 (i (tsp st1)) r Hk Hinv1 Hsz1 Hfs)
    as (st' & Hrun' & _ & _ & _ & _ & Ht'); [|done|].
  { intros m Hm. apply cursor_not_reached; [done|lia]. }
  exists r, st1, st'. split; [done|]. split; [done|]. by rewrite Ht'.
Qed.

Lemma result_outlives_calls_witness :
  (1 ≤ 3 ≤ INT_MAX ∧ pool_inv 3 (fresh_thread empty_heap) ∧
   no_overflow abc ∧
   Forall format_ok [Formatted small10; FormatError] ∧
   Z.of_nat (length [Formatted small10; FormatError]) < 3) ∧
  ∃ r st1 st',
    rd_tsprintf 3 (Formatted abc) (fresh_thread empty_heap) = Some (r, st1) ∧
    run 3 (Render <$> [Formatted small10; FormatError]) st1 = Some st' ∧
    text_at (mem st') r = Some (abc ++ [x00]).
Proof.
  assert (1 ≤ 3 ≤ INT_MAX) as Hk by (unfold INT_MAX; lia).
  assert (pool_inv 3 (fresh_thread empty_heap)) as Hinv
    by (apply (bool_decide_unpack _); vm_compute; exact I).
  assert (no_overflow abc) as Hout
    by (apply (bool_decide_unpack _); vm_compute; exact I).
  assert (Forall format_ok [Formatted small10; FormatError]) as Hfs
    by (apply (bool_decide_unpack _); vm_compute; exact I).
  assert (Z.of_nat (length [Formatted small10; FormatError]) < 3) as Hlen
    by (simpl; lia).
  split; [done|].
  exact (result_outlives_calls 3 _ abc _ Hk Hinv Hout Hfs Hlen).
Defined.

(** X17: none of the next [k - 1] calls returns the block that a
    successful call returned. *)
Theorem result_not_returned_again k st out fs f :
  1 ≤ k ≤ INT_MAX → pool_inv k st → no_overflow out →
  Forall format_ok fs → format_ok f → Z.of_nat (length fs) + 1 < k →
  ∃ r st1 st2 r' st',
    rd_tsprintf k (Formatted out) st = Some (r, st1) ∧
    run k (Render <$> fs) st1 = Some st2 ∧
    rd_tsprintf k f st2 = Some (r', st') ∧
    r' ≠ r.
Proof.
  intros Hk Hinv Hout Hfs Hf Hlen.
  destruct (render_result k st out Hk Hinv Hout)
    as (r & st1 & Hrun & Hinv1 & Hsz1 & Hs1 & Ht1).
  destruct (others_keep_text k fs st1 (i (tsp st1)) r Hk Hinv1 Hsz1 Hfs)
    as (st2 & Hrun2 & Hinv2 & Hsz2 & Hi2 & Hs2 & Ht2); [|done|].
  { intros m Hm. apply cursor_not_reached; [done|lia]. }
  destruct (render_keeps_text k st2 f (i (tsp st1)) r Hk Hinv2 Hsz2 Hf)
    as (r' & st' & Hrun' & _ & _ & _ & _ & _ & Hne); [|done|].
  { rewrite Hi2, Zplus_mod_idemp_l.
    replace (i (tsp st1) + Z.of_nat (length fs) + 1)
      with (i (tsp st1) + (Z.of_nat (length fs) + 1)) by lia.
    intros Heq. symmetry in Heq. revert Heq.
    apply cursor_not_reached; [done|lia]. }
  exists r, st1, st2, r', st'. do 3 (split; [done|]).
  apply Hne. rewrite Ht2, Ht1. eauto.
Qed.

Lemma result_not_returned_again_witness :
  (1 ≤ 3 ≤ INT_MAX ∧ pool_inv 3 (fresh_thread empty_heap) ∧
   no_overflow abc ∧ Forall format_ok [Formatted small10] ∧
   format_ok (Formatted abc) ∧
   Z.of_nat (length [Formatted small10]) + 1 < 3) ∧
  ∃ r st1 st2 r' st',
    rd_tsprintf 3 (Formatted abc) (fresh_thread empty_heap) = Some (r, st1) ∧
    run 3 (Render <$> [Formatted small10]) st1 = Some st2 ∧
    rd_tsprintf 3 (Formatted abc) st2 = Some (r', st') ∧
    r' ≠ r.
Proof.
  assert (1 ≤ 3 ≤ INT_MAX) as Hk by (unfold INT_MAX; lia).
  assert (pool_inv 3 (fresh_thread empty_heap)) as Hinv
    by (apply (bool_decide_unpack _); vm_compute; exact I).
  assert (no_overflow abc) as Hout
    by (apply (bool_decide_unpack _); vm_compute; exact I).
  assert (Forall format_ok [Formatted small10]) as Hfs
    by (apply (bool_decide_unpack _); vm_compute; exact I).
  assert (Z.of_nat (length [Formatted small10]) + 1 < 3) as Hlen
    by (simpl; lia).
  split; [done|].
  exact (result_not_returned_again 3 _ abc _ (Formatted abc)
           Hk Hinv Hout Hfs Hout Hlen).
Defined.

(** X18: the [k]-th call after a successful call, when it succeeds too,
    ends the returned string: the block is freed when the decision on the
    slot is to replace it, and holds the new output otherwise. *)
Theorem result_ends_after_turn k st out fs out' :
  1 ≤ k ≤ INT_MAX → pool_inv k st → no_overflow out →
  Forall format_ok fs → Z.of_nat (length fs) = k - 1 → no_overflow out' →
  ∃ r c st1 st',
    rd_tsprintf k (Formatted out) st = Some (r, st1) ∧
    slot_capacity st1 (i (tsp st1)) = Some c ∧
    run k (turn fs out') st1 = Some st' ∧
    (must_replace r c (Z.of_nat (length out') + 1) →
     ¬ is_live (mem st') r ∧ text_at (mem st') r = None) ∧
    (¬ must_replace r c (Z.of_nat (length out') + 1) →
     text_at (mem st') r = Some (out' ++ [x00])).
Proof.
  intros Hk Hinv Hout Hfs Hlen Hout'.
  destruct (render_result k st out Hk Hinv Hout)
    as (r & st1 & Hrun & Hinv1 & Hsz1 & Hs1 & Ht1).
  destruct (turn_decision k st1 fs out' Hk Hinv1 Hsz1 Hfs Hlen Hout')
    as (p & c & r' & c' & st' & Hp & Hc & Hrun' & _ & _ & _ & _ & _ & Ht'
        & Hrep & Hkeep).
  rewrite Hs1 in Hp. injection Hp as <-.
  exists r, c, st1, st'. do 3 (split; [done|]). split.
  - intros Hr. destruct (Hrep Hr) as (_ & _ & Hdead). split; [done|].
    destruct r as [b|]; [|done]. unfold text_at. simpl in *.
    destruct (live (mem st') !! b) eqn:Hb; [|done].
    destruct Hdead. eauto.
  - intros Hr. destruct (Hkeep Hr) as [-> _]. done.
Qed.

Lemma result_ends_after_turn_witness :
  (1 ≤ 2 ≤ INT_MAX ∧ pool_inv 2 (fresh_thread empty_heap) ∧
   no_overflow abc ∧ Forall format_ok [FormatError] ∧
   Z.of_nat (length [FormatError]) = 2 - 1 ∧ no_overflow small10) ∧
  ∃ r c st1 st',
    rd_tsprintf 2 (Formatted abc) (fresh_thread empty_heap) = Some (r, st1) ∧
    slot_capacity st1 (i (tsp st1)) = Some c ∧
    run 2 (turn [FormatError] small10) st1 = Some st' ∧
    (must_replace r c (Z.of_nat (length small10) + 1) →
     ¬ is_live (mem st') r ∧ text_at (mem st') r = None).
Proof.
  assert (1 ≤ 2 ≤ INT_MAX) as Hk by (unfold INT_MAX; lia).
  assert (pool_inv 2 (fresh_thread empty_heap)) as Hinv
    by (apply (bool_decide_unpack _); vm_compute; exact I).
  assert (no_overflow abc) as Hout
    by (apply (bool_decide_unpack _); vm_compute; exact I).
  assert (Forall format_ok [FormatError]) as Hfs
    by (apply (bool_decide_unpack _); vm_compute; exact I).
  assert (Z.of_nat (length [FormatError]) = 2 - 1) as Hlen by reflexivity.
  assert (no_overflow small10) as Hout'
    by (apply (bool_decide_unpack _); vm_compute; exact I).
  split; [done|].
  destruct (result_ends_after_turn 2 _ abc _ small10
              Hk Hinv Hout Hfs Hlen Hout')
    as (r & c & st1 & st' & Hr1 & Hc & Hr2 & Hrep & _).
  exists r, c, st1, st'. split; [exact Hr1|]. split; [exact Hc|].
  split; [exact Hr2|exact Hrep].
Defined.

(** ** The pool and the rest of the heap *)

Lemma elem_of_slots (bs : list (option positive)) b :
  b ∈ omap id bs ↔ ∃ j, bs !! j = Some (Some b).
Proof.
  rewrite list_elem_of_omap. split.
  - intros (y & Hy & Hid). simpl in Hid. subst y.
    by apply list_elem_of_lookup in Hy.
  - intros [j Hj]. exists (Some b). split; [|done].
    by eapply list_elem_of_lookup_2.
Qed.

Lemma pool_blocks_uninit st : size (tsp st) = 0 → pool_blocks st = [].
Proof. intros Hsz. unfold pool_blocks. by rewrite decide_True. Qed.

Lemma pool_blocks_shape k st pb pl bs ls :
  k ≠ 0 → pool_shape k st pb pl bs ls →
  pool_blocks st = pb :: pl :: omap id bs.
Proof.
  intros Hk []. unfold pool_blocks, buf_cells.
  rewrite decide_False by lia.
  rewrite shape_buf0, shape_len0. simpl. by rewrite shape_buf_live0.
Qed.

Lemma owns_cyclic_get k h st :
  1 ≤ k ≤ INT_MAX → pool_inv k st → owns h st →
  owns h (rdstr_cyclic_get st k).
Proof.
  intros Hk Hinv (Hnext & Hge & Hout).
  destruct (decide (size (tsp st) = 0)) as [Hsz|Hsz].
  - pose proof (pool_blocks_uninit st Hsz) as Hnil.
    destruct (cyclic_get_uninit_cells st k Hsz) as [Hbc _].
    assert (pool_blocks (rdstr_cyclic_get st k)
            = [next (mem st); Pos.succ (next (mem st))]) as Hpb.
    { unfold pool_blocks. rewrite Hbc, (cyclic_get_uninit _ _ Hsz). simpl.
      rewrite decide_False by lia. by rewrite omap_replicate_None. }
    unfold owns. rewrite Hpb. rewrite (cyclic_get_uninit _ _ Hsz). simpl.
    split; [lia|]. split.
    + intros b Hb. apply elem_of_cons in Hb as [->|Hb]; [done|].
      apply elem_of_cons in Hb as [->|Hb]; [lia|].
      by apply elem_of_nil in Hb.
    + intros b Hb.
      rewrite !lookup_insert_ne.
      * apply Hout. rewrite Hnil. apply not_elem_of_nil.
      * intros <-. apply Hb. by left.
      * intros <-. apply Hb. right. by left.
  - rewrite (cyclic_get_init _ _ Hsz).
    assert (pool_blocks
              {| tsp := {| size := size (tsp st); buf := buf (tsp st);
                           len := len (tsp st);
                           i := Z.rem (int_add (i (tsp st)) 1)
                                  (size (tsp st)) |};
                 mem := mem st |} = pool_blocks st) as Hpb by done.
    unfold owns. rewrite Hpb. done.
Qed.

Lemma owns_render k h st f :
  1 ≤ k ≤ INT_MAX → heap_wf h → pool_inv k st → format_ok f → owns h st →
  ∃ r st', rd_tsprintf k f st = Some (r, st') ∧ pool_inv k st' ∧
           owns h st'.
Proof.
  intros Hk Hwfh Hinv Hf Hown.
  pose proof (owns_cyclic_get k h st Hk Hinv Hown) as Hown1.
  destruct (render_step k st f Hk Hinv Hf) as (r & st' & Hrun & Hinv' & _).
  exists r, st'. split; [done|]. split; [done|].
  destruct f as [|out].
  { rewrite tsprintf_failure in Hrun. by injection Hrun as <- <-. }
  simpl in Hf.
  destruct (cyclic_get_shape k st Hk Hinv)
    as (Hwf & Hi & pb & pl & bs & ls & Hshape).
  set (st1 := rdstr_cyclic_get st k) in *.
  destruct (shape_slot _ _ _ _ _ _ Hshape Hi) as (p & c & Hp & Hc & Hok).
  pose proof (tsprintf_compute k st out pb pl bs ls p c
                Hwf Hi Hshape Hp Hc Hok Hf) as Hcomp.
  fold st1 in Hcomp. rewrite Hrun in Hcomp.
  set (j := Z.to_nat (i (tsp st1))) in *.
  set (n := Z.of_nat (length out) + 1) in *.
  assert (n ≤ INT_MAX) as Hn by (unfold no_overflow, INT_MAX in *; lia).
  assert (pool_blocks st1 = pb :: pl :: omap id bs) as Hpb1
    by (apply (pool_blocks_shape k _ _ _ _ ls); [lia|done]).
  destruct Hown1 as (Hnext & Hge & Hout). rewrite Hpb1 in Hge, Hout.
  destruct (decide (must_replace p c n)) as [Hr|Hr].
  - injection Hcomp as -> ->.
    destruct (replaced_state k st1 pb pl bs ls p c out Hwf Hi Hshape Hp Hc Hn)
      as [_ Hshape'].
    fold j n in Hshape'.
    unfold owns. rewrite (pool_blocks_shape k _ _ _ _ _ ltac:(lia) Hshape').
    split; [simpl; lia|]. split.
    + intros b Hb. apply elem_of_cons in Hb as [->|Hb].
      { apply Hge. by left. }
      apply elem_of_cons in Hb as [->|Hb].
      { apply Hge. right. by left. }
      apply elem_of_slots in Hb as [j' Hj'].
      apply list_lookup_insert_Some in Hj' as [(_ & Heq & _)|[_ Hj']].
      * injection Heq as <-. done.
      * apply Hge. do 2 right. apply elem_of_slots. eauto.
    + intros b Hb.
      assert (b ≠ pb) as Hbpb by (intros ->; apply Hb; by left).
      assert (b ≠ pl) as Hbpl by (intros ->; apply Hb; right; by left).
      assert (b ≠ next (mem st1)) as Hbn.
      { intros ->. apply Hb. do 2 right. apply elem_of_slots. exists j.
        apply list_lookup_insert_eq. apply lookup_lt_is_Some. eauto. }
      cbn [mem].
      destruct (decide (p = Some b)) as [->|Hpb].
      * destruct Hshape.
        rewrite (renewed_freed (mem st1) pb pl bs ls j (Some b) c n out)
          by done.
        symmetry. apply eq_None_not_Some. intros [o Ho].
        apply Hwfh in Ho.
        assert (next h ≤ b)%positive
          by (apply Hge; do 2 right; apply elem_of_slots; eauto).
        lia.
      * rewrite (renewed_other (mem st1) pb pl bs ls j p c n out) by done.
        apply Hout. intros Hin.
        apply elem_of_cons in Hin as [->|Hin]; [done|].
        apply elem_of_cons in Hin as [->|Hin]; [done|].
        apply elem_of_slots in Hin as [j' Hj'].
        destruct (decide (j' = j)) as [->|Hne]; [congruence|].
        apply Hb. do 2 right. apply elem_of_slots. exists j'.
        by rewrite list_lookup_insert_ne.
  - assert (∃ b, p = Some b) as [b ->].
    { destruct p; [eauto|]. destruct Hr. by left. }
    assert (Z.of_nat (length out) < c) as Hfit
      by (unfold must_replace in Hr; lia).
    injection Hcomp as -> ->.
    destruct (reused_state k st1 pb pl bs ls b c out Hwf Hi Hshape Hp Hc Hfit)
      as [_ Hshape'].
    unfold owns. rewrite (pool_blocks_shape k _ _ _ _ _ ltac:(lia) Hshape').
    split; [done|]. split; [done|].
    intros b' Hb'. cbn [mem]. unfold heap_written. cbn [live].
    rewrite lookup_insert_ne; [by apply Hout|].
    intros <-. apply Hb'. do 2 right. apply elem_of_slots. eauto.
Qed.

Lemma owns_cleanup k h st :
  1 ≤ k ≤ INT_MAX → heap_wf h → pool_inv k st → owns h st →
  ∃ st', rd_string_thread_cleanup st = Some st' ∧ pool_inv k st' ∧
         owns h st' ∧ pool_blocks st' = [].
Proof.
  intros Hk Hwfh Hinv Hown.
  destruct (decide (size (tsp st) = 0)) as [Hsz|Hsz].
  - exists st. split; [by apply cleanup_uninit|]. split; [done|].
    split; [done|]. by apply pool_blocks_uninit.
  - destruct (pool_inv_shape k st Hinv Hsz) as (pb & pl & bs & ls & Hshape).
    pose proof Hinv as (Hwf & _).
    exists (torn_down st pb pl bs).
    split; [by apply (cleanup_init k _ _ _ _ ls)|].
    split; [by apply (torn_down_inv k _ _ _ _ ls)|].
    assert (pool_blocks (torn_down st pb pl bs) = []) as Hnil
      by (by apply pool_blocks_uninit).
    split; [|done].
    destruct Hown as (Hnext & Hge & Hout).
    rewrite (pool_blocks_shape k _ _ _ _ _ ltac:(lia) Hshape) in Hge, Hout.
    unfold owns. rewrite Hnil. split; [done|]. split.
    + intros b Hb. by apply elem_of_nil in Hb.
    + intros b _. rewrite torn_down_lookup. case_decide as Hb.
      * symmetry. apply eq_None_not_Some. intros [o Ho].
        apply Hwfh in Ho.
        assert (next h ≤ b)%positive.
        { apply Hge. destruct Hb as [->|[->|Hb]].
          - right. by left.
          - by left.
          - by do 2 right. }
        lia.
      * apply Hout. intros Hin. apply Hb.
        apply elem_of_cons in Hin as [->|Hin]; [tauto|].
        apply elem_of_cons in Hin as [->|Hin]; tauto.
Qed.

Lemma owns_step k h st o :
  1 ≤ k ≤ INT_MAX → heap_wf h → pool_inv k st → op_ok o → owns h st →
  ∃ st', step k o st = Some st' ∧ pool_inv k st' ∧ owns h st'.
Proof.
  intros Hk Hwfh Hinv Ho Hown. destruct o as [f|]; simpl.
  - destruct (owns_render k h st f Hk Hwfh Hinv Ho Hown)
      as (r & st' & -> & ? & ?).
    by exists st'.
  - destruct (owns_cleanup k h st Hk Hwfh Hinv Hown)
      as (st' & -> & ? & ? & _).
    by exists st'.
Qed.

Lemma owns_run k h ops st :
  1 ≤ k ≤ INT_MAX → heap_wf h → pool_inv k st → Forall op_ok ops →
  owns h st →
  ∃ st', run k ops st = Some st' ∧ pool_inv k st' ∧ owns h st'.
Proof.
  intros Hk Hwfh Hinv Hops. revert st Hinv.
  induction Hops as [|o ops Ho Hops IH]; intros st Hinv Hown.
  - by exists st.
  - destruct (owns_step k h st o Hk Hwfh Hinv Ho Hown)
      as (st1 & Hstep & Hinv1 & Hown1).
    destruct (IH st1 Hinv1 Hown1) as (st' & Hrun & ? & ?).
    exists st'. simpl. rewrite Hstep. done.
Qed.

Lemma owns_fresh_thread h : owns h (fresh_thread h).
Proof.
  split; [simpl; lia|]. split.
  - intros b Hb. by apply elem_of_nil in Hb.
  - done.
Qed.

(** X19: whatever a thread calls, the blocks that were live on the heap
    when it started are never freed nor written by its pool. *)
Theorem foreign_blocks_untouched k h ops :
  1 ≤ k ≤ INT_MAX → heap_wf h → Forall op_ok ops →
  ∃ st', run k ops (fresh_thread h) = Some st' ∧
         ∀ b, is_Some (live h !! b) → live (mem st') !! b = live h !! b.
Proof.
  intros Hk Hwfh Hops.
  destruct (owns_run k h ops (fresh_thread h) Hk Hwfh)
    as (st' & Hrun & _ & _ & Hge & Hout);
    [apply fresh_thread_inv; [lia|done]|done|apply owns_fresh_thread|].
  exists st'. split; [done|].
  intros b [o Ho]. apply Hout. intros Hin%Hge.
  apply Hwfh in Ho. lia.
Qed.

Lemma foreign_blocks_untouched_witness :
  (1 ≤ 2 ≤ INT_MAX ∧ heap_wf busy_heap ∧
   Forall op_ok [Render (Formatted abc); Render (Formatted small10);
                 Render (Formatted big500); Cleanup]) ∧
  ∃ st', run 2 [Render (Formatted abc); Render (Formatted small10);
                Render (Formatted big500); Cleanup]
           (fresh_thread busy_heap) = Some st' ∧
         ∀ b, is_Some (live busy_heap !! b) →
              live (mem st') !! b = live busy_heap !! b.
Proof.
  assert (1 ≤ 2 ≤ INT_MAX) as Hk by (unfold INT_MAX; lia).
  assert (heap_wf busy_heap) as Hwf
    by (apply (bool_decide_unpack _); vm_compute; exact I).
  assert (Forall op_ok [Render (Formatted abc); Render (Formatted small10);
                        Render (Formatted big500); Cleanup]) as Hops
    by (apply (bool_decide_unpack _); vm_compute; exact I).
  split; [done|].
  exact (foreign_blocks_untouched 2 busy_heap _ Hk Hwf Hops).
Defined.

(** X20: a teardown at the end of any sequence of calls leaves the heap
    with exactly the blocks it had when the thread started: the pool
    leaks nothing. *)
Theorem cleanup_returns_heap k h ops :
  1 ≤ k ≤ INT_MAX → heap_wf h → Forall op_ok ops →
  ∃ st', run k (ops ++ [Cleanup]) (fresh_thread h) = Some st' ∧
         live (mem st') = live h.
Proof.
  intros Hk Hwfh Hops.
  destruct (owns_run k h ops (fresh_thread h) Hk Hwfh)
    as (st1 & Hrun & Hinv1 & Hown1);
    [apply fresh_thread_inv; [lia|done]|done|apply owns_fresh_thread|].
  destruct (owns_cleanup k h st1 Hk Hwfh Hinv1 Hown1)
    as (st' & Hclean & _ & (_ & _ & Hout) & Hnil).
  exists st'. rewrite run_app, Hrun. simpl. rewrite Hclean. split; [done|].
  apply map_eq. intros b. apply Hout. rewrite Hnil. apply not_elem_of_nil.
Qed.

Lemma cleanup_returns_heap_witness :
  (1 ≤ 2 ≤ INT_MAX ∧ heap_wf busy_heap ∧
   Forall op_ok [Render (Formatted abc); Render (Formatted small10);
                 Render (Formatted big500)]) ∧
  ∃ st', run 2 ([Render (Formatted abc); Render (Formatted small10);
                 Render (Formatted big500)] ++ [Cleanup])
           (fresh_thread busy_heap) = Some st' ∧
         live (mem st') = live busy_heap.
Proof.
  assert (1 ≤ 2 ≤ INT_MAX) as Hk by (unfold INT_MAX; lia).
  assert (heap_wf busy_heap) as Hwf
    by (apply (bool_decide_unpack _); vm_compute; exact I).
  assert (Forall op_ok [Render (Formatted abc); Render (Formatted small10);
                        Render (Formatted big500)]) as Hops
    by (apply (bool_decide_unpack _); vm_compute; exact I).
  split; [done|].
  exact (cleanup_returns_heap 2 busy_heap _ Hk Hwf Hops).
Defined.

Lemma length_slots (bs : list (option positive)) :
  (length (omap id bs) ≤ length bs)%nat.
Proof.
  induction bs as [|[b|] bs IH]; [done| |].
  - change (omap id (Some b :: bs)) with (b :: omap id bs). simpl. lia.
  - change (omap id (None :: bs)) with (omap id bs). simpl. lia.
Qed.

Lemma pool_blocks_length k st :
  1 ≤ k → pool_inv k st → (length (pool_blocks st) ≤ Z.to_nat k + 2)%nat.
Proof.
  intros Hk Hinv.
  destruct (decide (size (tsp st) = 0)) as [Hsz|Hsz].
  - rewrite (pool_blocks_uninit _ Hsz). simpl. lia.
  - destruct (pool_inv_shape k st Hinv Hsz) as (pb & pl & bs & ls & Hshape).
    rewrite (pool_blocks_shape k _ _ _ _ _ ltac:(lia) Hshape).
    destruct Hshape. simpl. pose proof (length_slots bs). lia.
Qed.

(** X21: at any moment the thread's pool holds at most [k + 2] blocks of
    the heap, the two arrays and one block per slot, however many calls
    were made. *)
Theorem pool_holds_few_blocks k h ops :
  1 ≤ k ≤ INT_MAX → heap_wf h → Forall op_ok ops →
  ∃ st' held,
    run k ops (fresh_thread h) = Some st' ∧
    (length held ≤ Z.to_nat k + 2)%nat ∧
    ∀ b, is_Some (live (mem st') !! b) →
         is_Some (live h !! b) ∨ b ∈ held.
Proof.
  intros Hk Hwfh Hops.
  destruct (owns_run k h ops (fresh_thread h) Hk Hwfh)
    as (st' & Hrun & Hinv' & _ & _ & Hout);
    [apply fresh_thread_inv; [lia|done]|done|apply owns_fresh_thread|].
  exists st', (pool_blocks st'). split; [done|].
  split; [apply pool_blocks_length; [lia|done]|].
  intros b Hb. destruct (decide (b ∈ pool_blocks st')) as [Hin|Hin].
  - by right.
  - left. by rewrite <- (Hout b Hin).
Qed.

Lemma pool_holds_few_blocks_witness :
  (1 ≤ 2 ≤ INT_MAX ∧ heap_wf busy_heap ∧
   Forall op_ok [Render (Formatted abc); Render (Formatted small10);
                 Render (Formatted big500); Render (Formatted abc)]) ∧
  ∃ st' held,
    run 2 [Render (Formatted abc); Render (Formatted small10);
           Render (Formatted big500); Render (Formatted abc)]
      (fresh_thread busy_heap) = Some st' ∧
    (length held ≤ Z.to_nat 2 + 2)%nat ∧
    ∀ b, is_Some (live (mem st') !! b) →
         is_Some (live busy_heap !! b) ∨ b ∈ held.
Proof.
  assert (1 ≤ 2 ≤ INT_MAX) as Hk by (unfold INT_MAX; lia).
  assert (heap_wf busy_heap) as Hwf
    by (apply (bool_decide_unpack _); vm_compute; exact I).
  assert (Forall op_ok [Render (Formatted abc); Render (Formatted small10);
                        Render (Formatted big500); Render (Formatted abc)])
    as Hops by (apply (bool_decide_unpack _); vm_compute; exact I).
  split; [done|].
  exact (pool_holds_few_blocks 2 busy_heap _ Hk Hwf Hops).
Defined.

(** X22: after a successful call the capacity of the slot it used is at
    least the length needed and at most four times that length, or 64
    when that is more. *)
Theorem capacity_bounded k st out :
  1 ≤ k ≤ INT_MAX → pool_inv k st → no_overflow out →
  ∃ r st' c',
    rd_tsprintf k (Formatted out) st = Some (r, st') ∧
    slot_capacity st' (i (tsp st')) = Some c' ∧
    Z.of_nat (length out) + 1 ≤ c' ≤ Z.max ((Z.of_nat (length out) + 1) * 4) 64.
Proof.
  intros Hk Hinv Hout.
  destruct (tsprintf_success k st out Hk Hinv Hout)
    as (p & c & r & st' & _ & _ & Hok & Hrun & []).
  destruct (decide (must_replace p c (Z.of_nat (length out) + 1)))
    as [Hr|Hr].
  - destruct (post_replaced0 Hr) as (_ & Hc' & _).
    exists r, st', (Z.of_nat (length out) + 1).
    rewrite post_tsp0. split; [done|]. split; [done|]. lia.
  - destruct (post_kept0 Hr) as (_ & Hc').
    exists r, st', c.
    rewrite post_tsp0. split; [done|]. split; [done|].
    unfold must_replace in Hr. lia.
Qed.

Lemma capacity_bounded_witness :
  (1 ≤ 2 ≤ INT_MAX ∧ pool_inv 2 after_two_calls ∧ no_overflow small10) ∧
  ∃ r st' c',
    rd_tsprintf 2 (Formatted small10) after_two_calls = Some (r, st') ∧
    slot_capacity st' (i (tsp st')) = Some c' ∧
    Z.of_nat (length small10) + 1 ≤ c'
    ≤ Z.max ((Z.of_nat (length small10) + 1) * 4) 64.
Proof.
  assert (1 ≤ 2 ≤ INT_MAX) as Hk by (unfold INT_MAX; lia).
  assert (pool_inv 2 after_two_calls) as Hinv
    by (apply (bool_decide_unpack _); vm_compute; exact I).
  assert (no_overflow small10) as Hout
    by (apply (bool_decide_unpack _); vm_compute; exact I).
  split; [done|].
  exact (capacity_bounded 2 _ small10 Hk Hinv Hout).
Defined.
